(** * ober-ml: the similarity-graph kernel and the Chinese Whispers engine

    A shallow embedding of
    - [src/ober/tokens/tokens_inner.pyx] ([argpartition], the emission loop of
      [calculate_edges]),
    - [com.ober.ml.cw.graph.Graph] ([addNode], [addEdge], [getEdgeWeight],
      [getNeighbors], [getEdges], [sortEdges], node classes),
    - [com.ober.ml.cw.WSI] ([loadDistributedGraph], [Worker.chineseWhispers],
      [Worker.findClusters]),
    and the properties of the specification that concern them. *)

From Stdlib Require Import ZArith QArith Qabs List Lia Lqa Permutation Sorted.
From stdpp Require Import base option list gmap.

Open Scope Z_scope.

(** ** Outcomes

    Every operation either returns or stops: a Cython buffer access outside
    its allocation or a signed overflow (undefined behaviour in the generated
    C, [boundscheck=False]), a Java runtime exception or error, or a loop
    model that ran out of fuel. *)

Inductive error : Type :=
| OutOfBounds
| SignedOverflow
| OutOfFuel
| NullPointerException
| ArrayIndexOutOfBoundsException
| IndexOutOfBoundsException
| NegativeArraySizeException
| IllegalArgumentException
| OutOfMemoryError.

Inductive result (A : Type) : Type :=
| Ok (a : A)
| Err (e : error).

Arguments Ok {A} a.
Arguments Err {A} e.

Definition bind {A B : Type} (m : result A) (f : A -> result B) : result B :=
  match m with
  | Ok a => f a
  | Err e => Err e
  end.

Notation "x <- m ;; k" := (bind m (fun x => k))
  (at level 100, m at next level, right associativity).

(** What an observer [f] sees of a result. *)
Definition rmap {A B : Type} (f : A -> B) (m : result A) : result B :=
  x <- m ;; Ok (f x).

(** ** C buffers ([INT_t *], [REAL_t *], [GraphEdge *]) *)

Definition read {A : Type} (a : list A) (i : Z) : result A :=
  if 0 <=? i then
    match a !! Z.to_nat i with
    | Some x => Ok x
    | None => Err OutOfBounds
    end
  else Err OutOfBounds.

Definition write {A : Type} (a : list A) (i : Z) (x : A) : result (list A) :=
  if (0 <=? i) && (i <? Z.of_nat (length a))
  then Ok (<[Z.to_nat i := x]> a)
  else Err OutOfBounds.

Definition INT_MAX : Z := 2147483647.
Definition INT_MIN : Z := -2147483648.

(** A result of C [int] arithmetic. *)
Definition int_of (s : Z) : result Z :=
  if (INT_MIN <=? s) && (s <=? INT_MAX) then Ok s else Err SignedOverflow.

(** [a + b], [a - b] and [a * b] on C [int]s. *)
Definition int_add (a b : Z) : result Z := int_of (a + b).
Definition int_sub (a b : Z) : result Z := int_of (a - b).
Definition int_mul (a b : Z) : result Z := int_of (a * b).

Definition Qlt_bool (x y : Q) : bool := negb (Qle_bool y x).

(** [REAL_t] is [float32]: a finite value, which is a rational, an infinity
    or a NaN. The code below compares scores and copies them, it never
    computes with them. *)
Inductive REAL_t : Type :=
| Finite (q : Q)
| PlusInf
| MinusInf
| NaN.

Bind Scope Q_scope with REAL_t.
Coercion Finite : Q >-> REAL_t.

(** [x <= y] and [x < y] on [REAL_t]: the order of the extended rationals,
    and false when an operand is a NaN. *)
Definition REAL_leb (x y : REAL_t) : bool :=
  match x, y with
  | NaN, _ | _, NaN => false
  | MinusInf, _ | _, PlusInf => true
  | Finite a, Finite b => Qle_bool a b
  | _, _ => false
  end.

Definition REAL_ltb (x y : REAL_t) : bool :=
  match x, y with
  | NaN, _ | _, NaN => false
  | PlusInf, _ | _, MinusInf => false
  | Finite a, Finite b => Qlt_bool a b
  | _, _ => true
  end.

Module TokensInner.

(** *** [argpartition] (tokens_inner.pyx, lines 144-169) *)

(** The inner [while r < w] loop. It runs [w - r] times: each turn either
    lowers [w] or raises [r] by one. *)
Fixpoint partition_loop (fuel : nat) (similar : list REAL_t) (mid : REAL_t)
    (nearest : list Z) (r w : Z) : result (list Z * Z * Z) :=
  if r <? w then
    match fuel with
    | O => Err OutOfFuel
    | S fuel' =>
        nr <- read nearest r ;;
        sr <- read similar nr ;;
        if REAL_leb sr mid then
          temp <- read nearest w ;;
          nearest1 <- write nearest w nr ;;
          nearest2 <- write nearest1 r temp ;;
          partition_loop fuel' similar mid nearest2 r (w - 1)
        else
          partition_loop fuel' similar mid nearest (r + 1) w
    end
  else Ok (nearest, r, w).

(** The outer [while from_i < to_i] loop. Of the [int] arithmetic inside
    the loop only [r + w] can leave the range of an [int]; the other
    results stay between [from_i - 1] and [to_i + 1]. [cdivision=True]
    makes [/] the division of C. A turn that moves neither end leaves the
    loop running: the model runs out of fuel where the code does not
    return. *)
Fixpoint argpartition_loop (fuel : nat) (similar : list REAL_t) (k : Z)
    (nearest : list Z) (from_i to_i : Z) : result (list Z) :=
  if from_i <? to_i then
    match fuel with
    | O => Err OutOfFuel
    | S fuel' =>
        let r := from_i in
        let w := to_i in
        s <- int_add r w ;;
        m <- read nearest (Z.quot s 2) ;;
        mid <- read similar m ;;
        st <- partition_loop (Z.to_nat (w - r)) similar mid nearest r w ;;
        let '(nearest1, r1, _) := st in
        nr <- read nearest1 r1 ;;
        sr <- read similar nr ;;
        let r2 := if REAL_ltb sr mid then r1 - 1 else r1 in
        if k <=? r2
        then argpartition_loop fuel' similar k nearest1 from_i r2
        else argpartition_loop fuel' similar k nearest1 (r2 + 1) to_i
    end
  else Ok nearest.

(** Turns of the outer loop that always suffice for a buffer of [size]
    entries whose scores are not NaN (see [argpartition_loop_spec]). *)
Definition argpartition_fuel (size : Z) : nat :=
  Z.to_nat ((size + 1) * (size + 1)).

Definition argpartition (nearest : list Z) (similar : list REAL_t)
    (k size : Z) : result (list Z) :=
  to_i <- int_sub size 1 ;;
  argpartition_loop (argpartition_fuel size) similar k nearest 0 to_i.

(** *** [calculate_edges] (tokens_inner.pyx, lines 106-142) *)

Record GraphEdge : Type := mkGraphEdge {
  from_index : Z;
  to_index : Z;
  weight : REAL_t
}.

Definition set_from_index (v : Z) (e : GraphEdge) : GraphEdge :=
  {| from_index := v; to_index := to_index e; weight := weight e |}.
Definition set_to_index (v : Z) (e : GraphEdge) : GraphEdge :=
  {| from_index := from_index e; to_index := v; weight := weight e |}.
Definition set_weight (v : REAL_t) (e : GraphEdge) : GraphEdge :=
  {| from_index := from_index e; to_index := to_index e; weight := v |}.

(** [edges[slot].field = v]: a store into one field of one slot. *)
Definition store_field (edges : list GraphEdge) (slot : Z)
    (f : GraphEdge -> GraphEdge) : result (list GraphEdge) :=
  e <- read edges slot ;;
  write edges slot (f e).

(** [memcpy(dst, src, count * sizeof(INT_t))]; a negative [count] becomes a
    size beyond every buffer. *)
Definition memcpy (dst src : list Z) (count : Z) : result (list Z) :=
  if (0 <=? count) && (count <=? Z.of_nat (length dst))
     && (count <=? Z.of_nat (length src))
  then Ok (take (Z.to_nat count) src ++ drop (Z.to_nat count) dst)
  else Err OutOfBounds.

(** [for j in range(N_TOKENS): c_sim[j] = c_similar[j * batch_size + i]];
    [cnt] counts the turns left. The index is computed on [int]s. *)
Fixpoint copy_row (cnt : nat) (j : Z) (c_similar : list REAL_t)
    (batch_size i : Z) (c_sim : list REAL_t) : result (list REAL_t) :=
  match cnt with
  | O => Ok c_sim
  | S cnt' =>
      row <- int_mul j batch_size ;;
      at_i <- int_add row i ;;
      x <- read c_similar at_i ;;
      c_sim1 <- write c_sim j x ;;
      copy_row cnt' (j + 1) c_similar batch_size i c_sim1
  end.

(** [for j in range(n+1)]: the emission of the edges of the token
    [start_index + i]; the slot [(start_index+i)*n+j+offset] is computed on
    [int]s. *)
Fixpoint emit_loop (cnt : nat) (j offset start_index i n : Z)
    (c_nearest : list Z) (c_sim : list REAL_t) (edges : list GraphEdge)
    : result (list GraphEdge) :=
  match cnt with
  | O => Ok edges
  | S cnt' =>
      to_index <- read c_nearest j ;;
      token <- int_add start_index i ;;
      let offset := if to_index =? token then -1 else offset in
      base <- int_mul token n ;;
      at_j <- int_add base j ;;
      slot <- int_add at_j offset ;;
      edges1 <- store_field edges slot (set_from_index token) ;;
      edges2 <- store_field edges1 slot (set_to_index to_index) ;;
      w <- read c_sim to_index ;;
      edges3 <- store_field edges2 slot (set_weight w) ;;
      emit_loop cnt' (j + 1) offset start_index i n c_nearest c_sim edges3
  end.

(** The local buffers of a worker and the shared output array. *)
Record buffers : Type := mkBuffers {
  c_sim : list REAL_t;
  c_nearest : list Z;
  edges : list GraphEdge
}.

(** One turn of the loop over the batch (lines 124-142), for row [i] of the
    batch that starts at [start_index]. *)
Definition process_row (i start_index : Z) (c_similar : list REAL_t)
    (nearest_temp : list Z) (N_TOKENS n batch_size : Z) (b : buffers)
    : result buffers :=
  c_nearest1 <- memcpy (c_nearest b) nearest_temp N_TOKENS ;;
  c_sim1 <- copy_row (Z.to_nat N_TOKENS) 0 c_similar batch_size i (c_sim b) ;;
  k <- int_add n 1 ;;
  c_nearest2 <- argpartition c_nearest1 c_sim1 k N_TOKENS ;;
  edges1 <- emit_loop (Z.to_nat k) 0 0 start_index i n
              c_nearest2 c_sim1 (edges b) ;;
  Ok {| c_sim := c_sim1; c_nearest := c_nearest2; edges := edges1 |}.

Fixpoint batch_loop (cnt : nat) (i start_index : Z) (c_similar : list REAL_t)
    (nearest_temp : list Z) (N_TOKENS n batch_size : Z) (b : buffers)
    : result buffers :=
  match cnt with
  | O => Ok b
  | S cnt' =>
      b1 <- process_row i start_index c_similar nearest_temp
              N_TOKENS n batch_size b ;;
      batch_loop cnt' (i + 1) start_index c_similar nearest_temp
        N_TOKENS n batch_size b1
  end.

(** "fill vector array", the inner loop:
    [for j in range(N_DIM):
       c_vector[j * batch_size + (i - start_index)] = c_vectors[j * N_TOKENS + i]];
    [cnt] counts the turns left, both indexes are computed on [int]s. *)
Fixpoint fill_column (cnt : nat) (j i start_index : Z)
    (c_vectors : list REAL_t) (N_TOKENS batch_size : Z)
    (c_vector : list REAL_t) : result (list REAL_t) :=
  match cnt with
  | O => Ok c_vector
  | S cnt' =>
      row <- int_mul j batch_size ;;
      col <- int_sub i start_index ;;
      dst <- int_add row col ;;
      from_row <- int_mul j N_TOKENS ;;
      src <- int_add from_row i ;;
      x <- read c_vectors src ;;
      c_vector1 <- write c_vector dst x ;;
      fill_column cnt' (j + 1) i start_index c_vectors N_TOKENS batch_size
        c_vector1
  end.

(** The outer loop, [for i in range(start_index, end_index)]. *)
Fixpoint fill_vector (cnt : nat) (i start_index : Z)
    (c_vectors : list REAL_t) (N_TOKENS N_DIM batch_size : Z)
    (c_vector : list REAL_t) : result (list REAL_t) :=
  match cnt with
  | O => Ok c_vector
  | S cnt' =>
      c_vector1 <- fill_column (Z.to_nat N_DIM) 0 i start_index c_vectors
                     N_TOKENS batch_size c_vector ;;
      fill_vector cnt' (i + 1) start_index c_vectors N_TOKENS N_DIM
        batch_size c_vector1
  end.

(** [calculate_edges] for batch [index]; [index * batch_size],
    [(index+1)*batch_size] and [end_index-start_index] are computed on
    [int]s. [blas_dotm l n m A B C] stands for the [sgemm] of the linked
    BLAS: what it leaves in [C], or a failure. The call returns the local
    buffers [c_similar] and [c_vector] with the others: a worker uses them
    again for its next batch. *)
Definition calculate_edges
    (blas_dotm : Z -> Z -> Z -> list REAL_t -> list REAL_t -> list REAL_t
                 -> result (list REAL_t))
    (index : Z) (c_vectors c_similar c_vector : list REAL_t)
    (nearest_temp : list Z) (N_TOKENS N_DIM n batch_size : Z) (b : buffers)
    : result (list REAL_t * list REAL_t * buffers) :=
  start_index <- int_mul index batch_size ;;
  next <- int_add index 1 ;;
  next_start <- int_mul next batch_size ;;
  let end_index := Z.min next_start N_TOKENS in
  if start_index >=? N_TOKENS then Ok (c_similar, c_vector, b)
  else
    c_vector1 <- fill_vector (Z.to_nat (end_index - start_index)) start_index
                   start_index c_vectors N_TOKENS N_DIM batch_size c_vector ;;
    c_similar1 <- blas_dotm batch_size N_TOKENS N_DIM c_vector1 c_vectors
                    c_similar ;;
    len <- int_sub end_index start_index ;;
    b1 <- batch_loop (Z.to_nat (Z.min batch_size len)) 0
            start_index c_similar1 nearest_temp N_TOKENS n batch_size b ;;
    Ok (c_similar1, c_vector1, b1).

End TokensInner.

Import TokensInner.

(** *** The index buffer as the specification reads it *)

(** The score of the entry at position [i] of an index buffer. *)
Definition score_at (similar : list REAL_t) (nearest : list Z) (i : nat)
    : REAL_t :=
  nth (Z.to_nat (nth i nearest 0)) similar (Finite 0).

(** The entry at position [i] of an index buffer. *)
Definition entry (a : list Z) (i : Z) : Z := nth (Z.to_nat i) a 0.

(** Every entry is an index into [similar]. *)
Definition valid {A : Type} (similar : list A) (a : list Z) : Prop :=
  Forall (fun x => 0 <= x < Z.of_nat (length similar)) a.

(** No entry points to a NaN. *)
Definition no_nan (similar : list REAL_t) (a : list Z) : Prop :=
  Forall (fun x => nth (Z.to_nat x) similar (Finite 0) <> NaN) a.

(** The buffer after [nearest[w] = nearest[r]; nearest[r] = temp]. *)
Definition swapped (a : list Z) (r w : Z) : list Z :=
  <[Z.to_nat r := entry a w]> (<[Z.to_nat w := entry a r]> a).

(** How many of [f lo], ..., [f (lo + n - 1)] hold. *)
Fixpoint count_from (f : Z -> bool) (lo : Z) (n : nat) : nat :=
  match n with
  | O => O
  | S n' => (if f lo then 1 else 0) + count_from f (lo + 1) n'
  end.

(** Every score in front of position [c] is at least every score from [c]
    on. *)
Definition split_at (similar : list REAL_t) (a : list Z) (c : Z) : Prop :=
  forall i j : nat, Z.of_nat i < c -> c <= Z.of_nat j -> (j < length a)%nat ->
    REAL_leb (score_at similar a j) (score_at similar a i) = true.

(** *** The loops on keys

    Where no score is a NaN the comparisons of the code are those of the
    order of the extended rationals, which [key] embeds into [Q]. The
    properties of [argpartition] are proved for the same loops on the keys
    of the scores and carried over (see [argpartition_loop_keys]). *)

(** An order embedding of the extended rationals into [Q]. *)
Definition key (x : REAL_t) : Q :=
  match x with
  | Finite q => q / (1 + Qabs q)
  | PlusInf => 1
  | MinusInf => -1
  | NaN => 0
  end.

Module Keys.

Fixpoint partition_loop (fuel : nat) (similar : list Q) (mid : Q)
    (nearest : list Z) (r w : Z) : result (list Z * Z * Z) :=
  if r <? w then
    match fuel with
    | O => Err OutOfFuel
    | S fuel' =>
        nr <- read nearest r ;;
        sr <- read similar nr ;;
        if Qle_bool sr mid then
          temp <- read nearest w ;;
          nearest1 <- write nearest w nr ;;
          nearest2 <- write nearest1 r temp ;;
          partition_loop fuel' similar mid nearest2 r (w - 1)
        else
          partition_loop fuel' similar mid nearest (r + 1) w
    end
  else Ok (nearest, r, w).

Fixpoint argpartition_loop (fuel : nat) (similar : list Q) (k : Z)
    (nearest : list Z) (from_i to_i : Z) : result (list Z) :=
  if from_i <? to_i then
    match fuel with
    | O => Err OutOfFuel
    | S fuel' =>
        let r := from_i in
        let w := to_i in
        s <- int_add r w ;;
        m <- read nearest (Z.quot s 2) ;;
        mid <- read similar m ;;
        st <- partition_loop (Z.to_nat (w - r)) similar mid nearest r w ;;
        let '(nearest1, r1, _) := st in
        nr <- read nearest1 r1 ;;
        sr <- read similar nr ;;
        let r2 := if Qlt_bool sr mid then r1 - 1 else r1 in
        if k <=? r2
        then argpartition_loop fuel' similar k nearest1 from_i r2
        else argpartition_loop fuel' similar k nearest1 (r2 + 1) to_i
    end
  else Ok nearest.

Definition argpartition (nearest : list Z) (similar : list Q) (k size : Z)
    : result (list Z) :=
  to_i <- int_sub size 1 ;;
  argpartition_loop (argpartition_fuel size) similar k nearest 0 to_i.

(** The key of the entry at position [i] of an index buffer. *)
Definition score_at (similar : list Q) (nearest : list Z) (i : nat) : Q :=
  nth (Z.to_nat (nth i nearest 0)) similar 0%Q.

Definition sc (similar : list Q) (a : list Z) (i : Z) : Q :=
  score_at similar a (Z.to_nat i).

(** A turn of the outer loop that narrows neither end rotates the range;
    what then goes down is the number of entries below the pivot between
    [from_i + 1] and the pivot position. *)
Definition mu (similar : list Q) (a : list Z) (from_i to_i : Z) : nat :=
  let p := (from_i + to_i) / 2 in
  count_from (fun j => Qlt_bool (sc similar a j) (sc similar a p)) (from_i + 1)
    (Z.to_nat (Z.max p (from_i + 1) - from_i)).

(** Every key in front of position [c] is at least every key from [c] on. *)
Definition split_at (similar : list Q) (a : list Z) (c : Z) : Prop :=
  forall i j, 0 <= i < c -> c <= j < Z.of_nat (length a) ->
    (sc similar a j <= sc similar a i)%Q.

End Keys.




(** The variable [offset] during turn [j] of the emission loop: [-1] once
    the token has been met among [c_nearest[0..j]], 0 before. *)
Definition emit_offset (c_nearest : list Z) (token j : Z) : Z :=
  if decide (token ∈ take (Z.to_nat (j + 1)) c_nearest) then -1 else 0.

(** The slot turn [j] stores into, [(start_index+i)*n+j+offset]. *)
Definition emit_slot (c_nearest : list Z) (token n j : Z) : Z :=
  token * n + j + emit_offset c_nearest token j.

(** The edge turn [j] stores. *)
Definition emitted (c_nearest : list Z) (c_sim : list REAL_t) (token j : Z)
    : GraphEdge :=
  {| from_index := token; to_index := entry c_nearest j;
     weight := nth (Z.to_nat (entry c_nearest j)) c_sim (Finite 0) |}.

(** ** Java values *)

(** [int] arithmetic wraps around. *)
Definition wrap32 (x : Z) : Z := (x + 2 ^ 31) mod 2 ^ 32 - 2 ^ 31.

(** A boxed [java.lang.Integer]: a value and an identity. [Integer.valueOf]
    (autoboxing) hands out one shared object per value in [-128, 127]
    ([ident = None]) and a fresh object otherwise ([ident = Some a], [a] the
    allocation number); an object has one value. [==] and [!=] on two
    [Integer]s compare identities; [equals], unboxing and [hashCode] use the
    value. *)
Record Integer : Type := mkInteger {
  ident : option nat;
  intValue : Z
}.

Definition same_object (a b : Integer) : bool :=
  match ident a, ident b with
  | None, None => intValue a =? intValue b
  | Some x, Some y => Nat.eqb x y && (intValue a =? intValue b)
  | _, _ => false
  end.

(** [Integer.valueOf(i)]; [heap] is the number of objects allocated so far. *)
Definition valueOf (heap : nat) (i : Z) : Integer * nat :=
  if (-128 <=? i) && (i <=? 127)
  then ({| ident := None; intValue := i |}, heap)
  else ({| ident := Some heap; intValue := i |}, S heap).

(** What the Java code does with [float]s. *)
Class FloatOps (Float : Type) : Type := {
  Fzero : Float;                                (* the literal [0] *)
  Fminus10000 : Float;                          (* the literal [-10000f] *)
  Fadd : Float -> Float -> Float;               (* [+] *)
  Fgt : Float -> Float -> bool;                 (* [>] *)
  Fcompare : Float -> Float -> comparison       (* [Float.compare] *)
}.

(** "[a] is not above [b]" for [Float.compare]. *)
Definition Fle {Float : Type} `{FloatOps Float} (a b : Float) : Prop :=
  Fcompare a b <> Gt.

#[global] Instance Integer_inhabited : Inhabited Integer :=
  populate (mkInteger None 0).
#[global] Instance Float_inhabited {Float : Type} `{FloatOps Float}
  : Inhabited Float := populate Fzero.

(** A Java array of references of length [len]: a finite map, an index
    without a binding holding [null]. *)
Definition aload {A : Type} (arr : gmap Z A) (len i : Z) : result (option A) :=
  if (0 <=? i) && (i <? len) then Ok (arr !! i)
  else Err ArrayIndexOutOfBoundsException.

(** Dereferencing. *)
Definition nonnull {A : Type} (o : option A) : result A :=
  match o with
  | Some x => Ok x
  | None => Err NullPointerException
  end.

(** [ArrayList.get]. *)
Definition list_get {A : Type} (l : list A) (i : nat) : result A :=
  match l !! i with
  | Some x => Ok x
  | None => Err IndexOutOfBoundsException
  end.

(** *** Allocation

    What the run decides about memory. [array_limit] is the longest array
    the VM grants: a request for more cells ends in [OutOfMemoryError]
    (no VM grants arrays of [2^31 - 1] cells, a small heap grants less).
    [hash_set_alloc n] is how [new IntOpenHashSet(n)] ends for [n >= 0],
    where the library chooses the table: [None] when the set is made, the
    exception or error otherwise. The model has the allocations whose
    length the code of [Graph] chooses; a collection that grows by [add]
    is taken to find room. *)
Class Runtime : Type := {
  array_limit : Z;
  hash_set_alloc : Z -> option error
}.

(** [new T[n]]: [n] cells holding [null]. *)
Definition new_array {A : Type} `{Runtime} (n : Z) : result (gmap Z A) :=
  if n <? 0 then Err NegativeArraySizeException
  else if n <=? array_limit then Ok ∅
  else Err OutOfMemoryError.

(** [Arrays.copyOf(a, n)] for an [n] that is not below the length of [a]:
    every cell is kept. *)
Definition Arrays_copyOf {A : Type} `{Runtime} (a : gmap Z A) (n : Z)
    : result (gmap Z A) :=
  if n <? 0 then Err NegativeArraySizeException
  else if n <=? array_limit then Ok a
  else Err OutOfMemoryError.

(** [new BitSet(nbits)] asks for [(nbits - 1) / 64 + 1] words. *)
Definition new_BitSet `{Runtime} (nbits : Z) : result (gset Z) :=
  if nbits <? 0 then Err NegativeArraySizeException
  else if (nbits - 1) / 64 + 1 <=? array_limit then Ok ∅
  else Err OutOfMemoryError.

(** [new ArrayList<>(n)]. *)
Definition new_ArrayList {A : Type} `{Runtime} (n : Z) : result (list A) :=
  if n <? 0 then Err IllegalArgumentException
  else if n <=? array_limit then Ok []
  else Err OutOfMemoryError.

(** [new IntOpenHashSet(n)]. *)
Definition new_IntOpenHashSet `{Runtime} (n : Z) : result (gset Z) :=
  if n <? 0 then Err IllegalArgumentException
  else match hash_set_alloc n with
       | None => Ok ∅
       | Some e => Err e
       end.

(** ** [com.ober.ml.cw.graph.Graph] *)

Module Graph.
Section WithFloat.
Context {Float : Type} `{Runtime}.

(** The four arrays always have the same length, the field [size]. *)
Record t : Type := mk {
  size : Z;
  nodes : gset Z;                               (* BitSet *)
  nodeClasses : gmap Z Integer;                 (* Integer[] *)
  edgeSourceSet : gmap Z (gset Z);              (* IntOpenHashSet[] *)
  edgeSources : gmap Z (list Integer);          (* ArrayList<Integer>[] *)
  edgeWeights : gmap Z (list Float);            (* ArrayList<Float>[] *)
  initialNumEdgesPerNode : Z
}.

(** [new Graph(initialSize, initialNumEdgesPerNode)]: the bit set and the
    four arrays, in the order of the constructor. *)
Definition new (initialSize initialNumEdgesPerNode : Z) : result t :=
  nodes0 <- new_BitSet initialSize ;;
  nodeClasses0 <- new_array initialSize ;;
  edgeSourceSet0 <- new_array initialSize ;;
  edgeWeights0 <- new_array initialSize ;;
  edgeSources0 <- new_array initialSize ;;
  Ok {| size := initialSize; nodes := nodes0; nodeClasses := nodeClasses0;
        edgeSourceSet := edgeSourceSet0; edgeSources := edgeSources0;
        edgeWeights := edgeWeights0;
        initialNumEdgesPerNode := initialNumEdgesPerNode |}.

(** [new Graph()] is [this(10, 10)]; this is the graph it makes when the
    VM grants arrays of ten cells. *)
Definition new_default : t :=
  {| size := 10; nodes := ∅; nodeClasses := ∅;
     edgeSourceSet := ∅; edgeSources := ∅; edgeWeights := ∅;
     initialNumEdgesPerNode := 10 |}.

(** [ensureCapacity(int minSize)]: four calls of [Arrays.copyOf] when the
    arrays are too short; [size * 2] wraps around. *)
Definition ensureCapacity (minSize : Z) (g : t) : result t :=
  if minSize >? size g then
    let newSize := Z.max minSize (wrap32 (size g * 2)) in
    nodeClasses1 <- Arrays_copyOf (nodeClasses g) newSize ;;
    edgeSourceSet1 <- Arrays_copyOf (edgeSourceSet g) newSize ;;
    edgeSources1 <- Arrays_copyOf (edgeSources g) newSize ;;
    edgeWeights1 <- Arrays_copyOf (edgeWeights g) newSize ;;
    Ok {| size := newSize; nodes := nodes g; nodeClasses := nodeClasses1;
          edgeSourceSet := edgeSourceSet1; edgeSources := edgeSources1;
          edgeWeights := edgeWeights1;
          initialNumEdgesPerNode := initialNumEdgesPerNode g |}
  else Ok g.

(** [addNode(Integer node)]. [BitSet.get] rejects a negative index; the
    three collections are made with [initialNumEdgesPerNode] as their
    capacity, each before its store, and the first store rejects an index
    outside the arrays. ([nodes.set] lengthens the bit set to at most
    [2 * (node / 64 + 1)] words, which the model takes as granted.) *)
Definition addNode (node : Integer) (g : t) : result t :=
  let v := intValue node in
  g1 <- ensureCapacity (wrap32 (v + 1)) g ;;
  if v <? 0 then Err IndexOutOfBoundsException
  else if decide (v ∈ nodes g1) then Ok g1
  else
    set <- new_IntOpenHashSet (initialNumEdgesPerNode g1) ;;
    if v <? size g1 then
      sources <- new_ArrayList (initialNumEdgesPerNode g1) ;;
      weights <- new_ArrayList (initialNumEdgesPerNode g1) ;;
      Ok {| size := size g1; nodes := {[v]} ∪ nodes g1;
            nodeClasses := nodeClasses g1;
            edgeSourceSet := <[v := set]> (edgeSourceSet g1);
            edgeSources := <[v := sources]> (edgeSources g1);
            edgeWeights := <[v := weights]> (edgeWeights g1);
            initialNumEdgesPerNode := initialNumEdgesPerNode g1 |}
    else Err ArrayIndexOutOfBoundsException.

(** One direction of [addEdge]:
    [if (edgeSourceSet[a].add(b)) { edgeSources[a].add(b); edgeWeights[a].add(weight); }] *)
Definition link (a b : Integer) (weight : Float) (g : t) : result t :=
  let i := intValue a in
  oset <- aload (edgeSourceSet g) (size g) i ;;
  set <- nonnull oset ;;
  if decide (intValue b ∈ set) then Ok g
  else
    osrc <- aload (edgeSources g) (size g) i ;;
    src <- nonnull osrc ;;
    owts <- aload (edgeWeights g) (size g) i ;;
    wts <- nonnull owts ;;
    Ok {| size := size g; nodes := nodes g; nodeClasses := nodeClasses g;
          edgeSourceSet := <[i := {[intValue b]} ∪ set]> (edgeSourceSet g);
          edgeSources := <[i := src ++ [b]]> (edgeSources g);
          edgeWeights := <[i := wts ++ [weight]]> (edgeWeights g);
          initialNumEdgesPerNode := initialNumEdgesPerNode g |}.

(** [addEdge(Integer from, Integer to, Float weight)]; the guard
    [from != to] compares the two references. *)
Definition addEdge (from to : Integer) (weight : Float) (g : t) : result t :=
  if negb (same_object from to) then
    g1 <- addNode from g ;;
    g2 <- addNode to g1 ;;
    g3 <- link from to weight g2 ;;
    link to from weight g3
  else Ok g.

(** The scan of [getEdgeWeight], from position [i] on. *)
Fixpoint getEdgeWeight_scan (edges : list Integer) (i : nat)
    (weights : option (list Float)) (to : Integer) (zero : Float)
    : result Float :=
  match edges with
  | [] => Ok zero
  | e :: rest =>
      if intValue e =? intValue to then
        ws <- nonnull weights ;;
        list_get ws i
      else getEdgeWeight_scan rest (S i) weights to zero
  end.

(** [getEdgeWeight(Integer from, Integer to)]: [edges.size()] dereferences
    [edgeSources[from]] without a test. *)
Definition getEdgeWeight `{FloatOps Float} (from to : Integer) (g : t)
    : result Float :=
  oedges <- aload (edgeSources g) (size g) (intValue from) ;;
  oweights <- aload (edgeWeights g) (size g) (intValue from) ;;
  edges <- nonnull oedges ;;
  getEdgeWeight_scan edges 0 oweights to Fzero.

(** [getNeighbors(Integer node)]. *)
Definition getNeighbors (node : Integer) (g : t) : result (list Integer) :=
  osrc <- aload (edgeSources g) (size g) (intValue node) ;;
  match osrc with
  | None => Ok []
  | Some src => Ok src
  end.

(** The loop of [getEdges]: [edges.add(new Edge(sources.get(i), weights.get(i)))]. *)
Fixpoint getEdges_loop (sources : list Integer) (i : nat)
    (weights : option (list Float)) : result (list (Integer * Float)) :=
  match sources with
  | [] => Ok []
  | s :: rest =>
      ws <- nonnull weights ;;
      w <- list_get ws i ;;
      es <- getEdges_loop rest (S i) weights ;;
      Ok ((s, w) :: es)
  end.

(** [getEdges(Integer node)]; an [Edge<Integer, Float>] is a pair. *)
Definition getEdges (node : Integer) (g : t)
    : result (list (Integer * Float)) :=
  osrc <- aload (edgeSources g) (size g) (intValue node) ;;
  match osrc with
  | None => Ok []
  | Some src =>
      oweights <- aload (edgeWeights g) (size g) (intValue node) ;;
      getEdges_loop src 0 oweights
  end.

(** [getNodeClass(Integer node)]; the result may be [null]. *)
Definition getNodeClass (node : Integer) (g : t) : result (option Integer) :=
  if intValue node <? size g
  then aload (nodeClasses g) (size g) (intValue node)
  else Ok None.

(** [setNodeClass(Integer node, Integer c)]; [c] may be [null]. *)
Definition setNodeClass (node : Integer) (c : option Integer) (g : t)
    : result t :=
  if intValue node <? size g then
    if 0 <=? intValue node then
      Ok {| size := size g; nodes := nodes g;
            nodeClasses :=
              match c with
              | Some x => <[intValue node := x]> (nodeClasses g)
              | None => delete (intValue node) (nodeClasses g)
              end;
            edgeSourceSet := edgeSourceSet g; edgeSources := edgeSources g;
            edgeWeights := edgeWeights g;
            initialNumEdgesPerNode := initialNumEdgesPerNode g |}
    else Err ArrayIndexOutOfBoundsException
  else Ok g.

(** [getNodes()]: [for (int node = 0; node < size; node++)], boxing every
    present node; [cnt] counts the turns left. *)
Fixpoint getNodes_loop (cnt : nat) (node : Z) (g : t) (heap : nat)
    : list Integer * nat :=
  match cnt with
  | O => ([], heap)
  | S cnt' =>
      if decide (node ∈ nodes g) then
        let (boxed, heap1) := valueOf heap node in
        let (rest, heap2) := getNodes_loop cnt' (node + 1) g heap1 in
        (boxed :: rest, heap2)
      else getNodes_loop cnt' (node + 1) g heap
  end.

Definition getNodes (g : t) (heap : nat) : list Integer * nat :=
  getNodes_loop (Z.to_nat (size g)) 0 g heap.

(** *** [sortEdges] *)

(** [Arrays.sort(Integer[], Comparator)] is a stable sort; a stable sort has
    one result, computed here by insertion from the right. The indexes are
    sorted together with the weights [weights.get(i)] the comparator reads. *)
Fixpoint sort_insert `{FloatOps Float} (x : nat * Float)
    (l : list (nat * Float)) : list (nat * Float) :=
  match l with
  | [] => [x]
  | y :: l' =>
      match Fcompare (snd x) (snd y) with
      | Gt => y :: sort_insert x l'
      | _ => x :: l
      end
  end.

Definition Arrays_sort `{FloatOps Float} (l : list (nat * Float))
    : list (nat * Float) :=
  foldr sort_insert [] l.

(** [for i: sorted.add(l.get(indexes[i]))]. *)
Fixpoint gather {A : Type} (l : list A) (indexes : list nat)
    : result (list A) :=
  match indexes with
  | [] => Ok []
  | i :: rest =>
      x <- list_get l i ;;
      xs <- gather l rest ;;
      Ok (x :: xs)
  end.

(** The body of the loop of [sortEdges] for one node with a neighbour list.
    An index beyond [weights] ends the turn in [IndexOutOfBoundsException],
    in the comparator or in the copy. *)
Definition sort_node `{FloatOps Float} (sources : list Integer)
    (oweights : option (list Float)) : result (list Integer * list Float) :=
  weights <- nonnull oweights ;;
  if (length sources <=? length weights)%nat then
    let n := length sources in
    let indexes := fst <$> Arrays_sort (zip (seq 0 n) (take n weights)) in
    sourcesSorted <- gather sources indexes ;;
    weightsSorted <- gather weights indexes ;;
    Ok (sourcesSorted, weightsSorted)
  else Err IndexOutOfBoundsException.

(** [for (Integer node = 0; node < edgeSources.length; node++)]. *)
Fixpoint sortEdges_loop `{FloatOps Float} (cnt : nat) (node : Z) (g : t)
    : result t :=
  match cnt with
  | O => Ok g
  | S cnt' =>
      match edgeSources g !! node with
      | None => sortEdges_loop cnt' (node + 1) g
      | Some sources =>
          sorted <- sort_node sources (edgeWeights g !! node) ;;
          sortEdges_loop cnt' (node + 1)
            {| size := size g; nodes := nodes g;
               nodeClasses := nodeClasses g;
               edgeSourceSet := edgeSourceSet g;
               edgeSources := <[node := fst sorted]> (edgeSources g);
               edgeWeights := <[node := snd sorted]> (edgeWeights g);
               initialNumEdgesPerNode := initialNumEdgesPerNode g |}
      end
  end.

Definition sortEdges `{FloatOps Float} (g : t) : result t :=
  sortEdges_loop (Z.to_nat (size g)) 0 g.

(** *** The graph as the specification reads it *)

(** [adj(v)]: the neighbour ids of [v], empty for an absent [v]. *)
Definition adj (g : t) (v : Z) : list Z :=
  match edgeSources g !! v with
  | Some src => intValue <$> src
  | None => []
  end.

(** [w(v)]: the weight sequence of [v]. *)
Definition w (g : t) (v : Z) : list Float :=
  match edgeWeights g !! v with
  | Some wts => wts
  | None => []
  end.

(** Graphs made with the constructor, [addNode] and [addEdge]. *)
Inductive built : t -> Prop :=
| built_new initialSize perNode g :
    new initialSize perNode = Ok g -> built g
| built_addNode node g g' :
    built g -> addNode node g = Ok g' -> built g'
| built_addEdge from to weight g g' :
    built g -> addEdge from to weight g = Ok g' -> built g'.

(** *** The invariant of built graphs *)

(** [adj(v)] zipped with [w(v)]. *)
Definition pairs (g : t) (v : Z) : list (Z * Float) :=
  zip (adj g v) (w g v).

(** The three arrays agree at index [v]. *)
Definition node_ok (g : t) (v : Z) : Prop :=
  match edgeSources g !! v, edgeWeights g !! v,
        edgeSourceSet g !! v with
  | Some src, Some wts, Some set =>
      v ∈ nodes g /\ 0 <= v < size g
      /\ length wts = length src
      /\ (forall x, x ∈ set <-> x ∈ intValue <$> src)
      /\ NoDup (intValue <$> src)
  | None, None, None => v ∉ nodes g
  | _, _, _ => False
  end.

Definition symmetric (g : t) : Prop :=
  forall u v x, (v, x) ∈ pairs g u -> (u, x) ∈ pairs g v.

(** The neighbour list and the weight list of [v] are both there, of one
    length, or both missing. *)
Definition tandem (g : t) (v : Z) : Prop :=
  match edgeSources g !! v, edgeWeights g !! v with
  | Some src, Some wts => length wts = length src
  | None, None => True
  | _, _ => False
  end.

(** What the sweeps need of the ego network: a present node has its two
    lists, of one length, inside the arrays, and its neighbours are not
    negative. *)
Definition sweepable (g : t) : Prop :=
  forall v, v ∈ nodes g ->
    0 <= v < size g
    /\ exists src wts,
         edgeSources g !! v = Some src
         /\ edgeWeights g !! v = Some wts
         /\ length wts = length src
         /\ Forall (fun x => 0 <= intValue x) src.

Record wf (g : t) : Prop := {
  wf_nodes : forall v, node_ok g v;
  wf_sym : symmetric g
}.

(** *** Membership *)

(** [getSize()] is [nodes.cardinality()]. *)
Definition getSize (g : t) : Z := Z.of_nat (stdpp.base.size (nodes g)).

(** [hasNode(Integer node)] is [nodes.get(node)]. *)
Definition hasNode (node : Integer) (g : t) : result bool :=
  if intValue node <? 0 then Err IndexOutOfBoundsException
  else Ok (bool_decide (intValue node ∈ nodes g)).

End WithFloat.
Arguments t : clear implicits.
End Graph.

(** ** [com.ober.ml.cw.utils.LEDataInputStream] *)

Module LEDataInputStream.

(** The bytes left in the stream, each a Java [byte] in [-128, 127]. A read
    returns a value and the rest of the stream, or ends in [EOFException]
    when the stream is too short. *)
Inductive io (A : Type) : Type :=
| Got (a : A) (rest : list Z)
| EOFException.
Arguments Got {A} a rest.
Arguments EOFException {A}.

(** The values of a Java [byte]. *)
Definition is_byte (b : Z) : Prop := -128 <= b <= 127.

(** Two's complement narrowing to [bits] bits: [(short)], [(byte)] and the
    wrap-around of [long] arithmetic. *)
Definition narrow (bits x : Z) : Z :=
  (x + 2 ^ (bits - 1)) mod 2 ^ bits - 2 ^ (bits - 1).

(** [<<] on [int] and on [long]. *)
Definition shl32 (a n : Z) : Z := wrap32 (Z.shiftl a n).
Definition shl64 (a n : Z) : Z := narrow 64 (Z.shiftl a n).

(** [available()]. *)
Definition available (s : list Z) : Z := Z.of_nat (length s).

(** [d.readFully(w, 0, n)]: the bytes now in [w[0..n)]. *)
Definition readFully (n : nat) (s : list Z) : io (list Z) :=
  if (n <=? length s)%nat then Got (take n s) (drop n s) else EOFException.

(** [w[i]]. *)
Definition at_ (w : list Z) (i : nat) : Z := nth i w 0.

(** [(w[1]&0xff) << 8 | (w[0]&0xff)]. *)
Definition short_bits (w : list Z) : Z :=
  Z.lor (shl32 (Z.land (at_ w 1) 255) 8) (Z.land (at_ w 0) 255).

Definition readShort (s : list Z) : io Z :=
  match readFully 2 s with
  | Got w rest => Got (narrow 16 (short_bits w)) rest
  | EOFException => EOFException
  end.

Definition readUnsignedShort (s : list Z) : io Z :=
  match readFully 2 s with
  | Got w rest => Got (short_bits w) rest
  | EOFException => EOFException
  end.

(** [(char)] keeps the low 16 bits, unsigned. *)
Definition readChar (s : list Z) : io Z :=
  match readFully 2 s with
  | Got w rest => Got (short_bits w mod 2 ^ 16) rest
  | EOFException => EOFException
  end.

Definition readInt (s : list Z) : io Z :=
  match readFully 4 s with
  | Got w rest =>
      Got (Z.lor (Z.lor (Z.lor (shl32 (at_ w 3) 24)
                                (shl32 (Z.land (at_ w 2) 255) 16))
                         (shl32 (Z.land (at_ w 1) 255) 8))
                  (Z.land (at_ w 0) 255)) rest
  | EOFException => EOFException
  end.

Definition readLong (s : list Z) : io Z :=
  match readFully 8 s with
  | Got w rest =>
      Got (Z.lor (Z.lor (Z.lor (Z.lor (Z.lor (Z.lor (Z.lor
             (shl64 (at_ w 7) 56)
             (shl64 (Z.land (at_ w 6) 255) 48))
             (shl64 (Z.land (at_ w 5) 255) 40))
             (shl64 (Z.land (at_ w 4) 255) 32))
             (shl64 (Z.land (at_ w 3) 255) 24))
             (shl64 (Z.land (at_ w 2) 255) 16))
             (shl64 (Z.land (at_ w 1) 255) 8))
             (Z.land (at_ w 0) 255)) rest
  | EOFException => EOFException
  end.

(** [readFloat()] is [Float.intBitsToFloat(readInt())]. *)
Definition readFloat {Float : Type} (intBitsToFloat : Z -> Float)
    (s : list Z) : io Float :=
  match readInt s with
  | Got bits rest => Got (intBitsToFloat bits) rest
  | EOFException => EOFException
  end.

(** The little-endian bytes of [x], lowest first: [(byte)(x >> 8*i)]. *)
Definition le_bytes (n : nat) (x : Z) : list Z :=
  (fun i => narrow 8 (Z.shiftr x (8 * Z.of_nat i))) <$> seq 0 n.

End LEDataInputStream.

(** ** [com.ober.ml.cw.WSI] *)

Module ClusterMember.
Record t (Float : Type) : Type := mk {
  node : Integer;
  weight : option Float                         (* a [Float], maybe [null] *)
}.
Arguments mk {Float}.
Arguments node {Float}.
Arguments weight {Float}.
End ClusterMember.

Module Cluster.
Record t (Float : Type) : Type := mk {
  node : Integer;
  sense : Integer;
  members : list (ClusterMember.t Float)        (* HashSet<ClusterMember> *)
}.
Arguments mk {Float}.
Arguments node {Float}.
Arguments sense {Float}.
Arguments members {Float}.

(** [ClusterMember.equals] compares the [node] references; [HashSet.add]
    keeps an element that is already there. *)
Definition addMember {Float : Type} (c : t Float) (n : Integer)
    (weight : option Float) : t Float :=
  if existsb (fun m => same_object (ClusterMember.node m) n) (members c)
  then c
  else {| node := node c; sense := sense c;
          members := members c ++ [ClusterMember.mk n weight] |}.
End Cluster.

Module WSI.
Section WithFloat.
Context {Float : Type} `{FloatOps Float} `{Runtime}.

(** [loadDistributedGraph]: the stream as the records
    [(readInt(), readInt(), readFloat())] it yields; both ints are boxed for
    the call of [addEdge]. *)
Fixpoint load_loop (records : list (Z * Z * Float)) (heap : nat)
    (graph : Graph.t Float) : result (Graph.t Float * nat) :=
  match records with
  | [] => Ok (graph, heap)
  | (f, t, weight) :: rest =>
      let (from, heap1) := valueOf heap f in
      let (to, heap2) := valueOf heap1 t in
      graph1 <- Graph.addEdge from to weight graph ;;
      load_loop rest heap2 graph1
  end.

Definition loadDistributedGraph (records : list (Z * Z * Float)) (heap : nat)
    : result (Graph.t Float * nat) :=
  graph <- Graph.new 200000 220 ;;
  load_loop records heap graph.


(** A reference that may be [null]: [==] on two of them. *)
Definition same_ref (a b : option Integer) : bool :=
  match a, b with
  | None, None => true
  | Some x, Some y => same_object x y
  | _, _ => false
  end.

(** [HashMap<Integer, V>]: keys are compared with [equals]; [null] is a key
    like another. [put] on a key that is there replaces the value and keeps
    the key object. *)
Definition key_eq (a b : option Integer) : bool :=
  match a, b with
  | None, None => true
  | Some x, Some y => intValue x =? intValue y
  | _, _ => false
  end.

Fixpoint hm_get {V : Type} (m : list (option Integer * V))
    (k : option Integer) : option V :=
  match m with
  | [] => None
  | (k', v) :: rest => if key_eq k' k then Some v else hm_get rest k
  end.

Fixpoint hm_put {V : Type} (m : list (option Integer * V))
    (k : option Integer) (v : V) : list (option Integer * V) :=
  match m with
  | [] => [(k, v)]
  | (k', v') :: rest =>
      if key_eq k' k then (k', v) :: rest else (k', v') :: hm_put rest k v
  end.

Section Worker.
(** The fields of a [Worker], and what the run time decides: the
    permutation [Collections.shuffle] picks in sweep [z], and the orders in
    which a [HashMap] and a [HashSet] are iterated. *)
Variable distributedGraph : Graph.t Float.
Variables maxIterations minCluster : Z.
Variable shuffle : nat -> list Integer -> list Integer.
Variable keyOrder :
  list (option Integer * Float) -> list (option Integer * Float).
Variable setOrder : list Integer -> list Integer.

(** *** [chineseWhispers] *)

(** [for (int i = 1; i < n.size()+1; i++) setNodeClass(n.get(i-1), i)]. *)
Fixpoint init_classes (n : list Integer) (i : Z) (heap : nat)
    (g : Graph.t Float) : result (Graph.t Float * nat) :=
  match n with
  | [] => Ok (g, heap)
  | node :: rest =>
      let (c, heap1) := valueOf heap i in
      g1 <- Graph.setNodeClass node (Some c) g ;;
      init_classes rest (wrap32 (i + 1)) heap1 g1
  end.

(** "collect all neighbors and sum edge weights per class". *)
Fixpoint sum_classes (neighbors : list (Integer * Float))
    (g : Graph.t Float) (classes : list (option Integer * Float))
    : result (list (option Integer * Float)) :=
  match neighbors with
  | [] => Ok classes
  | (neighbor, weight) :: rest =>
      cls <- Graph.getNodeClass neighbor g ;;
      let classes1 :=
        match hm_get classes cls with
        | Some sum => hm_put classes cls (Fadd sum weight)
        | None => hm_put classes cls weight
        end in
      sum_classes rest g classes1
  end.

(** "find the class with highest weight sum". *)
Fixpoint max_class (entries : list (option Integer * Float)) (max : Float)
    (maxClass : option Integer) : option Integer :=
  match entries with
  | [] => maxClass
  | (c, sum) :: rest =>
      if Fgt sum max then max_class rest sum c
      else max_class rest max maxClass
  end.

(** One sweep, [for (Integer node : nodes)]; returns the flag [changed]. *)
Fixpoint sweep (nodes : list Integer) (g : Graph.t Float) (changed : bool)
    : result (Graph.t Float * bool) :=
  match nodes with
  | [] => Ok (g, changed)
  | node :: rest =>
      neighbors <- Graph.getEdges node g ;;
      classes <- sum_classes neighbors g [] ;;
      let maxClass :=
        max_class (keyOrder classes) Fminus10000 (Some (mkInteger None 0)) in
      cls <- Graph.getNodeClass node g ;;
      if negb (same_ref cls maxClass) then
        g1 <- Graph.setNodeClass node maxClass g ;;
        sweep rest g1 true
      else sweep rest g changed
  end.

(** [for (int z = 0; z < maxIterations; z++)], [cnt] turns before [z]
    reaches [maxIterations]. Beside the outcome the model keeps a record of
    the sweeps it ran: one entry per sweep, the flag [changed] at its end;
    a sweep cut short by an exception is not entered. *)
Fixpoint cw_loop (cnt : nat) (z : nat) (changed : bool) (g : Graph.t Float)
    (heap : nat) : list bool * result (Graph.t Float * nat) :=
  match cnt with
  | O => ([], Ok (g, heap))
  | S cnt' =>
      if negb changed then ([], Ok (g, heap))
      else
        let (nodes, heap1) := Graph.getNodes g heap in
        match sweep (shuffle z nodes) g false with
        | Ok (g1, changed1) =>
            let (sweeps, out) := cw_loop cnt' (S z) changed1 g1 heap1 in
            (changed1 :: sweeps, out)
        | Err e => ([], Err e)
        end
  end.

Definition chineseWhispers (tokenNetwork : Graph.t Float) (heap : nat)
    : list bool * result (Graph.t Float * nat) :=
  let (n, heap1) := Graph.getNodes tokenNetwork heap in
  match init_classes n 1 heap1 tokenNetwork with
  | Ok (g, heap2) => cw_loop (Z.to_nat maxIterations) 0 true g heap2
  | Err e => ([], Err e)
  end.

(** *** [findClusters] *)

(** [for (Integer node : nodes)]: one pass over the nodes left. The test
    [currentClass == 0] unboxes [currentClass]. *)
Fixpoint collect (nodes : list Integer) (tokenGraph : Graph.t Float)
    (weights : list (option Integer * Float)) (currentClass : option Integer)
    (cluster : Cluster.t Float) (toRemove : list Integer)
    : result (Cluster.t Float * list Integer) :=
  match nodes with
  | [] => Ok (cluster, toRemove)
  | node :: rest =>
      cc <- nonnull currentClass ;;
      currentClass1 <-
        (if intValue cc =? 0 then Graph.getNodeClass node tokenGraph
         else Ok currentClass) ;;
      cls <- Graph.getNodeClass node tokenGraph ;;
      if same_ref cls currentClass1 then
        collect rest tokenGraph weights currentClass1
          (Cluster.addMember cluster node (hm_get weights (Some node)))
          (toRemove ++ [node])
      else collect rest tokenGraph weights currentClass1 cluster toRemove
  end.

(** [nodes.removeAll(toRemove)]. *)
Definition removeAll (nodes toRemove : list Integer) : list Integer :=
  filter (fun n => ¬ Exists (fun r => intValue r = intValue n) toRemove) nodes.

(** [while (nodes.size() > 0)]. Returns the clusters put on the queue, in
    order, and how the loop ended; what was put before an exception stays
    on the queue. *)
Fixpoint findClusters_loop (fuel : nat) (baseNode : Integer)
    (tokenGraph : Graph.t Float) (weights : list (option Integer * Float))
    (nodes : list Integer) (sense : Integer) (heap : nat)
    : list (Cluster.t Float) * result nat :=
  match nodes with
  | [] => ([], Ok heap)
  | _ :: _ =>
      match fuel with
      | O => ([], Err OutOfFuel)
      | S fuel' =>
          let cluster := Cluster.mk baseNode sense [] in
          match collect nodes tokenGraph weights (Some (mkInteger None 0))
                  cluster [] with
          | Err e => ([], Err e)
          | Ok (cluster1, toRemove) =>
              let nodes1 := removeAll nodes toRemove in
              if Z.of_nat (length (Cluster.members cluster1)) >=? minCluster
              then
                let (sense1, heap1) :=
                  valueOf heap (wrap32 (intValue sense + 1)) in
                let (queue, out) :=
                  findClusters_loop fuel' baseNode tokenGraph weights
                    nodes1 sense1 heap1 in
                (cluster1 :: queue, out)
              else
                findClusters_loop fuel' baseNode tokenGraph weights
                  nodes1 sense heap
          end
      end
  end.

(** "map nodes to edge weights for fast lookup". *)
Definition weights_of (edges : list (Integer * Float))
    : list (option Integer * Float) :=
  foldl (fun m e => hm_put m (Some (fst e)) (snd e)) [] edges.

Definition findClusters (baseNode : Integer) (tokenGraph : Graph.t Float)
    (heap : nat) : list (Cluster.t Float) * result nat :=
  let (all, heap1) := Graph.getNodes tokenGraph heap in
  let nodes := setOrder all in
  match Graph.getEdges baseNode distributedGraph with
  | Err e => ([], Err e)
  | Ok edges =>
      findClusters_loop (length nodes) baseNode tokenGraph
        (weights_of edges) nodes (mkInteger None 0) heap1
  end.

End Worker.

Section Pipeline.
(** The other fields of a [Worker] and the rest of its work. *)
Variable distributedGraph : Graph.t Float.
Variables maxEdges maxConnectivity maxIterations minCluster : Z.
Variable shuffle : nat -> list Integer -> list Integer.
Variable keyOrder :
  list (option Integer * Float) -> list (option Integer * Float).
Variable setOrder : list Integer -> list Integer.

(** *** [createTokenGraph] *)

(** The inner loop, over the first [maxConnectivity] edges of [neighbor];
    [foreignNeighbor != node] compares an [Integer] with an [int], by
    value; [neighborsSet.contains] uses [equals]. *)
Fixpoint ego_edges (foreignNeighbors : list (Integer * Float)) (node : Z)
    (neighbors : list Integer) (neighbor : Integer) (graph : Graph.t Float)
    : result (Graph.t Float) :=
  match foreignNeighbors with
  | [] => Ok graph
  | (foreignNeighbor, weight) :: rest =>
      if negb (intValue foreignNeighbor =? node)
         && bool_decide (intValue foreignNeighbor ∈ intValue <$> neighbors)
      then
        graph1 <- Graph.addEdge neighbor foreignNeighbor weight graph ;;
        ego_edges rest node neighbors neighbor graph1
      else ego_edges rest node neighbors neighbor graph
  end.

(** The outer loop, over the first [maxEdges] neighbours of [node]. *)
Fixpoint ego_neighbors (firsts : list Integer) (node : Z)
    (neighbors : list Integer) (graph : Graph.t Float)
    : result (Graph.t Float) :=
  match firsts with
  | [] => Ok graph
  | neighbor :: rest =>
      foreignNeighbors <- Graph.getEdges neighbor distributedGraph ;;
      let m := Z.min maxConnectivity (Z.of_nat (length foreignNeighbors)) in
      graph1 <- ego_edges (take (Z.to_nat m) foreignNeighbors) node
                  neighbors neighbor graph ;;
      ego_neighbors rest node neighbors graph1
  end.

(** [createTokenGraph(int node)]; [new Graph()] is [new Graph(10, 10)],
    and the [int] is boxed for [getNeighbors]. *)
Definition createTokenGraph (node : Z) (heap : nat)
    : result (Graph.t Float * nat) :=
  graph0 <- Graph.new 10 10 ;;
  let (boxed, heap1) := valueOf heap node in
  neighbors <- Graph.getNeighbors boxed distributedGraph ;;
  let m := Z.min maxEdges (Z.of_nat (length neighbors)) in
  graph <- ego_neighbors (take (Z.to_nat m) neighbors) node neighbors
             graph0 ;;
  Ok (graph, heap1).

(** *** [Worker.run] *)

(** One turn of the loop of [run], for the base node [i]: the clusters it
    puts on the queue and how it ends. *)
Definition run_turn (i : Z) (heap : nat)
    : list (Cluster.t Float) * result nat :=
  match createTokenGraph i heap with
  | Err e => ([], Err e)
  | Ok (graph, heap1) =>
      match chineseWhispers maxIterations shuffle keyOrder graph heap1 with
      | (_, Err e) => ([], Err e)
      | (_, Ok (graph1, heap2)) =>
          let (boxed, heap3) := valueOf heap2 i in
          findClusters distributedGraph minCluster setOrder boxed graph1 heap3
      end
  end.

(** [for (int i = this.batchStart; i < this.batchEnd; i++)], [cnt] turns
    left; an exception ends the thread and leaves the queue as it is. *)
Fixpoint run_loop (cnt : nat) (i : Z) (heap : nat)
    : list (Cluster.t Float) * result nat :=
  match cnt with
  | O => ([], Ok heap)
  | S cnt' =>
      match run_turn i heap with
      | (queue, Err e) => (queue, Err e)
      | (queue, Ok heap1) =>
          let (queue1, out) := run_loop cnt' (wrap32 (i + 1)) heap1 in
          (queue ++ queue1, out)
      end
  end.

Definition run (batchStart batchEnd : Z) (heap : nat)
    : list (Cluster.t Float) * result nat :=
  run_loop (Z.to_nat (batchEnd - batchStart)) batchStart heap.

End Pipeline.

(** *** [calculateSenses]: the ranges of the workers *)

(** [batchSize], [batchStart] and [batchEnd] of worker [i] for a graph of
    [n] present nodes ([distributedGraph.getSize()]); the products stay
    below [n], an [int]. *)
Definition batchSize (n numWorkers : Z) : Z := Z.quot n numWorkers.
Definition batchStart (n numWorkers i : Z) : Z := i * batchSize n numWorkers.
Definition batchEnd (n numWorkers i : Z) : Z :=
  if i =? numWorkers - 1 then n else (i + 1) * batchSize n numWorkers.

End WithFloat.
End WSI.

(** *** [loadDistributedGraph] on the bytes of the file *)

Module EdgeFile.
Import LEDataInputStream.
Section WithFloat.
Context {Float : Type} `{Runtime}.
Variable intBitsToFloat : Z -> Float.

(** How the call ends: it returns or throws as before, or an [IOException]
    is caught and the program leaves with [System.exit(1)]. *)
Inductive ending (A : Type) : Type :=
| Returned (r : result A)
| Exit1.
Arguments Returned {A} r.
Arguments Exit1 {A}.

(** [while (inputStream.available() > 0) graph.addEdge(readInt(), readInt(),
    readFloat())]; a turn takes 12 bytes, so [fuel] turns are enough for
    [fuel] bytes. *)
Fixpoint load_stream (fuel : nat) (s : list Z) (heap : nat)
    (graph : Graph.t Float) : ending (Graph.t Float * nat) :=
  if available s >? 0 then
    match fuel with
    | O => Returned (Err OutOfFuel)
    | S fuel' =>
        match readInt s with
        | EOFException => Exit1
        | Got f s1 =>
            let (from, heap1) := valueOf heap f in
            match readInt s1 with
            | EOFException => Exit1
            | Got t s2 =>
                let (to, heap2) := valueOf heap1 t in
                match readFloat intBitsToFloat s2 with
                | EOFException => Exit1
                | Got weight s3 =>
                    match Graph.addEdge from to weight graph with
                    | Err e => Returned (Err e)
                    | Ok graph1 => load_stream fuel' s3 heap2 graph1
                    end
                end
            end
        end
    end
  else Returned (Ok (graph, heap)).

Definition loadDistributedGraph (s : list Z) (heap : nat)
    : ending (Graph.t Float * nat) :=
  match Graph.new 200000 220 with
  | Ok graph => load_stream (length s) s heap graph
  | Err e => Returned (Err e)
  end.

(** The records a stream holds: one per 12 bytes. *)
Fixpoint records (fuel : nat) (s : list Z) : list (Z * Z * Float) :=
  match fuel with
  | O => []
  | S fuel' =>
      match readInt s with
      | EOFException => []
      | Got f s1 =>
          match readInt s1 with
          | EOFException => []
          | Got t s2 =>
              match readFloat intBitsToFloat s2 with
              | EOFException => []
              | Got weight s3 => (f, t, weight) :: records fuel' s3
              end
          end
      end
  end.

End WithFloat.
Arguments Returned {A} r.
Arguments Exit1 {A}.
End EdgeFile.

(** ** The ego network as the properties read it *)


(** [g] lies inside the distributed graph, on the neighbours of [node]: its
    nodes are neighbours of [node], its edges are edges of the distributed
    graph between two of them, with the weights they have there, and no
    edge has [node] at both ends. *)
Definition inside {Float : Type} `{Runtime}
    (distributedGraph : Graph.t Float)
    (node : Z) (g : Graph.t Float) : Prop :=
  Graph.built g
  /\ (forall v, v ∈ Graph.nodes g -> v ∈ Graph.adj distributedGraph node)
  /\ forall v x y,
       (x, y) ∈ Graph.pairs g v ->
       (x, y) ∈ Graph.pairs distributedGraph v
       /\ v ∈ Graph.adj distributedGraph node
       /\ x ∈ Graph.adj distributedGraph node
       /\ (v <> node \/ x <> node).

(** [g'] is [g] with other node classes. *)
Definition relabelled {Float : Type} (g g' : Graph.t Float) : Prop :=
  Graph.size g' = Graph.size g
  /\ Graph.nodes g' = Graph.nodes g
  /\ Graph.edgeSourceSet g' = Graph.edgeSourceSet g
  /\ Graph.edgeSources g' = Graph.edgeSources g
  /\ Graph.edgeWeights g' = Graph.edgeWeights g.

(** Every present node has a class, none is [null]. *)
Definition labelled {Float : Type} (g : Graph.t Float) : Prop :=
  forall v, v ∈ Graph.nodes g -> is_Some (Graph.nodeClasses g !! v).


(** ** Concrete runs

    [float]s of the scenarios are written as the rationals they denote. *)

#[global] Instance Q_FloatOps : FloatOps Q := {
  Fzero := 0%Q;
  Fminus10000 := (-10000)%Q;
  Fadd := Qplus;
  Fgt x y := Qlt_bool y x;
  Fcompare := Qcompare
}.

(** The run time of the scenarios: arrays of up to [2^31 - 3] cells are
    granted, and hash sets for up to [2^20] expected elements. *)
Definition vm : Runtime :=
  {| array_limit := 2147483645;
     hash_set_alloc n := if n <=? 1048576 then None else Some OutOfMemoryError |}.

Section Runs.
#[local] Existing Instance vm.

(** Autoboxing where no other object has been allocated. *)
Definition box (i : Z) : Integer := fst (valueOf 0 i).

Definition S1_score : list REAL_t :=
  Finite <$> [9 # 10; 1 # 10; 5 # 10; 7 # 10; 2 # 10]%Q.

(** Scores with a NaN among them. *)
Definition nan_score : list REAL_t := [Finite (1 # 2); NaN; Finite (1 # 5)].

(** Three tokens, one neighbour each ([n = 1]): the similarity matrix of a
    batch holding all three rows, column-major. *)
Definition S3x3 : list REAL_t :=
  Finite <$> [1; 1 # 2; 1 # 5;   1 # 2; 1; 1 # 5;   1 # 5; 1 # 5; 1]%Q.

(** The output array after token 0 has been given its edge [(0, 1, 0.5)]. *)
Definition edges_after_token0 : list GraphEdge :=
  [mkGraphEdge 0 1 (1 # 2); mkGraphEdge 0 0 0; mkGraphEdge 0 0 0].

Definition bufs0 : buffers :=
  {| c_sim := Finite <$> [0; 0; 0]%Q; c_nearest := [0; 0; 0];
     edges := edges_after_token0 |}.

(** The ego network with the edges [(1,2,0.5)] and [(3,2,0.25)]. *)
Definition ego_123 : result (Graph.t Q) :=
  g <- Graph.addEdge (box 1) (box 2) (1 # 2)%Q Graph.new_default ;;
  Graph.addEdge (box 3) (box 2) (1 # 4)%Q g.

(** The graph of a call that returned. *)
Definition graph_of (r : result (Graph.t Q)) : Graph.t Q :=
  match r with
  | Ok g => g
  | Err _ => Graph.new_default
  end.

(** S3, first call: [new Graph()] after [addEdge(1, 2, 0.5)]. *)
Definition g12 : Graph.t Q :=
  graph_of (Graph.addEdge (box 1) (box 2) (1 # 2)%Q Graph.new_default).

(** A graph that has the edge between 1 and 2 already, with weight 0.3. *)
Definition g12_old : Graph.t Q :=
  graph_of (Graph.addEdge (box 1) (box 2) (3 # 10)%Q Graph.new_default).

Definition g123 : Graph.t Q := graph_of ego_123.

(** [chineseWhispers] then [findClusters] on [tokenGraph], as [Worker.run]
    chains them; shuffling and hash orders are the identity. *)
Definition run_node (maxIterations minCluster : Z) (baseNode : Integer)
    (distributedGraph tokenGraph : Graph.t Q)
    : result (list (Cluster.t Q)) :=
  match WSI.chineseWhispers maxIterations (fun _ l => l) (fun l => l)
          tokenGraph 0 with
  | (_, Ok (g, heap)) =>
      Ok (fst (WSI.findClusters distributedGraph minCluster (fun l => l)
                 baseNode g heap))
  | (_, Err e) => Err e
  end.

(** The node ids of the members of a cluster. *)
Definition member_ids {Float : Type} (c : Cluster.t Float) : list Z :=
  (fun m => intValue (ClusterMember.node m)) <$> Cluster.members c.

(** The record [r] of an edge file joins the nodes [a] and [b]. *)
Definition joins {Float : Type} (r : Z * Z * Float) (a b : Z) : Prop :=
  (r.1.1 = a /\ r.1.2 = b) \/ (r.1.1 = b /\ r.1.2 = a).

(** [sortEdges] on the ego network above. *)
Definition g123_sorted : Graph.t Q := graph_of (Graph.sortEdges g123).

(** A triangle on the nodes 1, 2 and 3, and the ego network of node 1. *)
Definition tri : Graph.t Q :=
  graph_of (g <- Graph.addEdge (box 1) (box 2) (1 # 2)%Q Graph.new_default ;;
            g1 <- Graph.addEdge (box 2) (box 3) (1 # 4)%Q g ;;
            Graph.addEdge (box 1) (box 3) (3 # 4)%Q g1).

Definition tri_ego : Graph.t Q :=
  match WSI.createTokenGraph tri 10 10 1 0 with
  | Ok (g, _) => g
  | Err _ => Graph.new_default
  end.

(** The records of a small edge file, and the graph loaded from them. *)
Definition demo_records : list (Z * Z * Q) :=
  [(1, 2, (1 # 2)%Q); (200, 200, 1%Q); (2, 1, (3 # 4)%Q)].

Definition demo_graph : Graph.t Q :=
  match WSI.loadDistributedGraph demo_records 0 with
  | Ok (g, _) => g
  | Err _ => Graph.new_default
  end.

(** A hub 0 with the neighbours 1, 2, 3 and 4, joined in the pairs 1-2 and
    3-4; the ego network of the hub, and that network as [chineseWhispers]
    leaves it (each with the allocation count of the run). *)
Definition hub : Graph.t Q :=
  graph_of (g1 <- Graph.addEdge (box 0) (box 1) (1 # 2)%Q Graph.new_default ;;
            g2 <- Graph.addEdge (box 0) (box 2) (1 # 3)%Q g1 ;;
            g3 <- Graph.addEdge (box 0) (box 3) (1 # 4)%Q g2 ;;
            g4 <- Graph.addEdge (box 0) (box 4) (1 # 5)%Q g3 ;;
            g5 <- Graph.addEdge (box 1) (box 2) (3 # 4)%Q g4 ;;
            Graph.addEdge (box 3) (box 4) (2 # 3)%Q g5).

Definition hub_ego : Graph.t Q * nat :=
  match WSI.createTokenGraph hub 10 10 0 0 with
  | Ok r => r
  | Err _ => (Graph.new_default, 0%nat)
  end.

Definition hub_labelled : Graph.t Q * nat :=
  match WSI.chineseWhispers 100 (fun _ l => l) (fun l => l)
          (fst hub_ego) (snd hub_ego) with
  | (_, Ok r) => r
  | (_, Err _) => hub_ego
  end.

(** A run of one whole batch: three tokens with vectors of two dimensions,
    a BLAS that leaves the similarity matrix [M3] (column-major), and
    buffers that hold zeros. *)
Definition M3 : list REAL_t :=
  Finite <$> [2 # 10; 9 # 10; 2 # 10;   9 # 10; 2 # 10; 2 # 10;
              2 # 10; 2 # 10; 4 # 10]%Q.

Definition blas_M3 (l n m : Z) (A B C : list REAL_t)
    : result (list REAL_t) := Ok M3.

Definition vectors3 : list REAL_t := Finite <$> [1; 0; 1;   0; 1; 1]%Q.

Definition bufs_zero : buffers :=
  {| c_sim := Finite <$> [0; 0; 0]%Q; c_nearest := [0; 0; 0];
     edges := [mkGraphEdge 0 0 0; mkGraphEdge 0 0 0; mkGraphEdge 0 0 0] |}.

(** The buffers after the turn of token 1 in S3x3. *)
Definition bufs1 : buffers :=
  match process_row 1 0 S3x3 (seqZ 0 3) 3 1 3 bufs0 with
  | Ok b => b
  | Err _ => bufs0
  end.

End Runs.

(** * Properties *)

(** ** [argpartition] *)

Lemma Qlt_bool_iff (x y : Q) : Qlt_bool x y = true <-> (x < y)%Q.
Proof.
  unfold Qlt_bool. rewrite negb_true_iff, <- not_true_iff_false, Qle_bool_iff.
  split; [apply Qnot_le_lt | apply Qlt_not_le].
Qed.

(** [int] arithmetic returns the result of [Z] exactly when that is an
    [int]. *)
Lemma int_of_ok s : INT_MIN <= s <= INT_MAX -> int_of s = Ok s.
Proof.
  intros Hr. unfold int_of.
  replace ((INT_MIN <=? s) && (s <=? INT_MAX)) with true; [done|].
  symmetry. apply andb_true_iff. split; apply Z.leb_le; lia.
Qed.

Lemma int_of_inv s x : int_of s = Ok x -> x = s /\ INT_MIN <= s <= INT_MAX.
Proof.
  unfold int_of. destruct (_ && _) eqn:Hr; [|done]. intros [= <-].
  apply andb_true_iff in Hr as [?%Z.leb_le ?%Z.leb_le]. done.
Qed.

Section Buffers.
Context {A : Type}.
Implicit Types a : list A.

Lemma read_ok a i d :
  0 <= i < Z.of_nat (length a) -> read a i = Ok (nth (Z.to_nat i) a d).
Proof.
  intros Hi. unfold read.
  replace (0 <=? i) with true by (symmetry; apply Z.leb_le; lia).
  destruct (lookup_lt_is_Some_2 a (Z.to_nat i) ltac:(lia)) as [x Hx].
  rewrite Hx. by rewrite (nth_lookup_Some _ _ _ _ Hx).
Qed.

Lemma write_ok a i x :
  0 <= i < Z.of_nat (length a) -> write a i x = Ok (<[Z.to_nat i := x]> a).
Proof.
  intros Hi. unfold write.
  replace ((0 <=? i) && (i <? Z.of_nat (length a))) with true; [done|].
  symmetry. apply andb_true_iff. split; [apply Z.leb_le | apply Z.ltb_lt]; lia.
Qed.

Lemma nth_insert a (i j : nat) x d :
  (i < length a)%nat ->
  nth j (<[i := x]> a) d = if decide (i = j) then x else nth j a d.
Proof.
  intros Hi. rewrite !nth_lookup. destruct (decide (i = j)) as [->|Hne].
  - by rewrite list_lookup_insert_eq.
  - by rewrite list_lookup_insert_ne.
Qed.

End Buffers.

Section Argpartition.
Import Keys.
Variable similar : list Q.

Lemma sc_entry a i : sc similar a i = nth (Z.to_nat (entry a i)) similar 0%Q.
Proof. reflexivity. Qed.

Lemma sc_eq a b i j : entry a i = entry b j -> sc similar a i = sc similar b j.
Proof. intros Heq. by rewrite !sc_entry, Heq. Qed.

Lemma read_entry a i :
  0 <= i < Z.of_nat (length a) -> read a i = Ok (entry a i).
Proof. apply read_ok. Qed.

Lemma valid_entry a i :
  valid similar a -> 0 <= i < Z.of_nat (length a) ->
  0 <= entry a i < Z.of_nat (length similar).
Proof.
  intros Hv Hi. unfold entry.
  destruct (lookup_lt_is_Some_2 a (Z.to_nat i) ltac:(lia)) as [x Hx].
  rewrite (nth_lookup_Some _ _ _ _ Hx).
  eapply Forall_lookup_1 in Hv; [|exact Hx]. exact Hv.
Qed.

Lemma read_score a i :
  valid similar a -> 0 <= i < Z.of_nat (length a) ->
  read similar (entry a i) = Ok (sc similar a i).
Proof.
  intros Hv Hi. rewrite sc_entry. apply read_ok. by apply valid_entry.
Qed.

Lemma swapped_length a r w : length (swapped a r w) = length a.
Proof. unfold swapped. by rewrite !length_insert. Qed.

Lemma swapped_perm a r w :
  0 <= r < Z.of_nat (length a) -> 0 <= w < Z.of_nat (length a) ->
  swapped a r w ≡ₚ a.
Proof.
  intros Hr Hw. unfold swapped, entry.
  destruct (lookup_lt_is_Some_2 a (Z.to_nat r) ltac:(lia)) as [x Hx].
  destruct (lookup_lt_is_Some_2 a (Z.to_nat w) ltac:(lia)) as [y Hy].
  rewrite (nth_lookup_Some _ _ _ _ Hx), (nth_lookup_Some _ _ _ _ Hy).
  by apply Permutation_insert_swap.
Qed.

Lemma swapped_entry a r w i :
  0 <= r < Z.of_nat (length a) -> 0 <= w < Z.of_nat (length a) -> 0 <= i ->
  entry (swapped a r w) i
  = if decide (i = r) then entry a w
    else if decide (i = w) then entry a r else entry a i.
Proof.
  intros Hr Hw Hi. unfold swapped, entry at 1.
  rewrite nth_insert by (rewrite length_insert; lia).
  destruct (decide (Z.to_nat r = Z.to_nat i)) as [Heq|Hne].
  - destruct (decide (i = r)); [done|lia].
  - destruct (decide (i = r)); [lia|].
    rewrite nth_insert by lia.
    destruct (decide (Z.to_nat w = Z.to_nat i)) as [Heq|Hne'].
    + destruct (decide (i = w)); [done|lia].
    + destruct (decide (i = w)); [lia|done].
Qed.

Lemma valid_perm a b : a ≡ₚ b -> valid similar b -> valid similar a.
Proof. unfold valid. by intros ->. Qed.

(** *** The inner loop *)

Lemma partition_loop_done fuel mid a r w :
  w <= r -> partition_loop fuel similar mid a r w = Ok (a, r, w).
Proof.
  intros Hrw. destruct fuel; simpl;
    by replace (r <? w) with false by (symmetry; apply Z.ltb_ge; lia).
Qed.

Lemma partition_loop_swap fuel mid a r w :
  valid similar a -> 0 <= r -> r < w -> w < Z.of_nat (length a) ->
  (sc similar a r <= mid)%Q ->
  partition_loop (S fuel) similar mid a r w
  = partition_loop fuel similar mid (swapped a r w) r (w - 1).
Proof.
  intros Hv Hr Hrw Hw Hle. simpl.
  replace (r <? w) with true by (symmetry; apply Z.ltb_lt; lia).
  rewrite read_entry by lia. simpl.
  rewrite read_score by (done || lia). simpl.
  apply Qle_bool_iff in Hle. rewrite Hle.
  rewrite read_entry by lia. simpl.
  rewrite write_ok by lia. simpl.
  rewrite write_ok by (rewrite length_insert; lia). simpl.
  reflexivity.
Qed.

Lemma partition_loop_skip fuel mid a r w :
  valid similar a -> 0 <= r -> r < w -> w < Z.of_nat (length a) ->
  (mid < sc similar a r)%Q ->
  partition_loop (S fuel) similar mid a r w
  = partition_loop fuel similar mid a (r + 1) w.
Proof.
  intros Hv Hr Hrw Hw Hlt. simpl.
  replace (r <? w) with true by (symmetry; apply Z.ltb_lt; lia).
  rewrite read_entry by lia. simpl.
  rewrite read_score by (done || lia). simpl.
  replace (Qle_bool (sc similar a r) mid) with false; [done|].
  symmetry. apply not_true_iff_false. rewrite Qle_bool_iff.
  by apply Qlt_not_le.
Qed.

Lemma partition_loop_spec (mid : Q) :
  forall fuel a r w,
  valid similar a -> 0 <= r -> r <= w -> w < Z.of_nat (length a) ->
  fuel = Z.to_nat (w - r) ->
  exists a' r',
    partition_loop fuel similar mid a r w = Ok (a', r', r')
    /\ r <= r' <= w
    /\ a' ≡ₚ a
    /\ (forall i, 0 <= i -> i < r \/ w < i -> entry a' i = entry a i)
    /\ (forall i, r <= i <= w ->
          exists j, r <= j <= w /\ entry a' i = entry a j)
    /\ (forall i, r <= i < r' -> (mid < sc similar a' i)%Q)
    /\ (forall i, r' < i <= w -> (sc similar a' i <= mid)%Q)
    /\ ((exists p, r <= p < w /\ (sc similar a p <= mid)%Q) -> r' < w)
    /\ (r' = r -> forall i, r <= i < w -> entry a' i = entry a (i + 1))
    /\ (r' = r -> r < w -> entry a' w = entry a r).
Proof.
  induction fuel as [|fuel IH]; intros a r w Hv Hr Hrw Hw Hfuel.
  - assert (w = r) as -> by lia.
    exists a, r. rewrite partition_loop_done by lia.
    split; [done|]. split; [lia|]. split; [done|]. split; [done|].
    split; [intros i Hi; exists i; done|].
    split; [intros i Hi; lia|]. split; [intros i Hi; lia|].
    split; [intros (p & Hp & _); lia|].
    split; [intros _ i Hi; lia | intros _ Hlt; lia].
  - assert (Hlt : r < w) by lia.
    destruct (Qlt_le_dec mid (sc similar a r)) as [Hgt|Hle].
    + (* the entry stays on the left *)
      rewrite partition_loop_skip by (done || lia).
      destruct (IH a (r + 1) w Hv ltac:(lia) ltac:(lia) Hw ltac:(lia))
        as (a' & r' & Hrun & Hr' & Hperm & Hout & Hclosed & Hleft & Hright
            & Hprog & _ & _).
      exists a', r'. split; [exact Hrun|]. split; [lia|]. split; [done|].
      split; [intros i Hi0 Hi; apply Hout; lia|].
      split.
      { intros i Hi. destruct (decide (i = r)) as [->|Hne].
        - exists r. split; [lia|]. apply Hout; lia.
        - destruct (Hclosed i ltac:(lia)) as (j & Hj & Hij).
          exists j. split; [lia|done]. }
      split.
      { intros i Hi. destruct (decide (i = r)) as [->|Hne].
        - rewrite (sc_eq a' a r r); [done|]. apply Hout; lia.
        - apply Hleft. lia. }
      split; [exact Hright|].
      split.
      { intros (p & Hp & Hple). apply Hprog. exists p. split; [|done].
        destruct (decide (p = r)) as [->|Hne]; [|lia].
        exfalso. by apply (Qlt_not_le _ _ Hgt). }
      split; [intros Heq; lia | intros Heq; lia].
    + (* the entry goes to the right *)
      rewrite partition_loop_swap by (done || lia).
      pose proof (swapped_perm a r w ltac:(lia) ltac:(lia)) as Hsp.
      pose proof (swapped_length a r w) as Hsl.
      assert (Hse : forall i, 0 <= i ->
                entry (swapped a r w) i
                = if decide (i = r) then entry a w
                  else if decide (i = w) then entry a r else entry a i).
      { intros i Hi. apply swapped_entry; lia. }
      destruct (IH (swapped a r w) r (w - 1) (valid_perm _ _ Hsp Hv)
                  Hr ltac:(lia) ltac:(lia) ltac:(lia))
        as (a' & r' & Hrun & Hr' & Hperm & Hout & Hclosed & Hleft & Hright
            & _ & Hrot & Hrotw).
      assert (Hw' : entry a' w = entry a r).
      { rewrite Hout by lia. rewrite Hse by lia.
        destruct (decide (w = r)); [lia|]. by destruct (decide (w = w)). }
      exists a', r'. split; [exact Hrun|]. split; [lia|].
      split; [by rewrite Hperm|].
      split.
      { intros i Hi0 Hi. rewrite Hout by lia. rewrite Hse by lia.
        destruct (decide (i = r)); [lia|]. destruct (decide (i = w)); [lia|done]. }
      split.
      { intros i Hi. destruct (decide (i = w)) as [->|Hne].
        - exists r. split; [lia|done].
        - destruct (Hclosed i ltac:(lia)) as (j & Hj & Hij).
          rewrite Hse in Hij by lia.
          destruct (decide (j = r)); [exists w; split; [lia|done]|].
          destruct (decide (j = w)); [lia|]. exists j. split; [lia|done]. }
      split; [exact Hleft|].
      split.
      { intros i Hi. destruct (decide (i = w)) as [->|Hne].
        - by rewrite (sc_eq a' a w r).
        - apply Hright. lia. }
      split; [intros _; lia|].
      split.
      { intros Heq i Hi. destruct (decide (i = w - 1)) as [->|Hne].
        - replace (w - 1 + 1) with w by lia.
          destruct (decide (r = w - 1)) as [Hrw1|Hrw1].
          + destruct (Hclosed (w - 1) ltac:(lia)) as (j & Hj & Hij).
            assert (j = r) as -> by lia.
            rewrite Hij, Hse by lia. by destruct (decide (r = r)).
          + rewrite (Hrotw Heq) by lia. rewrite Hse by lia.
            by destruct (decide (r = r)).
        - rewrite (Hrot Heq) by lia. rewrite Hse by lia.
          destruct (decide (i + 1 = r)); [lia|].
          destruct (decide (i + 1 = w)); [lia|done]. }
      intros _ _. exact Hw'.
Qed.

(** *** The measure of the outer loop *)

Lemma count_from_le f lo n : (count_from f lo n <= n)%nat.
Proof.
  revert lo. induction n as [|n IH]; intros lo; simpl; [lia|].
  specialize (IH (lo + 1)). destruct (f lo); lia.
Qed.

Lemma count_from_mono f g lo n :
  (forall i, lo <= i < lo + Z.of_nat n -> f i = true -> g i = true) ->
  (count_from f lo n <= count_from g lo n)%nat.
Proof.
  revert lo. induction n as [|n IH]; intros lo Himp; simpl; [lia|].
  specialize (IH (lo + 1) ltac:(intros i Hi; apply Himp; lia)).
  specialize (Himp lo ltac:(lia)).
  destruct (f lo); [rewrite Himp by done|destruct (g lo)]; lia.
Qed.

Lemma count_from_shift f lo n :
  count_from (fun i => f (i + 1)) lo n = count_from f (lo + 1) n.
Proof.
  revert lo. induction n as [|n IH]; intros lo; simpl; [done|].
  by rewrite IH.
Qed.

Lemma count_from_snoc f lo n :
  count_from f lo (S n)
  = (count_from f lo n + if f (lo + Z.of_nat n)%Z then 1 else 0)%nat.
Proof.
  revert lo. induction n as [|n IH]; intros lo.
  - simpl. replace (lo + Z.of_nat 0) with lo by lia. destruct (f lo); lia.
  - change (count_from f lo (S (S n)))
      with ((if f lo then 1 else 0) + count_from f (lo + 1)%Z (S n))%nat.
    rewrite IH. simpl count_from.
    replace (lo + 1 + Z.of_nat n) with (lo + Z.of_nat (S n)) by lia.
    destruct (f lo), (f (lo + Z.of_nat (S n))); lia.
Qed.

Lemma mu_le a from_i to_i :
  from_i <= to_i -> Z.of_nat (mu similar a from_i to_i) <= Z.max (to_i - from_i) 1.
Proof.
  intros Hle. unfold mu.
  pose proof (count_from_le
    (fun j => Qlt_bool (sc similar a j) (sc similar a ((from_i + to_i) / 2))) (from_i + 1)
    (Z.to_nat (Z.max ((from_i + to_i) / 2) (from_i + 1) - from_i))) as Hc.
  assert ((from_i + to_i) / 2 <= to_i)
    by (apply Z.div_le_upper_bound; lia).
  lia.
Qed.

Lemma mu_decreases a a1 from_i to_i :
  from_i < to_i ->
  (forall i, from_i <= i < to_i -> entry a1 i = entry a (i + 1)) ->
  entry a1 to_i = entry a from_i ->
  (sc similar a1 from_i < sc similar a ((from_i + to_i) / 2))%Q ->
  (forall i, from_i < i <= to_i -> (sc similar a1 i <= sc similar a ((from_i + to_i) / 2))%Q) ->
  (mu similar a1 from_i to_i < mu similar a from_i to_i)%nat.
Proof.
  intros Hlt Hrot Hrotw Hx Hright. unfold mu.
  set (p := (from_i + to_i) / 2) in *.
  assert (Hp : from_i <= p < to_i).
  { unfold p. split; [apply Z.div_le_lower_bound; lia
                     |apply Z.div_lt_upper_bound; lia]. }
  assert (Hfirst : Qlt_bool (sc similar a (from_i + 1)) (sc similar a p) = true).
  { apply Qlt_bool_iff. rewrite <- (sc_eq a1 a from_i (from_i + 1)); [done|].
    apply Hrot. lia. }
  destruct (decide (p = from_i)) as [Hp0|Hp0].
  - (* two entries: they change places *)
    assert (to_i = from_i + 1) as ->.
    { unfold p in Hp0.
      pose proof (Z.div_mod (from_i + to_i) 2 ltac:(lia)).
      pose proof (Z.mod_pos_bound (from_i + to_i) 2 ltac:(lia)). lia. }
    replace (Z.to_nat (Z.max p (from_i + 1) - from_i)) with 1%nat by lia.
    simpl. rewrite Hfirst.
    replace (Qlt_bool (sc similar a1 (from_i + 1)) (sc similar a1 p)) with false; [lia|].
    symmetry. apply not_true_iff_false. rewrite Qlt_bool_iff.
    apply Qle_not_lt. rewrite Hp0.
    rewrite (sc_eq a1 a (from_i + 1) from_i) by done.
    apply Qlt_le_weak. by rewrite Hp0 in Hx.
  - (* the pivot position lies further right *)
    assert (Hn : exists n, Z.to_nat (Z.max p (from_i + 1) - from_i) = S n
                           /\ Z.of_nat n = p - from_i - 1).
    { exists (Z.to_nat (p - from_i - 1)). lia. }
    destruct Hn as (n & -> & Hn).
    rewrite count_from_snoc.
    replace (from_i + 1 + Z.of_nat n) with p by lia.
    replace (Qlt_bool (sc similar a1 p) (sc similar a1 p)) with false.
    2:{ symmetry. apply not_true_iff_false. rewrite Qlt_bool_iff.
        apply Qlt_irrefl. }
    simpl count_from at 2. rewrite Hfirst.
    pose proof (count_from_mono
      (fun j => Qlt_bool (sc similar a1 j) (sc similar a1 p))
      (fun j => Qlt_bool (sc similar a (j + 1)) (sc similar a p)) (from_i + 1) n) as Hmono.
    rewrite (count_from_shift (fun j => Qlt_bool (sc similar a j) (sc similar a p))) in Hmono.
    enough (count_from (fun j => Qlt_bool (sc similar a1 j) (sc similar a1 p)) (from_i + 1)%Z n
            <= count_from (fun j => Qlt_bool (sc similar a j) (sc similar a p))
                 (from_i + 1 + 1)%Z n)%nat by lia.
    apply Hmono. intros i Hi. rewrite !Qlt_bool_iff.
    rewrite (sc_eq a1 a i (i + 1)) by (apply Hrot; lia).
    intros Hlt'. eapply Qlt_le_trans; [exact Hlt'|]. apply Hright. lia.
Qed.

(** *** The outer loop *)

(** A reordering inside [from_i .. to_i] keeps a split outside of it. *)
Lemma split_at_preserved a a1 from_i to_i c :
  length a1 = length a ->
  (forall i, 0 <= i -> i < from_i \/ to_i < i -> entry a1 i = entry a i) ->
  (forall i, from_i <= i <= to_i ->
     exists j, from_i <= j <= to_i /\ entry a1 i = entry a j) ->
  0 <= from_i -> to_i < Z.of_nat (length a) ->
  c <= from_i \/ to_i < c ->
  split_at similar a c -> split_at similar a1 c.
Proof.
  intros Hlen Hout Hclosed Hfrom Hto Hc Hsplit i j Hi Hj. rewrite Hlen in Hj.
  assert (Hi' : exists i', 0 <= i' < c /\ entry a1 i = entry a i').
  { destruct (decide (from_i <= i <= to_i)) as [Hin|Hnin].
    - destruct (Hclosed i Hin) as (i' & ? & ?). exists i'. split; [lia|done].
    - exists i. split; [lia|]. apply Hout; lia. }
  assert (Hj' : exists j', c <= j' < Z.of_nat (length a)
                           /\ entry a1 j = entry a j').
  { destruct (decide (from_i <= j <= to_i)) as [Hin|Hnin].
    - destruct (Hclosed j Hin) as (j' & ? & ?). exists j'. split; [lia|done].
    - exists j. split; [lia|]. apply Hout; lia. }
  destruct Hi' as (i' & Hi' & Hei), Hj' as (j' & Hj' & Hej).
  rewrite (sc_eq a1 a i i' Hei), (sc_eq a1 a j j' Hej). by apply Hsplit.
Qed.

Lemma int_add_ok x y :
  INT_MIN <= x + y <= INT_MAX -> int_add x y = Ok (x + y).
Proof. apply int_of_ok. Qed.

(** One turn of the outer loop, given what the inner loop returns. *)
Lemma argpartition_loop_step fuel k a from_i to_i a1 r1 :
  valid similar a -> Z.of_nat (length a) <= 2 ^ 30 ->
  0 <= from_i -> from_i < to_i -> to_i < Z.of_nat (length a) ->
  partition_loop (Z.to_nat (to_i - from_i)) similar
    (sc similar a ((from_i + to_i) / 2)) a from_i to_i = Ok (a1, r1, r1) ->
  a1 ≡ₚ a -> from_i <= r1 <= to_i ->
  argpartition_loop (S fuel) similar k a from_i to_i
  = let r2 := if Qlt_bool (sc similar a1 r1) (sc similar a ((from_i + to_i) / 2))
              then r1 - 1 else r1 in
    if k <=? r2 then argpartition_loop fuel similar k a1 from_i r2
    else argpartition_loop fuel similar k a1 (r2 + 1) to_i.
Proof.
  intros Hv Hsize Hfrom Hlt Hto Hinner Hperm Hr1.
  assert (Hp : from_i <= (from_i + to_i) / 2 < to_i).
  { split; [apply Z.div_le_lower_bound; lia
           |apply Z.div_lt_upper_bound; lia]. }
  simpl argpartition_loop.
  replace (from_i <? to_i) with true by (symmetry; apply Z.ltb_lt; lia).
  rewrite int_add_ok by (unfold INT_MIN, INT_MAX; lia). simpl bind.
  rewrite Z.quot_div_nonneg by lia.
  rewrite read_entry by lia. simpl bind.
  rewrite read_score by (done || lia). simpl bind.
  rewrite Hinner. simpl bind.
  assert (Hlen : length a1 = length a) by (by apply Permutation_length).
  rewrite read_entry by lia. simpl bind.
  rewrite read_score by (by eapply valid_perm || lia). simpl bind.
  reflexivity.
Qed.

Lemma argpartition_loop_spec k :
  0 <= k ->
  forall fuel a from_i to_i,
  valid similar a -> Z.of_nat (length a) <= 2 ^ 30 ->
  0 <= from_i -> from_i <= to_i -> to_i < Z.of_nat (length a) ->
  from_i <= k -> k <= to_i \/ to_i = Z.of_nat (length a) - 1 ->
  split_at similar a from_i -> split_at similar a (to_i + 1) ->
  (to_i - from_i) * (Z.of_nat (length a) + 1) + Z.of_nat (mu similar a from_i to_i)
    < Z.of_nat fuel ->
  exists a',
    argpartition_loop fuel similar k a from_i to_i = Ok a'
    /\ a' ≡ₚ a /\ split_at similar a' k.
Proof.
  intros Hk. induction fuel as [|fuel IH];
    intros a from_i to_i Hv Hsize Hfrom Hle Hto Hfk Hkt HL HR Hfuel.
  { pose proof (mu_le a from_i to_i Hle). nia. }
  destruct (decide (from_i = to_i)) as [->|Hne].
  { (* the loop is over *)
    exists a. split.
    - simpl. by replace (to_i <? to_i) with false
        by (symmetry; apply Z.ltb_ge; lia).
    - split; [done|]. destruct (decide (k = to_i)) as [->|Hkne]; [done|].
      intros i j Hi Hj. lia. }
  assert (Hlt : from_i < to_i) by lia.
  set (p := (from_i + to_i) / 2).
  assert (Hp : from_i <= p < to_i).
  { unfold p. split; [apply Z.div_le_lower_bound; lia
                     |apply Z.div_lt_upper_bound; lia]. }
  destruct (partition_loop_spec (sc similar a p) (Z.to_nat (to_i - from_i)) a
              from_i to_i Hv Hfrom Hle Hto eq_refl)
    as (a1 & r1 & Hinner & Hr1 & Hperm & Hout & Hclosed & Hleft & Hright
        & Hprog & Hrot & Hrotw).
  assert (Hr1' : r1 < to_i).
  { apply Hprog. exists p. split; [done|]. apply Qle_refl. }
  assert (Hlen : length a1 = length a) by (by apply Permutation_length).
  rewrite (argpartition_loop_step fuel k a from_i to_i a1 r1)
    by (done || lia).
  fold p. cbv zeta.
  set (r2 := if Qlt_bool (sc similar a1 r1) (sc similar a p) then r1 - 1 else r1).
  assert (Hr2 : from_i - 1 <= r2 <= r1) by (unfold r2; destruct (Qlt_bool _ _); lia).
  (* the scores up to [r2] are at least the pivot, those behind at most *)
  assert (Hmid : forall i j, from_i <= i <= r2 -> r2 < j <= to_i ->
            (sc similar a1 j <= sc similar a p)%Q /\ (sc similar a p <= sc similar a1 i)%Q).
  { intros i j Hi Hj. unfold r2 in *.
    destruct (Qlt_bool (sc similar a1 r1) (sc similar a p)) eqn:Hx.
    - apply Qlt_bool_iff in Hx. split.
      + destruct (decide (j = r1)) as [->|Hj'];
          [by apply Qlt_le_weak | apply Hright; lia].
      + apply Qlt_le_weak, Hleft. lia.
    - apply not_true_iff_false in Hx. rewrite Qlt_bool_iff in Hx.
      apply Qnot_lt_le in Hx. split.
      + apply Hright. lia.
      + destruct (decide (i = r1)) as [->|Hi'];
          [done | apply Qlt_le_weak, Hleft; lia]. }
  assert (HL1 : split_at similar a1 from_i)
    by (eapply (split_at_preserved a a1 from_i to_i); eauto; lia).
  assert (HR1 : split_at similar a1 (to_i + 1))
    by (eapply (split_at_preserved a a1 from_i to_i); eauto; lia).
  assert (Hnew : split_at similar a1 (r2 + 1)).
  { intros i j Hi Hj. rewrite Hlen in Hj.
    destruct (decide (i < from_i)) as [Hi'|Hi'].
    - apply HL1; lia.
    - destruct (decide (j <= to_i)) as [Hj'|Hj'].
      + destruct (Hmid i j ltac:(lia) ltac:(lia)). by eapply Qle_trans.
      + apply HR1; lia. }
  assert (Hv1 : valid similar a1) by (by eapply valid_perm).
  pose proof (mu_le a from_i to_i Hle) as Hmu.
  destruct (k <=? r2) eqn:Hkr.
  - (* the right end comes down to [r2] *)
    apply Z.leb_le in Hkr.
    destruct (IH a1 from_i r2 Hv1 ltac:(lia) Hfrom ltac:(lia) ltac:(lia)
                Hfk ltac:(lia) HL1 Hnew) as (a' & Hrun & Hperm' & Hpost).
    { pose proof (mu_le a1 from_i r2 ltac:(lia)). rewrite Hlen. nia. }
    exists a'. split; [exact Hrun|]. split; [by rewrite Hperm'|done].
  - apply Z.leb_gt in Hkr.
    destruct (decide (r2 + 1 = from_i)) as [Hsame|Hup].
    + (* neither end moves: the range was rotated *)
      assert (Hx : Qlt_bool (sc similar a1 r1) (sc similar a p) = true).
      { unfold r2 in Hsame. destruct (Qlt_bool _ _); [done|lia]. }
      assert (r1 = from_i) as -> by (unfold r2 in Hsame; rewrite Hx in Hsame; lia).
      apply Qlt_bool_iff in Hx.
      pose proof (mu_decreases a a1 from_i to_i Hlt (Hrot eq_refl)
                    (Hrotw eq_refl Hlt) Hx Hright) as Hdec.
      rewrite Hsame.
      destruct (IH a1 from_i to_i Hv1 ltac:(lia) Hfrom Hle ltac:(lia)
                  Hfk ltac:(lia) HL1 HR1) as (a' & Hrun & Hperm' & Hpost).
      { rewrite Hlen. lia. }
      exists a'. split; [exact Hrun|]. split; [by rewrite Hperm'|done].
    + (* the left end goes up to [r2 + 1] *)
      destruct (IH a1 (r2 + 1) to_i Hv1 ltac:(lia) ltac:(lia) ltac:(lia)
                  ltac:(lia) ltac:(lia) ltac:(lia) Hnew HR1)
        as (a' & Hrun & Hperm' & Hpost).
      { pose proof (mu_le a1 (r2 + 1) to_i ltac:(lia)). rewrite Hlen. nia. }
      exists a'. split; [exact Hrun|]. split; [by rewrite Hperm'|done].
Qed.

(** The loops on keys return on every buffer of valid indexes (of at most
    [2^30] entries, so that [r + w] stays an [int]) and every [k >= 0];
    they only reorder the buffer, and afterwards the [k] largest keys are in
    front. *)
Lemma argpartition_keys (nearest : list Z) (k : Z) :
  valid similar nearest ->
  Z.of_nat (length nearest) <= 2 ^ 30 ->
  0 <= k ->
  exists nearest',
    argpartition nearest similar k (Z.of_nat (length nearest)) = Ok nearest'
    /\ nearest' ≡ₚ nearest
    /\ forall i j : nat,
         Z.of_nat i < k -> k <= Z.of_nat j -> (j < length nearest)%nat ->
         (score_at similar nearest' j <= score_at similar nearest' i)%Q.
Proof.
  intros Hv Hsize Hk. unfold argpartition, int_sub.
  rewrite int_of_ok by (unfold INT_MIN, INT_MAX; lia). cbn [bind].
  destruct (decide (length nearest = 0%nat)) as [Hnil|Hnil].
  - exists nearest. split; [|split; [done|intros i j _ _ Hj; lia]].
    rewrite Hnil. reflexivity.
  - destruct (argpartition_loop_spec k Hk
                (argpartition_fuel (Z.of_nat (length nearest))) nearest
                0 (Z.of_nat (length nearest) - 1))
      as (a' & Hrun & Hperm & Hpost); try (done || lia).
    + intros i j Hi Hj. lia.
    + intros i j Hi Hj. lia.
    + pose proof (mu_le nearest 0 (Z.of_nat (length nearest) - 1)
                    ltac:(lia)).
      unfold argpartition_fuel. rewrite Z2Nat.id by nia. nia.
    + exists a'. split; [exact Hrun|]. split; [exact Hperm|].
      intros i j Hi Hj Hjlen.
      specialize (Hpost (Z.of_nat i) (Z.of_nat j)).
      unfold sc in Hpost. rewrite !Nat2Z.id in Hpost.
      apply Hpost; [lia|]. rewrite (Permutation_length Hperm). lia.
Qed.

End Argpartition.

(** *** From keys to scores *)

Lemma Qdiv_le_cross (a b c d : Q) :
  (0 < c)%Q -> (0 < d)%Q -> (a / c <= b / d)%Q <-> (a * d <= b * c)%Q.
Proof.
  intros Hc Hd.
  assert (Hcd : (0 < c * d)%Q) by (apply Qmult_lt_0_compat; done).
  rewrite <- (Qmult_le_r (a / c) (b / d) (c * d) Hcd).
  assert (E1 : (a / c * (c * d) == a * d)%Q) by (field; lra).
  assert (E2 : (b / d * (c * d) == b * c)%Q) by (field; lra).
  rewrite E1, E2. reflexivity.
Qed.

Lemma Qdiv_lt_cross (a b c d : Q) :
  (0 < c)%Q -> (0 < d)%Q -> (a / c < b / d)%Q <-> (a * d < b * c)%Q.
Proof.
  intros Hc Hd.
  assert (Hcd : (0 < c * d)%Q) by (apply Qmult_lt_0_compat; done).
  rewrite <- (Qmult_lt_r (a / c) (b / d) (c * d) Hcd).
  assert (E1 : (a / c * (c * d) == a * d)%Q) by (field; lra).
  assert (E2 : (b / d * (c * d) == b * c)%Q) by (field; lra).
  rewrite E1, E2. reflexivity.
Qed.

Lemma Qabs_cases (q : Q) :
  ((0 <= q)%Q /\ (Qabs q == q)%Q) \/ ((q < 0)%Q /\ (Qabs q == - q)%Q).
Proof.
  destruct (Qlt_le_dec q 0) as [Hn|Hp].
  - right. split; [done|]. apply Qabs_neg. lra.
  - left. split; [done|]. by apply Qabs_pos.
Qed.

Lemma key_finite_le (a b : Q) :
  (a <= b)%Q -> (key (Finite a) <= key (Finite b))%Q.
Proof.
  intros Hab. simpl.
  destruct (Qabs_cases a) as [[Ha Ea]|[Ha Ea]];
    destruct (Qabs_cases b) as [[Hb Eb]|[Hb Eb]];
    rewrite Ea, Eb; apply Qdiv_le_cross; try lra; nra.
Qed.

Lemma key_finite_lt (a b : Q) :
  (a < b)%Q -> (key (Finite a) < key (Finite b))%Q.
Proof.
  intros Hab. simpl.
  destruct (Qabs_cases a) as [[Ha Ea]|[Ha Ea]];
    destruct (Qabs_cases b) as [[Hb Eb]|[Hb Eb]];
    rewrite Ea, Eb; apply Qdiv_lt_cross; try lra; nra.
Qed.

Lemma key_finite_range (q : Q) : (-1 < key (Finite q) < 1)%Q.
Proof.
  simpl.
  destruct (Qabs_cases q) as [[Hq Eq]|[Hq Eq]]; rewrite Eq;
    (split; [apply Qlt_shift_div_l|apply Qlt_shift_div_r]; lra).
Qed.

Lemma key_leb (x y : REAL_t) :
  x <> NaN -> y <> NaN -> REAL_leb x y = Qle_bool (key x) (key y).
Proof.
  intros Hx Hy. destruct x as [a| | |], y as [b| | |]; try done.
  - cbn [REAL_leb]. apply eq_true_iff_eq. rewrite !Qle_bool_iff. split.
    + apply key_finite_le.
    + intros Hk. apply Qnot_lt_le. intros Hlt.
      apply key_finite_lt in Hlt. lra.
  - cbn [REAL_leb]. symmetry. apply Qle_bool_iff.
    pose proof (key_finite_range a). simpl key in *. lra.
  - cbn [REAL_leb]. symmetry. apply not_true_iff_false.
    rewrite Qle_bool_iff. pose proof (key_finite_range a). simpl key in *.
    lra.
  - cbn [REAL_leb]. symmetry. apply not_true_iff_false.
    rewrite Qle_bool_iff. pose proof (key_finite_range b). simpl key in *.
    lra.
  - cbn [REAL_leb]. symmetry. apply Qle_bool_iff.
    pose proof (key_finite_range b). simpl key in *. lra.
Qed.

Lemma REAL_ltb_leb (x y : REAL_t) :
  x <> NaN -> y <> NaN -> REAL_ltb x y = negb (REAL_leb y x).
Proof.
  intros Hx Hy. by destruct x as [a| | |], y as [b| | |].
Qed.

Lemma key_ltb (x y : REAL_t) :
  x <> NaN -> y <> NaN -> REAL_ltb x y = Qlt_bool (key x) (key y).
Proof.
  intros Hx Hy. rewrite REAL_ltb_leb by done. unfold Qlt_bool.
  by rewrite key_leb.
Qed.

Lemma read_fmap {A B : Type} (f : A -> B) (l : list A) i :
  read (f <$> l) i = rmap f (read l i).
Proof.
  unfold read, rmap. destruct (0 <=? i); [|done].
  rewrite list_lookup_fmap. by destruct (l !! _).
Qed.

Lemma read_inv {A : Type} (a : list A) i x d :
  read a i = Ok x ->
  0 <= i < Z.of_nat (length a) /\ x = nth (Z.to_nat i) a d.
Proof.
  unfold read. destruct (Z.leb_spec0 0 i) as [Hi|]; [|done].
  destruct (a !! Z.to_nat i) as [y|] eqn:E; [|done]. intros [= <-].
  pose proof (lookup_lt_Some _ _ _ E). split; [lia|].
  by rewrite (nth_lookup_Some _ _ _ _ E).
Qed.

Lemma write_inv {A : Type} (a a' : list A) i x :
  write a i x = Ok a' ->
  0 <= i < Z.of_nat (length a) /\ a' = <[Z.to_nat i := x]> a.
Proof.
  unfold write. destruct (_ && _) eqn:Hr; [|done]. intros [= <-].
  apply andb_true_iff in Hr as [?%Z.leb_le ?%Z.ltb_lt]. done.
Qed.

Section ArgpartitionFloat.
Variable similar : list REAL_t.

Lemma no_nan_read a i x s :
  no_nan similar a -> read a i = Ok x -> read similar x = Ok s -> s <> NaN.
Proof.
  intros Hn Hx Hs. apply (read_inv _ _ _ 0) in Hx as [Hi ->].
  apply (read_inv _ _ _ (Finite 0)) in Hs as [_ ->].
  unfold no_nan in Hn. rewrite Forall_forall in Hn. apply Hn.
  rewrite nth_lookup.
  destruct (lookup_lt_is_Some_2 a (Z.to_nat i) ltac:(lia)) as [y Hy].
  rewrite Hy. simpl. by eapply list_elem_of_lookup_2.
Qed.

Lemma partition_loop_no_nan mid :
  forall fuel nearest r w st,
  partition_loop fuel similar mid nearest r w = Ok st ->
  no_nan similar nearest -> no_nan similar st.1.1.
Proof.
  induction fuel as [|fuel IH]; intros nearest r w st; cbn [partition_loop];
    destruct (r <? w); try done; try (by intros [= <-]).
  destruct (read nearest r) as [nr|] eqn:Er; [|done]. cbn [bind].
  destruct (read similar nr) as [sr|] eqn:Es; [|done]. cbn [bind].
  destruct (REAL_leb sr mid); [|by apply IH].
  destruct (read nearest w) as [temp|] eqn:Ew; [|done]. cbn [bind].
  destruct (write nearest w nr) as [n1|] eqn:E1; [|done]. cbn [bind].
  destruct (write n1 r temp) as [n2|] eqn:E2; [|done]. cbn [bind].
  intros Hrun Hn. apply (IH _ _ _ _ Hrun).
  apply write_inv in E1 as [_ ->]. apply write_inv in E2 as [_ ->].
  apply (read_inv _ _ _ 0) in Er as [Hr ->].
  apply (read_inv _ _ _ 0) in Ew as [Hw ->].
  unfold no_nan in *. rewrite Forall_forall in Hn.
  apply Forall_insert; [apply Forall_insert; [by apply Forall_forall|]|].
  - apply Hn. rewrite nth_lookup.
    destruct (lookup_lt_is_Some_2 nearest (Z.to_nat r) ltac:(lia)) as [y Hy].
    rewrite Hy. simpl. by eapply list_elem_of_lookup_2.
  - apply Hn. rewrite nth_lookup.
    destruct (lookup_lt_is_Some_2 nearest (Z.to_nat w) ltac:(lia)) as [y Hy].
    rewrite Hy. simpl. by eapply list_elem_of_lookup_2.
Qed.

(** Where no score is a NaN, the inner loop is the loop on keys. *)
Lemma partition_loop_keys mid :
  mid <> NaN ->
  forall fuel nearest r w,
  no_nan similar nearest ->
  partition_loop fuel similar mid nearest r w
  = Keys.partition_loop fuel (key <$> similar) (key mid) nearest r w.
Proof.
  intros Hmid.
  induction fuel as [|fuel IH]; intros nearest r w Hn;
    cbn [partition_loop Keys.partition_loop]; destruct (r <? w); try done.
  destruct (read nearest r) as [nr|] eqn:Er; [|done]. cbn [bind].
  rewrite read_fmap.
  destruct (read similar nr) as [sr|] eqn:Es; [|done]. cbn [rmap bind].
  rewrite (key_leb sr mid) by (done || by eapply no_nan_read).
  destruct (Qle_bool _ _); [|by apply IH].
  destruct (read nearest w) as [temp|] eqn:Ew; [|done]. cbn [bind].
  destruct (write nearest w nr) as [n1|] eqn:E1; [|done]. cbn [bind].
  destruct (write n1 r temp) as [n2|] eqn:E2; [|done]. cbn [bind].
  apply IH.
  apply write_inv in E1 as [_ ->]. apply write_inv in E2 as [_ ->].
  apply (read_inv _ _ _ 0) in Er as [Hr ->].
  apply (read_inv _ _ _ 0) in Ew as [Hw ->].
  unfold no_nan in *. rewrite Forall_forall in Hn.
  apply Forall_insert; [apply Forall_insert; [by apply Forall_forall|]|].
  - apply Hn. rewrite nth_lookup.
    destruct (lookup_lt_is_Some_2 nearest (Z.to_nat r) ltac:(lia)) as [y Hy].
    rewrite Hy. simpl. by eapply list_elem_of_lookup_2.
  - apply Hn. rewrite nth_lookup.
    destruct (lookup_lt_is_Some_2 nearest (Z.to_nat w) ltac:(lia)) as [y Hy].
    rewrite Hy. simpl. by eapply list_elem_of_lookup_2.
Qed.

(** And so is the outer loop. *)
Lemma argpartition_loop_keys k :
  forall fuel nearest from_i to_i,
  no_nan similar nearest ->
  argpartition_loop fuel similar k nearest from_i to_i
  = Keys.argpartition_loop fuel (key <$> similar) k nearest from_i to_i.
Proof.
  induction fuel as [|fuel IH]; intros nearest from_i to_i Hn;
    cbn [argpartition_loop Keys.argpartition_loop];
    destruct (from_i <? to_i); try done. cbv zeta.
  destruct (int_add from_i to_i) as [s|]; [|done]. cbn [bind].
  destruct (read nearest (Z.quot s 2)) as [m|] eqn:Em; [|done]. cbn [bind].
  rewrite read_fmap.
  destruct (read similar m) as [mid|] eqn:Emid; [|done]. cbn [rmap bind].
  assert (Hmid : mid <> NaN) by (by eapply no_nan_read).
  rewrite (partition_loop_keys mid Hmid) by done.
  destruct (Keys.partition_loop _ _ _ _ _ _) as [[[n1 r1] w1]|] eqn:Ep;
    [|done]. cbn [bind].
  rewrite <- (partition_loop_keys mid Hmid) in Ep by done.
  pose proof (partition_loop_no_nan _ _ _ _ _ _ Ep Hn) as Hn1.
  simpl in Hn1.
  destruct (read n1 r1) as [nr|] eqn:Er; [|done]. cbn [bind].
  rewrite read_fmap.
  destruct (read similar nr) as [sr|] eqn:Es; [|done]. cbn [rmap bind].
  rewrite (key_ltb sr mid) by (done || by eapply no_nan_read).
  destruct (k <=? _); by apply IH.
Qed.

(** The key of a score that an entry points to. *)
Lemma score_key (nearest : list Z) (p : nat) :
  no_nan similar nearest -> (p < length nearest)%nat ->
  score_at similar nearest p <> NaN
  /\ Keys.score_at (key <$> similar) nearest p
     = key (score_at similar nearest p).
Proof.
  intros Hn Hp. unfold score_at, Keys.score_at. split.
  - unfold no_nan in Hn. rewrite Forall_forall in Hn. apply Hn.
    rewrite nth_lookup.
    destruct (lookup_lt_is_Some_2 nearest p Hp) as [y Hy].
    rewrite Hy. simpl. by eapply list_elem_of_lookup_2.
  - change 0%Q with (key (Finite 0)). apply map_nth.
Qed.

(** [argpartition] on scores is [argpartition] on their keys. *)
Lemma argpartition_on_keys (nearest : list Z) (k : Z) :
  valid similar nearest -> no_nan similar nearest ->
  Z.of_nat (length nearest) <= 2 ^ 30 ->
  0 <= k ->
  exists nearest',
    argpartition nearest similar k (Z.of_nat (length nearest)) = Ok nearest'
    /\ nearest' ≡ₚ nearest
    /\ no_nan similar nearest'
    /\ forall i j : nat,
         Z.of_nat i < k -> k <= Z.of_nat j -> (j < length nearest)%nat ->
         (Keys.score_at (key <$> similar) nearest' j
          <= Keys.score_at (key <$> similar) nearest' i)%Q.
Proof.
  intros Hv Hn Hsize Hk.
  destruct (argpartition_keys (key <$> similar) nearest k)
    as (nearest' & Hrun & Hperm & Hsplit); [|done..|].
  { unfold valid in *. by rewrite length_fmap. }
  exists nearest'. split; [|split; [done|split; [|done]]].
  - unfold argpartition. unfold Keys.argpartition in Hrun.
    destruct (int_sub _ 1) as [to_i|]; [|done]. cbn [bind] in *.
    rewrite argpartition_loop_keys by done. exact Hrun.
  - unfold no_nan in *. by rewrite Hperm.
Qed.

Lemma argpartition_split (nearest : list Z) (k : Z) :
  valid similar nearest -> no_nan similar nearest ->
  Z.of_nat (length nearest) <= 2 ^ 30 ->
  0 <= k ->
  exists nearest',
    argpartition nearest similar k (Z.of_nat (length nearest)) = Ok nearest'
    /\ nearest' ≡ₚ nearest
    /\ split_at similar nearest' k.
Proof.
  intros Hv Hn Hsize Hk.
  destruct (argpartition_on_keys nearest k Hv Hn Hsize Hk)
    as (nearest' & Hrun & Hperm & Hn' & Hkeys).
  exists nearest'. split; [done|]. split; [done|].
  intros i j Hi Hj Hlen.
  destruct (score_key nearest' i Hn' ltac:(lia)) as [Hni Hki].
  destruct (score_key nearest' j Hn' Hlen) as [Hnj Hkj].
  rewrite key_leb by done. apply Qle_bool_iff. rewrite <- Hki, <- Hkj.
  apply Hkeys; [done..|]. by rewrite <- (Permutation_length Hperm).
Qed.

(** C1, as the code has it. [argpartition] returns on every buffer of
    valid indexes (of at most [2^30] entries, so that [r + w] stays an
    [int]) whose scores are not NaN, and every [k >= 0]; it only reorders
    the buffer, and afterwards the [k] largest scores are in front: every
    score at a position below [k] is at least every score at a position
    from [k] on, that is [min(score[idx[0..k)]) >= max(score[idx[k..s)])]. *)
Theorem argpartition_largest_first (nearest : list Z) (k : Z) :
  valid similar nearest -> no_nan similar nearest ->
  Z.of_nat (length nearest) <= 2 ^ 30 ->
  0 <= k ->
  exists nearest',
    argpartition nearest similar k (Z.of_nat (length nearest)) = Ok nearest'
    /\ nearest' ≡ₚ nearest
    /\ forall i j : nat,
         Z.of_nat i < k -> k <= Z.of_nat j -> (j < length nearest)%nat ->
         REAL_leb (score_at similar nearest' j) (score_at similar nearest' i)
         = true.
Proof.
  intros Hv Hn Hsize Hk.
  destruct (argpartition_on_keys nearest k Hv Hn Hsize Hk)
    as (nearest' & Hrun & Hperm & Hn' & Hkeys).
  exists nearest'. split; [exact Hrun|]. split; [exact Hperm|].
  intros i j Hi Hj Hlen.
  assert (Hlen' : length nearest' = length nearest)
    by (by apply Permutation_length).
  destruct (score_key nearest' i Hn' ltac:(lia)) as [Hni Hki].
  destruct (score_key nearest' j Hn' ltac:(lia)) as [Hnj Hkj].
  rewrite (key_leb _ _ Hnj Hni). apply Qle_bool_iff.
  rewrite <- Hki, <- Hkj. by apply Hkeys.
Qed.

End ArgpartitionFloat.

(** With a NaN for the pivot no comparison holds, no entry moves and neither
    end of the range does: the loop of the code does not end, and the model
    runs out of whatever fuel it is given. *)
Lemma argpartition_nan_loops (fuel : nat) :
  argpartition_loop fuel nan_score 2 [0; 1; 2] 0 2 = Err OutOfFuel.
Proof.
  induction fuel as [|fuel IH]; [reflexivity|]. exact IH.
Qed.

Lemma same_object_refl x : same_object x x = true.
Proof.
  unfold same_object.
  destruct (ident x); [rewrite Nat.eqb_refl|]; apply Z.eqb_refl.
Qed.

Lemma same_ref_refl o : WSI.same_ref o o = true.
Proof. destruct o; simpl; [apply same_object_refl | reflexivity]. Qed.

(** ** [findClusters]: what is put on the queue *)

Section FindClusters.
Context {Float : Type} `{FloatOps Float}.
Variable distributedGraph : Graph.t Float.
Variable minCluster : Z.

Lemma collect_keeps (tokenGraph : Graph.t Float) weights nodes :
  forall currentClass cluster toRemove cluster' toRemove' x,
  WSI.collect nodes tokenGraph weights currentClass cluster toRemove
    = Ok (cluster', toRemove') ->
  x ∈ toRemove -> x ∈ toRemove'.
Proof.
  induction nodes as [|node rest IH]; intros cc cl tr cl' tr' x Hrun Hx; simpl in Hrun.
  - congruence.
  - destruct cc as [c|]; simpl in Hrun; [|discriminate].
    destruct (if intValue c =? 0 then _ else _) as [cc1|]; simpl in Hrun; [|discriminate].
    destruct (Graph.getNodeClass node tokenGraph) as [cls|]; simpl in Hrun; [|discriminate].
    destruct (WSI.same_ref cls cc1).
    + eapply IH; [exact Hrun|]. apply elem_of_app. by left.
    + eapply IH; eauto.
Qed.

Lemma collect_first (tokenGraph : Graph.t Float) weights node rest cluster cluster' toRemove' :
  WSI.collect (node :: rest) tokenGraph weights (Some (mkInteger None 0))
    cluster [] = Ok (cluster', toRemove') ->
  node ∈ toRemove'.
Proof.
  simpl. destruct (Graph.getNodeClass node tokenGraph) as [cls|]; simpl; [|discriminate].
  rewrite same_ref_refl. intros Hrun.
  eapply collect_keeps; [exact Hrun|]. simpl. apply list_elem_of_here.
Qed.

Lemma removeAll_length nodes toRemove :
  (length (WSI.removeAll nodes toRemove) <= length nodes)%nat.
Proof. apply length_filter. Qed.

Lemma removeAll_first node rest toRemove :
  node ∈ toRemove ->
  (length (WSI.removeAll (node :: rest) toRemove) <= length rest)%nat.
Proof.
  intros Hin. unfold WSI.removeAll. rewrite filter_cons.
  case_decide as Hno.
  - exfalso. apply Hno. apply Exists_exists. exists node. split; [assumption|reflexivity].
  - apply length_filter.
Qed.


Lemma getNodeClass_error (g : Graph.t Float) node e :
  Graph.getNodeClass node g = Err e -> e = ArrayIndexOutOfBoundsException.
Proof.
  unfold Graph.getNodeClass, aload.
  destruct (intValue node <? Graph.size g); [|discriminate].
  destruct (_ && _); [discriminate|]. congruence.
Qed.

Lemma collect_error (tokenGraph : Graph.t Float) weights nodes :
  forall currentClass cluster toRemove e,
  WSI.collect nodes tokenGraph weights currentClass cluster toRemove = Err e ->
  e <> OutOfFuel.
Proof.
  induction nodes as [|node rest IH]; intros cc cl tr e Hrun; simpl in Hrun.
  - discriminate.
  - destruct cc as [c|]; simpl in Hrun; [|congruence].
    destruct (if intValue c =? 0 then _ else _) as [cc1|e1] eqn:Hcc; simpl in Hrun.
    2:{ destruct (intValue c =? 0); [|discriminate].
        apply getNodeClass_error in Hcc. congruence. }
    destruct (Graph.getNodeClass node tokenGraph) as [cls|e1] eqn:Hcls; simpl in Hrun.
    2:{ apply getNodeClass_error in Hcls. congruence. }
    destruct (WSI.same_ref cls cc1); eapply IH; exact Hrun.
Qed.

(** The loop is never short of fuel when it starts with a turn per node. *)
Lemma findClusters_loop_fuel baseNode (tokenGraph : Graph.t Float) weights :
  forall fuel nodes sense heap,
  (length nodes <= fuel)%nat ->
  snd (WSI.findClusters_loop minCluster fuel baseNode tokenGraph weights
         nodes sense heap) <> Err OutOfFuel.
Proof.
  induction fuel as [|fuel IH]; intros nodes sense heap Hlen.
  - destruct nodes; simpl in *; [discriminate | lia].
  - destruct nodes as [|node rest]; [simpl; discriminate|].
    cbn [WSI.findClusters_loop].
    destruct (WSI.collect (node :: rest) tokenGraph weights _ _ _)
      as [[cluster1 toRemove]|e] eqn:Hc.
    2:{ simpl. apply collect_error in Hc. congruence. }
    apply collect_first in Hc.
    pose proof (removeAll_first node rest toRemove Hc) as Hrm.
    simpl in Hlen.
    destruct (_ >=? _).
    + destruct (valueOf heap _) as [sense1 heap1].
      specialize (IH (WSI.removeAll (node :: rest) toRemove) sense1 heap1).
      destruct (WSI.findClusters_loop _ _ _ _ _ _ _ _) as [queue out].
      simpl in *. apply IH. lia.
    + apply IH. lia.
Qed.

(** Every cluster the loop puts on the queue has passed the size test. *)
Lemma findClusters_loop_min_size baseNode (tokenGraph : Graph.t Float) weights :
  forall fuel nodes sense heap,
  Forall (fun c => minCluster <= Z.of_nat (length (Cluster.members c)))
    (fst (WSI.findClusters_loop minCluster fuel baseNode tokenGraph weights
            nodes sense heap)).
Proof.
  induction fuel as [|fuel IH]; intros nodes sense heap.
  - destruct nodes; simpl; constructor.
  - destruct nodes as [|node rest]; [simpl; constructor|].
    cbn [WSI.findClusters_loop].
    destruct (WSI.collect (node :: rest) tokenGraph weights _ _ _)
      as [[cluster1 toRemove]|e] eqn:Hc; [|simpl; constructor].
    destruct (_ >=? _) eqn:Hsize.
    + destruct (valueOf heap _) as [sense1 heap1].
      specialize (IH (WSI.removeAll (node :: rest) toRemove) sense1 heap1).
      destruct (WSI.findClusters_loop _ _ _ _ _ _ _ _) as [queue out].
      simpl in *. constructor; [lia | exact IH].
    + apply IH.
Qed.

Lemma valueOf_intValue heap i : intValue (fst (valueOf heap i)) = i.
Proof. unfold valueOf. destruct (_ && _); reflexivity. Qed.

Lemma wrap32_small x : - 2 ^ 31 <= x < 2 ^ 31 -> wrap32 x = x.
Proof.
  intros Hx. unfold wrap32. rewrite Z.mod_small; lia.
Qed.


Lemma addMember_sense (c : Cluster.t Float) n w :
  Cluster.sense (Cluster.addMember c n w) = Cluster.sense c.
Proof. unfold Cluster.addMember. destruct (existsb _ _); reflexivity. Qed.

Lemma collect_sense (tokenGraph : Graph.t Float) weights nodes :
  forall currentClass cluster toRemove cluster' toRemove',
  WSI.collect nodes tokenGraph weights currentClass cluster toRemove
    = Ok (cluster', toRemove') ->
  Cluster.sense cluster' = Cluster.sense cluster.
Proof.
  induction nodes as [|node rest IH]; intros cc cl tr cl' tr' Hrun; simpl in Hrun.
  - congruence.
  - destruct cc as [c|]; simpl in Hrun; [|discriminate].
    destruct (if intValue c =? 0 then _ else _) as [cc1|]; simpl in Hrun; [|discriminate].
    destruct (Graph.getNodeClass node tokenGraph) as [cls|]; simpl in Hrun; [|discriminate].
    destruct (WSI.same_ref cls cc1).
    + apply IH in Hrun. rewrite Hrun. apply addMember_sense.
    + eapply IH; eauto.
Qed.

(** The sense ids the loop hands out count up from the one it starts with. *)
Lemma findClusters_loop_senses baseNode (tokenGraph : Graph.t Float) weights :
  forall fuel nodes sense heap,
  0 <= intValue sense ->
  intValue sense + Z.of_nat (length nodes) <= INT_MAX ->
  let queue := fst (WSI.findClusters_loop minCluster fuel baseNode tokenGraph
                      weights nodes sense heap) in
  (fun c => intValue (Cluster.sense c)) <$> queue
    = seqZ (intValue sense) (Z.of_nat (length queue)).
Proof.
  induction fuel as [|fuel IH]; intros nodes sense heap Hs Hmax.
  - destruct nodes; reflexivity.
  - destruct nodes as [|node rest]; [reflexivity|].
    cbn [WSI.findClusters_loop].
    destruct (WSI.collect (node :: rest) tokenGraph weights _ _ _)
      as [[cluster1 toRemove]|e] eqn:Hc; [|reflexivity].
    pose proof (collect_first _ _ _ _ _ _ _ Hc) as Hfirst.
    pose proof (removeAll_first node rest toRemove Hfirst) as Hrm.
    apply collect_sense in Hc. cbn [Cluster.sense] in Hc.
    rewrite length_cons in Hmax.
    destruct (_ >=? _) eqn:Hsize.
    + pose proof (valueOf_intValue heap (wrap32 (intValue sense + 1))) as Hv.
      destruct (valueOf heap _) as [sense1 heap1]. cbn [fst] in Hv.
      rewrite wrap32_small in Hv by (unfold INT_MAX in Hmax; lia).
      specialize (IH (WSI.removeAll (node :: rest) toRemove) sense1 heap1).
      destruct (WSI.findClusters_loop _ _ _ _ _ _ _ _) as [queue out].
      cbn [fst] in *. cbv zeta in IH.
      rewrite fmap_cons, IH, Hc, Hv by lia.
      rewrite length_cons, (seqZ_cons (intValue sense)) by lia.
      f_equal. f_equal; lia.
    + apply IH; lia.
Qed.

Lemma getNodes_loop_length (g : Graph.t Float) :
  forall cnt node heap,
  (length (fst (Graph.getNodes_loop cnt node g heap)) <= cnt)%nat.
Proof.
  induction cnt as [|cnt IH]; intros node heap; simpl; [lia|].
  destruct (decide (node ∈ Graph.nodes g)).
  - destruct (valueOf heap node) as [boxed heap1].
    specialize (IH (node + 1) heap1).
    destruct (Graph.getNodes_loop cnt (node + 1) g heap1). simpl in *. lia.
  - specialize (IH (node + 1) heap). lia.
Qed.

Lemma getEdges_loop_error sources (ow : option (list Float)) :
  forall i e, Graph.getEdges_loop sources i ow = Err e -> e <> OutOfFuel.
Proof.
  induction sources as [|s rest IH]; intros i e; simpl; [discriminate|].
  destruct ow as [ws|]; simpl; [|congruence].
  unfold list_get. destruct (ws !! i); simpl; [|congruence].
  specialize (IH (S i)).
  destruct (Graph.getEdges_loop rest (S i) (Some ws)); simpl; [discriminate|].
  intros He. apply IH. congruence.
Qed.

Lemma getEdges_error node (g : Graph.t Float) e :
  Graph.getEdges node g = Err e -> e <> OutOfFuel.
Proof.
  unfold Graph.getEdges, aload.
  destruct (_ && _); simpl; [|congruence].
  destruct (Graph.edgeSources g !! intValue node); [|discriminate].
  apply getEdges_loop_error.
Qed.

Variable setOrder : list Integer -> list Integer.

(** C9. Every cluster that [findClusters] puts on the output queue has at
    least [minCluster] members, whatever the ego network, the labels and
    the value of [minCluster]; the loop of the model had the fuel to run to
    its end. *)
Theorem findClusters_min_cluster baseNode (tokenGraph : Graph.t Float) heap :
  let run := WSI.findClusters distributedGraph minCluster setOrder
               baseNode tokenGraph heap in
  Forall (fun c => minCluster <= Z.of_nat (length (Cluster.members c)))
    (fst run)
  /\ snd run <> Err OutOfFuel.
Proof.
  unfold WSI.findClusters.
  destruct (Graph.getNodes tokenGraph heap) as [all heap1].
  destruct (Graph.getEdges baseNode distributedGraph) as [edges|e] eqn:He.
  - split.
    + apply findClusters_loop_min_size.
    + apply findClusters_loop_fuel. lia.
  - split; [constructor|]. simpl.
    apply getEdges_error in He. congruence.
Qed.

(** C3, as the code has it. The clusters that [findClusters] puts on the
    queue for one base node carry the sense ids 0, 1, 2, ... in the order of
    publication: strictly increasing, none skipped, the first one 0. A
    cluster is created with the counter as it stands and the counter is
    incremented after the size test. *)
Theorem findClusters_sense_ids baseNode (tokenGraph : Graph.t Float) heap :
  (forall l, setOrder l ≡ₚ l) ->
  Graph.size tokenGraph <= INT_MAX ->
  let published := fst (WSI.findClusters distributedGraph minCluster setOrder
                          baseNode tokenGraph heap) in
  (fun c => intValue (Cluster.sense c)) <$> published
    = seqZ 0 (Z.of_nat (length published)).
Proof.
  intros Hperm Hsize. unfold WSI.findClusters, Graph.getNodes.
  pose proof (getNodes_loop_length tokenGraph
                (Z.to_nat (Graph.size tokenGraph)) 0 heap) as Hlen.
  destruct (Graph.getNodes_loop _ _ _ _) as [all heap1]. simpl in Hlen.
  destruct (Graph.getEdges baseNode distributedGraph) as [edges|e];
    [|reflexivity].
  apply (findClusters_loop_senses baseNode tokenGraph (WSI.weights_of edges)
           (length (setOrder all)) (setOrder all) (mkInteger None 0) heap1).
  - simpl. lia.
  - simpl. rewrite (Permutation_length (Hperm all)). unfold INT_MAX in *. lia.
Qed.

End FindClusters.



(** ** The graph invariant *)

Section GraphInvariant.
Context {Float : Type} `{Runtime}.
Implicit Types g : Graph.t Float.

(** What an allocation that returns has made. *)
Lemma new_array_Ok {A : Type} n (a : gmap Z A) :
  new_array n = Ok a -> a = ∅ /\ 0 <= n <= array_limit.
Proof.
  unfold new_array. destruct (Z.ltb_spec n 0); [discriminate|].
  destruct (Z.leb_spec n array_limit); [|discriminate].
  intros [= <-]. split; [done|lia].
Qed.

Lemma Arrays_copyOf_Ok {A : Type} (a a' : gmap Z A) n :
  Arrays_copyOf a n = Ok a' -> a' = a /\ 0 <= n <= array_limit.
Proof.
  unfold Arrays_copyOf. destruct (Z.ltb_spec n 0); [discriminate|].
  destruct (Z.leb_spec n array_limit); [|discriminate].
  intros [= <-]. split; [done|lia].
Qed.

Lemma new_BitSet_Ok n s : new_BitSet n = Ok s -> s = ∅ /\ 0 <= n.
Proof.
  unfold new_BitSet. destruct (Z.ltb_spec n 0); [discriminate|].
  destruct (_ <=? _); [|discriminate]. intros [= <-]. done.
Qed.

Lemma new_ArrayList_Ok {A : Type} n (l : list A) :
  new_ArrayList n = Ok l -> l = [] /\ 0 <= n <= array_limit.
Proof.
  unfold new_ArrayList. destruct (Z.ltb_spec n 0); [discriminate|].
  destruct (Z.leb_spec n array_limit); [|discriminate].
  intros [= <-]. split; [done|lia].
Qed.

Lemma new_IntOpenHashSet_Ok n s :
  new_IntOpenHashSet n = Ok s -> s = ∅ /\ 0 <= n /\ hash_set_alloc n = None.
Proof.
  unfold new_IntOpenHashSet. destruct (Z.ltb_spec n 0); [discriminate|].
  destruct (hash_set_alloc n); [discriminate|]. intros [= <-]. done.
Qed.

Lemma new_Ok initialSize perNode g :
  Graph.new initialSize perNode = Ok g ->
  g = Graph.mk initialSize ∅ ∅ ∅ ∅ ∅ perNode
  /\ 0 <= initialSize <= array_limit.
Proof.
  unfold Graph.new. intros Hrun.
  destruct (new_BitSet initialSize) as [s|] eqn:Hs; [|discriminate].
  apply new_BitSet_Ok in Hs as [-> _]. simpl in Hrun.
  destruct (new_array initialSize) as [a1|] eqn:H1 in Hrun; [|discriminate].
  apply new_array_Ok in H1 as [-> Hr]. simpl in Hrun.
  destruct (new_array initialSize) as [a2|] eqn:H2 in Hrun; [|discriminate].
  apply new_array_Ok in H2 as [-> _]. simpl in Hrun.
  destruct (new_array initialSize) as [a3|] eqn:H3 in Hrun; [|discriminate].
  apply new_array_Ok in H3 as [-> _]. simpl in Hrun.
  destruct (new_array initialSize) as [a4|] eqn:H4 in Hrun; [|discriminate].
  apply new_array_Ok in H4 as [-> _]. simpl in Hrun.
  injection Hrun as <-. done.
Qed.


Lemma wrap32_range x : - 2 ^ 31 <= wrap32 x < 2 ^ 31.
Proof.
  unfold wrap32. pose proof (Z.mod_pos_bound (x + 2 ^ 31) (2 ^ 32)). lia.
Qed.

Lemma new_wf initialSize perNode g :
  Graph.new initialSize perNode = Ok g -> Graph.wf g.
Proof.
  intros [-> _]%new_Ok. split.
  - intros v. unfold Graph.node_ok. simpl. rewrite !lookup_empty. set_solver.
  - intros u v x. unfold Graph.pairs, Graph.adj. simpl. rewrite lookup_empty.
    simpl. intros Hin. by apply elem_of_nil in Hin.
Qed.

Lemma new_default_wf : Graph.wf (Graph.new_default (Float := Float)).
Proof.
  split.
  - intros v. unfold Graph.node_ok. simpl. rewrite !lookup_empty. set_solver.
  - intros u v x. unfold Graph.pairs, Graph.adj. simpl. rewrite lookup_empty.
    simpl. intros Hin. by apply elem_of_nil in Hin.
Qed.

(** [ensureCapacity] only lengthens the arrays. *)
Lemma ensureCapacity_spec minSize g g' :
  Graph.ensureCapacity minSize g = Ok g' ->
  Graph.size g <= Graph.size g'
  /\ Graph.nodes g' = Graph.nodes g
  /\ Graph.edgeSourceSet g' = Graph.edgeSourceSet g
  /\ Graph.edgeSources g' = Graph.edgeSources g
  /\ Graph.edgeWeights g' = Graph.edgeWeights g
  /\ Graph.nodeClasses g' = Graph.nodeClasses g.
Proof.
  unfold Graph.ensureCapacity.
  destruct (minSize >? Graph.size g) eqn:Hgt.
  - apply Z.gtb_lt in Hgt. intros Hrun.
    destruct (Arrays_copyOf (Graph.nodeClasses g) _) as [a1|] eqn:H1;
      [|discriminate].
    apply Arrays_copyOf_Ok in H1 as [-> _]. simpl in Hrun.
    destruct (Arrays_copyOf (Graph.edgeSourceSet g) _) as [a2|] eqn:H2;
      [|discriminate].
    apply Arrays_copyOf_Ok in H2 as [-> _]. simpl in Hrun.
    destruct (Arrays_copyOf (Graph.edgeSources g) _) as [a3|] eqn:H3;
      [|discriminate].
    apply Arrays_copyOf_Ok in H3 as [-> _]. simpl in Hrun.
    destruct (Arrays_copyOf (Graph.edgeWeights g) _) as [a4|] eqn:H4;
      [|discriminate].
    apply Arrays_copyOf_Ok in H4 as [-> _]. simpl in Hrun.
    injection Hrun as <-. simpl. repeat split; try reflexivity; lia.
  - intros [= <-]. repeat split; try reflexivity; lia.
Qed.

(** [ensureCapacity] changes nothing when the arrays are long enough. *)
Lemma ensureCapacity_enough minSize g :
  minSize <= Graph.size g -> Graph.ensureCapacity minSize g = Ok g.
Proof.
  intros Hle. unfold Graph.ensureCapacity.
  by replace (minSize >? Graph.size g) with false
    by (symmetry; rewrite Z.gtb_ltb; apply Z.ltb_ge; lia).
Qed.

(** [addNode] that returns, step by step: the arrays after
    [ensureCapacity], and then either the node was there or it got three
    empty collections. *)
Lemma addNode_Ok node g g' :
  Graph.addNode node g = Ok g' ->
  exists g1,
    Graph.ensureCapacity (wrap32 (intValue node + 1)) g = Ok g1
    /\ 0 <= intValue node
    /\ ((intValue node ∈ Graph.nodes g1 /\ g' = g1)
        \/ ((intValue node ∉ Graph.nodes g1)
            /\ intValue node < Graph.size g1
            /\ g' = Graph.mk (Graph.size g1)
                      ({[intValue node]} ∪ Graph.nodes g1)
                      (Graph.nodeClasses g1)
                      (<[intValue node:=∅]> (Graph.edgeSourceSet g1))
                      (<[intValue node:=[]]> (Graph.edgeSources g1))
                      (<[intValue node:=[]]> (Graph.edgeWeights g1))
                      (Graph.initialNumEdgesPerNode g1))).
Proof.
  unfold Graph.addNode. cbv zeta. intros Hrun.
  destruct (Graph.ensureCapacity _ g) as [g1|] eqn:Hcap; [|discriminate].
  simpl in Hrun. exists g1. split; [done|].
  destruct (Z.ltb_spec (intValue node) 0); [discriminate|]. split; [done|].
  destruct (decide (intValue node ∈ Graph.nodes g1)) as [Hin|Hnin].
  - injection Hrun as <-. by left.
  - right.
    destruct (new_IntOpenHashSet _) as [set|] eqn:Hset; [|discriminate].
    apply new_IntOpenHashSet_Ok in Hset as [-> _]. simpl in Hrun.
    destruct (Z.ltb_spec (intValue node) (Graph.size g1)); [|discriminate].
    destruct (new_ArrayList _) as [l1|] eqn:Hl1 in Hrun; [|discriminate].
    apply new_ArrayList_Ok in Hl1 as [-> _]. simpl in Hrun.
    destruct (new_ArrayList _) as [l2|] eqn:Hl2 in Hrun; [|discriminate].
    apply new_ArrayList_Ok in Hl2 as [-> _]. simpl in Hrun.
    injection Hrun as <-. done.
Qed.

Lemma node_ok_ext g g' v :
  Graph.size g <= Graph.size g' ->
  Graph.nodes g' = Graph.nodes g ->
  Graph.edgeSourceSet g' !! v = Graph.edgeSourceSet g !! v ->
  Graph.edgeSources g' !! v = Graph.edgeSources g !! v ->
  Graph.edgeWeights g' !! v = Graph.edgeWeights g !! v ->
  Graph.node_ok g v -> Graph.node_ok g' v.
Proof.
  intros Hsz Hn Hs Hsrc Hw. unfold Graph.node_ok. rewrite Hs, Hsrc, Hw, Hn.
  destruct (Graph.edgeSources g !! v), (Graph.edgeWeights g !! v),
    (Graph.edgeSourceSet g !! v); try done.
  intros (? & ? & ? & ? & ?). split; [done|]. split; [lia|]. done.
Qed.

Lemma pairs_ext g g' v :
  Graph.edgeSources g' !! v = Graph.edgeSources g !! v ->
  Graph.edgeWeights g' !! v = Graph.edgeWeights g !! v ->
  Graph.pairs g' v = Graph.pairs g v.
Proof.
  intros Hsrc Hw. unfold Graph.pairs, Graph.adj, Graph.w. by rewrite Hsrc, Hw.
Qed.

(** [addNode] adds no edge. *)
Lemma addNode_spec node g g' :
  Graph.addNode node g = Ok g' -> Graph.wf g ->
  Graph.wf g'
  /\ (forall v, Graph.pairs g' v = Graph.pairs g v)
  /\ (forall v, Graph.adj g' v = Graph.adj g v)
  /\ intValue node ∈ Graph.nodes g'.
Proof.
  intros Hrun [Hnodes Hsym].
  destruct (addNode_Ok _ _ _ Hrun)
    as (g1 & Hcap & Hneg & [[Hin ->]|(Hnin & Hlt & ->)]);
    pose proof (ensureCapacity_spec _ _ _ Hcap)
      as (Hsz & Hn & Hset & Hsrc & Hw & _).
  - split; [split|].
    + intros v. apply (node_ok_ext g); try done; congruence.
    + intros u v x. rewrite !(pairs_ext g g1) by congruence. apply Hsym.
    + split; [intros v; apply pairs_ext; congruence|].
      split; [|done]. intros v. unfold Graph.adj. by rewrite Hsrc.
  - assert (Hnone : Graph.edgeSources g !! intValue node = None
                    /\ Graph.edgeWeights g !! intValue node = None).
    { specialize (Hnodes (intValue node)). unfold Graph.node_ok in Hnodes.
      rewrite Hn in Hnin.
      destruct (Graph.edgeSources g !! intValue node),
        (Graph.edgeWeights g !! intValue node),
        (Graph.edgeSourceSet g !! intValue node); try done.
      by destruct Hnodes. }
    destruct Hnone as [Hnsrc Hnw].
    assert (Hp : forall v, Graph.pairs (Graph.mk (Graph.size g1) ({[intValue node]} ∪ Graph.nodes g1)
        (Graph.nodeClasses g1) (<[intValue node:=∅]> (Graph.edgeSourceSet g1))
        (<[intValue node:=[]]> (Graph.edgeSources g1))
        (<[intValue node:=[]]> (Graph.edgeWeights g1))
        (Graph.initialNumEdgesPerNode g1)) v = Graph.pairs g v).
    { intros v. unfold Graph.pairs, Graph.adj, Graph.w. simpl.
      rewrite Hsrc, Hw. destruct (decide (v = intValue node)) as [->|Hne].
      - rewrite !lookup_insert_eq, Hnsrc, Hnw. reflexivity.
      - rewrite !lookup_insert_ne by done. reflexivity. }
    split; [split|].
    + intros v. unfold Graph.node_ok. simpl.
      destruct (decide (v = intValue node)) as [->|Hne].
      * rewrite !lookup_insert_eq.
        split; [apply elem_of_union; left; by apply elem_of_singleton|].
        split; [lia|]. split; [done|].
        split; [|simpl; constructor].
        intros x. simpl. split; intros Hx.
        -- by apply not_elem_of_empty in Hx.
        -- by apply elem_of_nil in Hx.
      * rewrite !lookup_insert_ne by done.
        specialize (Hnodes v). unfold Graph.node_ok in Hnodes.
        rewrite Hset, Hsrc, Hw, Hn.
        destruct (Graph.edgeSources g !! v), (Graph.edgeWeights g !! v),
          (Graph.edgeSourceSet g !! v); try done.
        -- destruct Hnodes as (? & ? & ? & ? & ?).
           split; [apply elem_of_union; by right|]. split; [lia|]. done.
        -- intros [Hx|Hx]%elem_of_union; [|done].
           apply elem_of_singleton in Hx. done.
    + intros u v x. rewrite !Hp. apply Hsym.
    + split; [exact Hp|].
      split; [|simpl; apply elem_of_union; left; by apply elem_of_singleton].
      intros v. unfold Graph.adj. simpl. rewrite Hsrc.
      destruct (decide (v = intValue node)) as [->|Hne].
      * by rewrite lookup_insert_eq, Hnsrc.
      * by rewrite lookup_insert_ne.
Qed.

(** [addNode] removes no node. *)
Lemma addNode_nodes_mono node g g' :
  Graph.addNode node g = Ok g' ->
  forall v, v ∈ Graph.nodes g -> v ∈ Graph.nodes g'.
Proof.
  intros Hrun v Hv.
  destruct (addNode_Ok _ _ _ Hrun)
    as (g1 & Hcap & _ & [[_ ->]|(_ & _ & ->)]);
    pose proof (ensureCapacity_spec _ _ _ Hcap) as (_ & Hn & _).
  - by rewrite Hn.
  - simpl. rewrite Hn. apply elem_of_union. by right.
Qed.

Lemma node_ok_present g v src :
  Graph.node_ok g v -> Graph.edgeSources g !! v = Some src ->
  exists wts set,
    Graph.edgeWeights g !! v = Some wts
    /\ Graph.edgeSourceSet g !! v = Some set
    /\ v ∈ Graph.nodes g /\ 0 <= v < Graph.size g
    /\ length wts = length src
    /\ (forall x, x ∈ set <-> x ∈ intValue <$> src)
    /\ NoDup (intValue <$> src).
Proof.
  unfold Graph.node_ok. intros Hok Hsrc. rewrite Hsrc in Hok.
  destruct (Graph.edgeWeights g !! v) as [wts|]; [|done].
  destruct (Graph.edgeSourceSet g !! v) as [set|]; [|done].
  exists wts, set. tauto.
Qed.

Lemma node_ok_in_nodes g v :
  Graph.node_ok g v -> v ∈ Graph.nodes g ->
  exists src, Graph.edgeSources g !! v = Some src.
Proof.
  unfold Graph.node_ok. intros Hok Hin.
  destruct (Graph.edgeSources g !! v) as [src|]; [eauto|].
  destruct (Graph.edgeWeights g !! v), (Graph.edgeSourceSet g !! v); done.
Qed.

(** One direction of [addEdge], on a present node: a no-op on an edge that
    is there, an append otherwise. *)
Lemma link_spec a b weight g g' :
  Graph.link a b weight g = Ok g' ->
  (forall v, Graph.node_ok g v) ->
  (intValue b ∈ Graph.adj g (intValue a) /\ g' = g)
  \/ ((intValue b ∉ Graph.adj g (intValue a))
      /\ (forall v, Graph.node_ok g' v)
      /\ Graph.nodes g' = Graph.nodes g
      /\ Graph.adj g' (intValue a) = Graph.adj g (intValue a) ++ [intValue b]
      /\ Graph.pairs g' (intValue a) = Graph.pairs g (intValue a) ++ [(intValue b, weight)]
      /\ (forall v, v <> intValue a ->
            Graph.adj g' v = Graph.adj g v /\ Graph.pairs g' v = Graph.pairs g v)).
Proof.
  unfold Graph.link, aload. intros Hrun Hnodes.
  destruct (_ && _) eqn:Hrange; simpl in Hrun; [|discriminate].
  destruct (Graph.edgeSourceSet g !! intValue a) as [set|] eqn:Hset;
    simpl in Hrun; [|discriminate].
  destruct (decide (intValue b ∈ set)) as [Hin|Hnin].
  - injection Hrun as <-. left. split; [|done].
    pose proof (Hnodes (intValue a)) as Hok. unfold Graph.node_ok in Hok.
    rewrite Hset in Hok. unfold Graph.adj.
    destruct (Graph.edgeSources g !! intValue a) as [src|];
      destruct (Graph.edgeWeights g !! intValue a); try done.
    destruct Hok as (_ & _ & _ & Hmem & _). by apply Hmem.
  - destruct (Graph.edgeSources g !! intValue a) as [src|] eqn:Hsrc;
      simpl in Hrun; [|discriminate].
    destruct (Graph.edgeWeights g !! intValue a) as [wts|] eqn:Hw;
      simpl in Hrun; [|discriminate].
    injection Hrun as <-. right.
    pose proof (Hnodes (intValue a)) as Hok. unfold Graph.node_ok in Hok.
    rewrite Hset, Hsrc, Hw in Hok.
    destruct Hok as (Hpres & Hbounds & Hlen & Hmem & Hnodup).
    assert (Hb : intValue b ∉ intValue <$> src) by (by rewrite <- Hmem).
    split; [unfold Graph.adj; by rewrite Hsrc|].
    split; [|split; [done|]].
    + intros v. unfold Graph.node_ok. simpl.
      destruct (decide (v = intValue a)) as [->|Hne].
      * rewrite !lookup_insert_eq.
        split; [done|]. split; [done|].
        split; [rewrite !length_app; simpl; lia|].
        split.
        -- intros x. rewrite fmap_app, elem_of_app, elem_of_union, Hmem.
           simpl. rewrite elem_of_singleton, list_elem_of_singleton. tauto.
        -- rewrite fmap_app. simpl. apply NoDup_app. split; [done|].
           split; [|apply NoDup_singleton].
           intros x Hx Hx'. apply list_elem_of_singleton in Hx'. by subst.
      * rewrite !lookup_insert_ne by done. apply Hnodes.
    + unfold Graph.pairs, Graph.adj, Graph.w. simpl.
      rewrite !lookup_insert_eq, Hsrc, Hw.
      split; [by rewrite fmap_app|]. split.
      * rewrite fmap_app. simpl.
        rewrite zip_with_app by (rewrite length_fmap; lia). reflexivity.
      * intros v Hne. by rewrite !lookup_insert_ne.
Qed.

Lemma pairs_adj g v x y :
  (x, y) ∈ Graph.pairs g v -> x ∈ Graph.adj g v.
Proof.
  unfold Graph.pairs. apply elem_of_zip_l.
Qed.

Lemma adj_pairs g v x :
  Graph.node_ok g v -> x ∈ Graph.adj g v -> exists y, (x, y) ∈ Graph.pairs g v.
Proof.
  unfold Graph.pairs, Graph.adj, Graph.w, Graph.node_ok. intros Hok Hin.
  destruct (Graph.edgeSources g !! v) as [src|]; [|by apply elem_of_nil in Hin].
  destruct (Graph.edgeWeights g !! v) as [wts|]; [|done].
  destruct (Graph.edgeSourceSet g !! v) as [set|]; [|done].
  destruct Hok as (_ & _ & Hlen & _ & _).
  apply list_elem_of_lookup in Hin as [i Hi].
  destruct (lookup_lt_is_Some_2 wts i) as [y Hy].
  { apply lookup_lt_Some in Hi. rewrite length_fmap in Hi. lia. }
  exists y. apply list_elem_of_lookup. exists i.
  apply lookup_zip_with_Some. eauto.
Qed.

Lemma same_object_value a b :
  same_object a b = true -> intValue a = intValue b.
Proof.
  unfold same_object. destruct (ident a), (ident b); try discriminate.
  - intros [_ Heq]%andb_true_iff. by apply Z.eqb_eq.
  - intros Heq. by apply Z.eqb_eq.
Qed.

(** What [addEdge] does to the adjacency, on a well-formed graph. *)
Lemma addEdge_spec from to weight g g' :
  Graph.addEdge from to weight g = Ok g' -> Graph.wf g ->
  Graph.wf g'
  /\ (same_object from to = false ->
      intValue from ∈ Graph.nodes g' /\ intValue to ∈ Graph.nodes g')
  /\ (((same_object from to = true
        \/ intValue to ∈ Graph.adj g (intValue from))
       /\ (forall v, Graph.adj g' v = Graph.adj g v /\ Graph.pairs g' v = Graph.pairs g v))
      \/ (same_object from to = false
          /\ (intValue to ∉ Graph.adj g (intValue from))
          /\ (intValue to, weight) ∈ Graph.pairs g' (intValue from)
          /\ (intValue from, weight) ∈ Graph.pairs g' (intValue to)
          /\ (forall v, exists extra,
                Graph.pairs g' v = Graph.pairs g v ++ extra
                /\ (extra <> [] -> v = intValue from \/ v = intValue to)))).
Proof.
  unfold Graph.addEdge. intros Hrun Hwf.
  destruct (same_object from to) eqn:Hsame; simpl in Hrun.
  { injection Hrun as <-. split; [done|]. split; [done|].
    left. split; [by left|]. done. }
  destruct (Graph.addNode from g) as [g1|] eqn:H1; simpl in Hrun; [|discriminate].
  destruct (Graph.addNode to g1) as [g2|] eqn:H2; simpl in Hrun; [|discriminate].
  destruct (Graph.link from to weight g2) as [g3|] eqn:H3; simpl in Hrun;
    [|discriminate].
  destruct (addNode_spec _ _ _ H1 Hwf) as (Hwf1 & Hp1 & Ha1 & Hin1).
  destruct (addNode_spec _ _ _ H2 Hwf1) as (Hwf2 & Hp2 & Ha2 & Hin2).
  assert (Hin1' : intValue from ∈ Graph.nodes g2)
    by (by apply (addNode_nodes_mono _ _ _ H2)).
  assert (Hp : forall v, Graph.pairs g2 v = Graph.pairs g v) by (intros; by rewrite Hp2, Hp1).
  assert (Ha : forall v, Graph.adj g2 v = Graph.adj g v)
    by (intros; by rewrite Ha2, Ha1).
  destruct Hwf2 as [Hok2 Hsym2].
  destruct (link_spec _ _ _ _ _ H3 Hok2)
    as [[Hin ->]|(Hnin & Hok3 & Hn3 & Hadj3 & Hp3 & Hoth3)].
  - (* the edge is there: the second direction is there too *)
    destruct (adj_pairs _ _ _ (Hok2 _) Hin) as [y Hy].
    apply Hsym2, pairs_adj in Hy.
    destruct (link_spec _ _ _ _ _ Hrun Hok2) as [[_ ->]|(Hnin & _)]; [|done].
    split; [done|]. split; [done|].
    left. split; [right; by rewrite <- Ha|]. done.
  - destruct (decide (intValue from = intValue to)) as [Heq|Hne].
    + (* one node under two objects: the second direction finds the edge *)
      destruct (link_spec _ _ _ _ _ Hrun Hok3) as [[_ ->]|(Hnin' & _)].
      2:{ exfalso. apply Hnin'. rewrite <- Heq, Hadj3, Heq.
          apply elem_of_app. right. apply list_elem_of_here. }
      split.
      * split; [done|]. intros u v x.
        destruct (decide (u = intValue from)) as [->|Hu].
        -- rewrite Hp3. intros [Hx|Hx]%elem_of_app.
           ++ apply Hsym2 in Hx.
              destruct (decide (v = intValue from)) as [->|Hv].
              ** rewrite Hp3. apply elem_of_app. by left.
              ** by rewrite (proj2 (Hoth3 v Hv)).
           ++ apply list_elem_of_singleton in Hx. injection Hx as -> ->.
              rewrite <- Heq, Hp3. apply elem_of_app. right.
              rewrite Heq. apply list_elem_of_here.
        -- rewrite (proj2 (Hoth3 u Hu)). intros Hx. apply Hsym2 in Hx.
           destruct (decide (v = intValue from)) as [->|Hv].
           ++ rewrite Hp3. apply elem_of_app. by left.
           ++ by rewrite (proj2 (Hoth3 v Hv)).
      * split; [by rewrite Hn3|].
        right. split; [done|]. split; [by rewrite <- Ha|].
        split; [rewrite Hp3; apply elem_of_app; right; apply list_elem_of_here|].
        split; [rewrite <- Heq, Hp3, Heq; apply elem_of_app; right;
                apply list_elem_of_here|].
        intros v. destruct (decide (v = intValue from)) as [->|Hv].
        -- exists [(intValue to, weight)]. rewrite Hp3, Hp. split; [done|]. by left.
        -- exists []. rewrite (proj2 (Hoth3 v Hv)), Hp, app_nil_r. done.
    + (* two nodes: the second direction is new as well *)
      assert (Hnin' : intValue from ∉ Graph.adj g2 (intValue to)).
      { intros Hin. destruct (adj_pairs _ _ _ (Hok2 _) Hin) as [y Hy].
        apply Hsym2, pairs_adj in Hy. done. }
      destruct (link_spec _ _ _ _ _ Hrun Hok3)
        as [[Hin _]|(_ & Hok4 & Hn4 & Hadj4 & Hp4 & Hoth4)].
      { exfalso. apply Hnin'. by rewrite <- (proj1 (Hoth3 _ (not_eq_sym Hne))). }
      assert (Hfrom : Graph.pairs g' (intValue from)
                      = Graph.pairs g2 (intValue from) ++ [(intValue to, weight)]).
      { by rewrite (proj2 (Hoth4 _ Hne)), Hp3. }
      assert (Hto : Graph.pairs g' (intValue to)
                    = Graph.pairs g2 (intValue to) ++ [(intValue from, weight)]).
      { by rewrite Hp4, (proj2 (Hoth3 _ (not_eq_sym Hne))). }
      assert (Hrest : forall v, v <> intValue from -> v <> intValue to ->
                Graph.pairs g' v = Graph.pairs g2 v).
      { intros v Hv1 Hv2. by rewrite (proj2 (Hoth4 _ Hv2)), (proj2 (Hoth3 _ Hv1)). }
      assert (Hmono : forall v p, p ∈ Graph.pairs g2 v -> p ∈ Graph.pairs g' v).
      { intros v p Hin.
        destruct (decide (v = intValue from)) as [->|Hv1];
          [rewrite Hfrom; apply elem_of_app; by left|].
        destruct (decide (v = intValue to)) as [->|Hv2];
          [rewrite Hto; apply elem_of_app; by left|].
        by rewrite Hrest. }
      split.
      * split; [done|]. intros u v x.
        destruct (decide (u = intValue from)) as [->|Hu1].
        { rewrite Hfrom. intros [Hx|Hx]%elem_of_app.
          - by apply Hmono, Hsym2.
          - apply list_elem_of_singleton in Hx. injection Hx as -> ->.
            rewrite Hto. apply elem_of_app. right. apply list_elem_of_here. }
        destruct (decide (u = intValue to)) as [->|Hu2].
        { rewrite Hto. intros [Hx|Hx]%elem_of_app.
          - by apply Hmono, Hsym2.
          - apply list_elem_of_singleton in Hx. injection Hx as -> ->.
            rewrite Hfrom. apply elem_of_app. right. apply list_elem_of_here. }
        rewrite Hrest by done. intros Hx. by apply Hmono, Hsym2.
      * split; [by rewrite Hn4, Hn3|].
        right. split; [done|]. split; [by rewrite <- Ha|].
        split; [rewrite Hfrom; apply elem_of_app; right; apply list_elem_of_here|].
        split; [rewrite Hto; apply elem_of_app; right; apply list_elem_of_here|].
        intros v.
        destruct (decide (v = intValue from)) as [->|Hv1];
          [exists [(intValue to, weight)]; rewrite Hfrom, Hp; split; [done|by left]|].
        destruct (decide (v = intValue to)) as [->|Hv2];
          [exists [(intValue from, weight)]; rewrite Hto, Hp; split; [done|by right]|].
        exists []. rewrite Hrest, Hp, app_nil_r by done. done.
Qed.

Lemma built_wf g : Graph.built g -> Graph.wf g.
Proof.
  induction 1 as [? ? ? Hnew|? ? ? _ IH Hadd|? ? ? ? ? _ IH Hadd].
  - eapply new_wf; eauto.
  - by destruct (addNode_spec _ _ _ Hadd IH).
  - by destruct (addEdge_spec _ _ _ _ _ Hadd IH).
Qed.



(** *** [getEdgeWeight] on a well-formed graph *)

Lemma scan_found edges (wts : list Float) to zero (x : Float) :
  forall i,
  NoDup (intValue <$> edges) ->
  (intValue to, x) ∈ zip (intValue <$> edges) (drop i wts) ->
  Graph.getEdgeWeight_scan edges i (Some wts) to zero = Ok x.
Proof.
  induction edges as [|e rest IH]; intros i Hnd Hin; simpl in *.
  - by apply elem_of_nil in Hin.
  - apply NoDup_cons in Hnd as [Hhead Hnd].
    destruct (wts !! i) as [w0|] eqn:Hw.
    2:{ rewrite drop_ge in Hin by (by apply lookup_ge_None).
        by apply elem_of_nil in Hin. }
    rewrite (drop_S _ _ _ Hw) in Hin. simpl in Hin.
    apply elem_of_cons in Hin as [Heq|Hin].
    + injection Heq as Hv ->. rewrite Hv, Z.eqb_refl. unfold list_get.
      by rewrite Hw.
    + destruct (intValue e =? intValue to) eqn:Heq.
      * apply Z.eqb_eq in Heq. exfalso. apply Hhead. rewrite Heq.
        eapply elem_of_zip_l. exact Hin.
      * by apply IH.
Qed.

Lemma scan_absent edges (ow : option (list Float)) to (zero : Float) :
  forall i,
  intValue to ∉ intValue <$> edges ->
  Graph.getEdgeWeight_scan edges i ow to zero = Ok zero.
Proof.
  induction edges as [|e rest IH]; intros i Hnin; simpl in *; [done|].
  apply not_elem_of_cons in Hnin as [Hne Hnin].
  destruct (intValue e =? intValue to) eqn:Heq.
  - apply Z.eqb_eq in Heq. congruence.
  - by apply IH.
Qed.

Section Weights.
Context `{FloatOps Float}.

Lemma getEdgeWeight_found g from to x :
  Graph.wf g -> (intValue to, x) ∈ Graph.pairs g (intValue from) ->
  Graph.getEdgeWeight from to g = Ok x.
Proof.
  intros [Hok _] Hin. unfold Graph.pairs, Graph.adj, Graph.w in Hin.
  unfold Graph.getEdgeWeight, aload.
  destruct (Graph.edgeSources g !! intValue from) as [src|] eqn:Hsrc;
    [|by apply elem_of_nil in Hin].
  destruct (node_ok_present _ _ _ (Hok _) Hsrc)
    as (wts & set & Hw & _ & _ & Hrange & _ & _ & Hnd).
  rewrite Hw in Hin.
  replace ((0 <=? intValue from) && (intValue from <? Graph.size g))
    with true by (symmetry; apply andb_true_iff; lia).
  simpl. rewrite ?Hsrc, ?Hw. simpl. by apply scan_found.
Qed.

Lemma getEdgeWeight_absent g from to :
  Graph.wf g -> intValue from ∈ Graph.nodes g ->
  intValue to ∉ Graph.adj g (intValue from) ->
  Graph.getEdgeWeight from to g = Ok Fzero.
Proof.
  intros [Hok _] Hpres Hnin.
  destruct (node_ok_in_nodes _ _ (Hok _) Hpres) as [src Hsrc].
  destruct (node_ok_present _ _ _ (Hok _) Hsrc)
    as (wts & set & Hw & _ & _ & Hrange & _ & _ & Hnd).
  unfold Graph.adj in Hnin. rewrite Hsrc in Hnin.
  unfold Graph.getEdgeWeight, aload.
  replace ((0 <=? intValue from) && (intValue from <? Graph.size g))
    with true by (symmetry; apply andb_true_iff; lia).
  simpl. rewrite Hsrc. simpl. by apply scan_absent.
Qed.

End Weights.

(** *** [addEdge] returns on present nodes *)

Lemma addNode_present node g :
  Graph.wf g -> intValue node ∈ Graph.nodes g -> Graph.addNode node g = Ok g.
Proof.
  intros [Hok _] Hin. unfold Graph.addNode.
  destruct (node_ok_in_nodes _ _ (Hok _) Hin) as [src Hsrc].
  destruct (node_ok_present _ _ _ (Hok _) Hsrc)
    as (_ & _ & _ & _ & _ & Hrange & _).
  assert (Hcap : Graph.ensureCapacity (wrap32 (intValue node + 1)) g = Ok g).
  { apply ensureCapacity_enough.
    destruct (decide (intValue node + 1 < 2 ^ 31)) as [Hsmall|Hbig].
    - rewrite wrap32_small by lia. lia.
    - pose proof (wrap32_range (intValue node + 1)). lia. }
  cbv zeta. rewrite Hcap. simpl.
  replace (intValue node <? 0) with false by (symmetry; apply Z.ltb_ge; lia).
  by destruct (decide _).
Qed.

Lemma link_present a b weight g :
  Graph.wf g -> intValue a ∈ Graph.nodes g ->
  intValue b ∈ Graph.adj g (intValue a) ->
  Graph.link a b weight g = Ok g.
Proof.
  intros [Hok _] Hin Hadj. unfold Graph.link, aload.
  destruct (node_ok_in_nodes _ _ (Hok _) Hin) as [src Hsrc].
  destruct (node_ok_present _ _ _ (Hok _) Hsrc)
    as (wts & set & Hw & Hset & _ & Hrange & _ & Hmem & _).
  replace ((0 <=? intValue a) && (intValue a <? Graph.size g))
    with true by (symmetry; apply andb_true_iff; lia).
  simpl. rewrite Hset. simpl.
  unfold Graph.adj in Hadj. rewrite Hsrc in Hadj.
  destruct (decide _) as [|Hn]; [done|]. exfalso. apply Hn. by apply Hmem.
Qed.

(** Adding an edge that is there changes nothing. *)
Lemma addEdge_present from to weight g :
  Graph.wf g -> intValue from ∈ Graph.nodes g -> intValue to ∈ Graph.nodes g ->
  intValue to ∈ Graph.adj g (intValue from) ->
  Graph.addEdge from to weight g = Ok g.
Proof.
  intros Hwf Hf Ht Hadj. unfold Graph.addEdge.
  destruct (same_object from to); simpl; [done|].
  rewrite (addNode_present _ _ Hwf Hf). simpl.
  rewrite (addNode_present _ _ Hwf Ht). simpl.
  rewrite (link_present _ _ _ _ Hwf Hf Hadj). simpl.
  apply link_present; [done..|].
  destruct Hwf as [Hok Hsym].
  destruct (adj_pairs _ _ _ (Hok _) Hadj) as [y Hy].
  apply Hsym, pairs_adj in Hy. done.
Qed.

Lemma adj_NoDup g v : Graph.wf g -> NoDup (Graph.adj g v).
Proof.
  intros [Hok _]. unfold Graph.adj.
  destruct (Graph.edgeSources g !! v) as [src|] eqn:Hsrc; [|constructor].
  by destruct (node_ok_present _ _ _ (Hok _) Hsrc)
    as (_ & _ & _ & _ & _ & _ & _ & _ & Hnd).
Qed.

Lemma adj_w_length g v : Graph.wf g -> length (Graph.w g v) = length (Graph.adj g v).
Proof.
  intros [Hok _]. unfold Graph.adj, Graph.w. specialize (Hok v).
  unfold Graph.node_ok in Hok.
  destruct (Graph.edgeSources g !! v) as [src|],
    (Graph.edgeWeights g !! v) as [wts|],
    (Graph.edgeSourceSet g !! v); try done.
  rewrite length_fmap. tauto.
Qed.

Lemma pairs_lookup g v x y :
  (x, y) ∈ Graph.pairs g v <->
  exists i, Graph.adj g v !! i = Some x /\ Graph.w g v !! i = Some y.
Proof.
  unfold Graph.pairs. rewrite list_elem_of_lookup. split.
  - intros [i Hi]. exists i.
    apply lookup_zip_with_Some in Hi as (x' & y' & [= -> ->] & ? & ?). done.
  - intros (i & Hx & Hy). exists i. apply lookup_zip_with_Some. eauto.
Qed.

Section Claims.
Context `{FloatOps Float}.

(** C5. In a graph made by the constructor and any calls of [addNode] and
    [addEdge], adjacency is Graph.symmetric, [v ∈ adj(u)] iff [u ∈ adj(v)], and
    the weight stored for [v] at [u] is the weight stored for [u] at [v]:
    both as [getEdgeWeight] returns it and position by position in the
    weight lists. *)
Theorem built_graph_symmetric g (u v : Integer) :
  Graph.built g ->
  (intValue v ∈ Graph.adj g (intValue u)
   <-> intValue u ∈ Graph.adj g (intValue v))
  /\ (intValue v ∈ Graph.adj g (intValue u) ->
      exists x, Graph.getEdgeWeight u v g = Ok x
                /\ Graph.getEdgeWeight v u g = Ok x)
  /\ (forall i j,
        Graph.adj g (intValue u) !! i = Some (intValue v) ->
        Graph.adj g (intValue v) !! j = Some (intValue u) ->
        exists x, Graph.w g (intValue u) !! i = Some x
                  /\ Graph.w g (intValue v) !! j = Some x).
Proof.
  intros Hb. pose proof (built_wf _ Hb) as Hwf.
  pose proof Hwf as [Hok Hsym].
  assert (Hhalf : forall a b, b ∈ Graph.adj g a -> a ∈ Graph.adj g b).
  { intros a b Hin. destruct (adj_pairs _ _ _ (Hok _) Hin) as [y Hy].
    by apply Hsym, pairs_adj in Hy. }
  split; [split; apply Hhalf|]. split.
  - intros Hin. destruct (adj_pairs _ _ _ (Hok _) Hin) as [x Hx].
    exists x. split; [by apply getEdgeWeight_found|].
    apply getEdgeWeight_found; [done|]. by apply Hsym.
  - intros i j Hi Hj.
    destruct (lookup_lt_is_Some_2 (Graph.w g (intValue u)) i) as [x Hx].
    { rewrite adj_w_length by done. by apply lookup_lt_Some in Hi. }
    exists x. split; [done|].
    assert (Hp : (intValue v, x) ∈ Graph.pairs g (intValue u))
      by (apply pairs_lookup; eauto).
    apply Hsym, pairs_lookup in Hp as (j' & Hj' & Hw').
    assert (j' = j) as ->; [|done].
    eapply NoDup_lookup; [by apply adj_NoDup|exact Hj'|exact Hj].
Qed.

(** C6, as the code has it. On a built graph and for [u ≠ v], after
    [addEdge(u, v, w1)] a second [addEdge(u, v, w2)] returns and changes
    nothing (so [adj(u)] keeps its length), [adj(u)] holds [v] exactly
    once, and [getEdgeWeight(u, v)] is the weight of the first insertion
    of the edge: [w1] when the graph had no edge between [u] and [v] before
    the first call, and the weight already stored otherwise. *)
Theorem addEdge_twice g g1 (u v : Integer) (w1 w2 : Float) :
  Graph.built g ->
  intValue u <> intValue v ->
  Graph.addEdge u v w1 g = Ok g1 ->
  Graph.addEdge u v w2 g1 = Ok g1
  /\ count_occ Z.eq_dec (Graph.adj g1 (intValue u)) (intValue v) = 1%nat
  /\ (intValue v ∉ Graph.adj g (intValue u) ->
      Graph.getEdgeWeight u v g1 = Ok w1)
  /\ (intValue v ∈ Graph.adj g (intValue u) ->
      Graph.getEdgeWeight u v g1 = Graph.getEdgeWeight u v g).
Proof.
  intros Hb Hne Hadd. pose proof (built_wf _ Hb) as Hwf.
  assert (Hdiff : same_object u v = false).
  { destruct (same_object u v) eqn:Hs; [|done].
    by apply same_object_value in Hs. }
  destruct (addEdge_spec _ _ _ _ _ Hadd Hwf) as (Hwf1 & Hpres & Hcases).
  destruct (Hpres Hdiff) as [Hu Hv].
  assert (Hin1 : intValue v ∈ Graph.adj g1 (intValue u)).
  { destruct Hcases as [[[?|Hin] Hsame]|(_ & _ & Hin & _)]; [congruence| |].
    - by rewrite (proj1 (Hsame _)).
    - by apply pairs_adj in Hin. }
  split; [by apply addEdge_present|]. split.
  - pose proof (adj_NoDup _ (intValue u) Hwf1) as Hnd.
    apply NoDup_ListNoDup in Hnd.
    apply (NoDup_count_occ Z.eq_dec) with (x := intValue v) in Hnd.
    apply list_elem_of_In, (count_occ_In Z.eq_dec) in Hin1. lia.
  - split.
    + intros Hnin.
      destruct Hcases as [[[?|Hin] _]|(_ & _ & Hin & _)]; [congruence|done|].
      by apply getEdgeWeight_found.
    + intros Hin.
      destruct Hcases as [[_ Hsame]|(_ & Hnin & _)]; [|done].
      destruct Hwf as [Hok Hsym].
      destruct (adj_pairs _ _ _ (Hok _) Hin) as [x Hx].
      rewrite (getEdgeWeight_found g u v x) by done.
      apply getEdgeWeight_found; [done|]. by rewrite (proj2 (Hsame _)).
Qed.

End Claims.

End GraphInvariant.

(** ** [sortEdges] *)

Section SortEdges.
Context {Float : Type} `{FloatOps Float} `{Runtime}.
Implicit Types g : Graph.t Float.

(** [Float.compare] never puts two floats each above the other. *)
Hypothesis Fcompare_asym :
  forall a b : Float, Fcompare a b = Gt -> Fcompare b a <> Gt.

Lemma sort_insert_perm (x : nat * Float) l : Graph.sort_insert x l ≡ₚ x :: l.
Proof.
  induction l as [|y l IH]; simpl; [done|].
  destruct (Fcompare x.2 y.2); try done.
  rewrite IH. apply Permutation_swap.
Qed.

Lemma Arrays_sort_perm (l : list (nat * Float)) : Graph.Arrays_sort l ≡ₚ l.
Proof.
  induction l as [|x l IH]; simpl; [done|].
  unfold Graph.Arrays_sort in *. simpl. by rewrite sort_insert_perm, IH.
Qed.

Lemma sort_insert_sorted (x : nat * Float) l :
  Sorted (fun p q => Fle p.2 q.2) l ->
  Sorted (fun p q => Fle p.2 q.2) (Graph.sort_insert x l).
Proof.
  induction 1 as [|y l Hs IH Hhd]; simpl.
  - repeat constructor.
  - destruct (Fcompare x.2 y.2) eqn:Hc.
    + constructor; [by constructor|]. constructor. unfold Fle. congruence.
    + constructor; [by constructor|]. constructor. unfold Fle. congruence.
    + constructor; [exact IH|].
      destruct Hhd as [|z l Hyz]; simpl.
      * constructor. by apply Fcompare_asym.
      * destruct (Fcompare x.2 z.2); constructor; try done;
          by apply Fcompare_asym.
Qed.

Lemma Arrays_sort_sorted (l : list (nat * Float)) :
  Sorted (fun p q => Fle p.2 q.2) (Graph.Arrays_sort l).
Proof.
  induction l as [|x l IH]; [constructor|].
  unfold Graph.Arrays_sort in *. simpl. by apply sort_insert_sorted.
Qed.

Lemma Sorted_fmap_snd (l : list (nat * Float)) :
  Sorted (fun p q => Fle p.2 q.2) l -> Sorted Fle (snd <$> l).
Proof.
  induction 1 as [|y l Hs IH Hhd]; simpl; constructor; [done|].
  destruct Hhd; simpl; by constructor.
Qed.

(** [gather] copies the entries the indexes name. *)
Lemma gather_spec {A : Type} (l : list A) (idx : list nat) (ys : list A) :
  Forall2 (fun i y => l !! i = Some y) idx ys -> Graph.gather l idx = Ok ys.
Proof.
  induction 1 as [|i y idx ys Hi _ IH]; simpl; [done|].
  unfold list_get. by rewrite Hi, IH.
Qed.

Lemma gather_total {A : Type} `{Inhabited A} (l : list A) (idx : list nat) :
  Forall (fun i => (i < length l)%nat) idx ->
  Graph.gather l idx = Ok ((fun i => l !!! i) <$> idx).
Proof.
  intros Hall. apply gather_spec. induction Hall as [|i idx Hi _ IH]; simpl.
  - constructor.
  - constructor; [|exact IH]. by apply list_lookup_lookup_total_lt.
Qed.

(** The indexes zipped with their weights, mapped back to the entries. *)
Lemma decorated_entries (src : list Integer) (wts : list Float) :
  length wts = length src ->
  (fun p : nat * Float => (src !!! p.1, p.2)) <$> zip (seq 0 (length src)) wts
  = zip src wts.
Proof.
  intros Hlen. apply list_eq. intros i.
  rewrite list_lookup_fmap, !lookup_zip_with.
  destruct (decide (i < length src)%nat) as [Hlt|Hge].
  - rewrite lookup_seq_lt by done. simpl.
    destruct (lookup_lt_is_Some_2 src i Hlt) as [s Hs].
    destruct (lookup_lt_is_Some_2 wts i ltac:(lia)) as [x Hx].
    rewrite Hs, Hx. simpl. by rewrite (list_lookup_total_correct _ _ _ Hs).
  - rewrite lookup_seq_ge by lia. simpl.
    by rewrite (lookup_ge_None_2 src i) by lia.
Qed.

(** One turn of [sortEdges] on lists of one length: the weights come out
    in order and every neighbour keeps its weight. *)
Lemma sort_node_spec (src : list Integer) (wts : list Float) :
  length wts = length src ->
  exists src' wts',
    Graph.sort_node src (Some wts) = Ok (src', wts')
    /\ length wts' = length src'
    /\ Sorted Fle wts'
    /\ zip src' wts' ≡ₚ zip src wts.
Proof.
  intros Hlen. unfold Graph.sort_node. simpl.
  replace (length src <=? length wts)%nat with true
    by (symmetry; apply Nat.leb_le; lia).
  rewrite take_ge by lia.
  set (dec := zip (seq 0 (length src)) wts).
  set (sp := Graph.Arrays_sort dec).
  pose proof (Arrays_sort_perm dec) as Hperm. fold sp in Hperm.
  assert (Hdec : Forall (fun p : nat * Float =>
                           (p.1 < length src)%nat /\ wts !! p.1 = Some p.2) dec).
  { apply Forall_forall. intros [i x] Hin.
    apply list_elem_of_lookup in Hin as [k Hk].
    apply lookup_zip_with_Some in Hk as (i' & x' & [= -> ->] & Hi & Hx).
    apply lookup_seq in Hi as [-> Hi]. simpl. done. }
  assert (Hsp : Forall (fun p : nat * Float =>
                          (p.1 < length src)%nat /\ wts !! p.1 = Some p.2) sp).
  { by rewrite Hperm. }
  rewrite (gather_total src (sp.*1)).
  2:{ apply Forall_fmap. eapply Forall_impl; [exact Hsp|]. by intros p [? _]. }
  rewrite (gather_total wts (sp.*1)).
  2:{ apply Forall_fmap. eapply Forall_impl; [exact Hsp|].
      intros p [? _]. simpl. lia. }
  simpl.
  assert (Hw : (fun i => wts !!! i) <$> sp.*1 = sp.*2).
  { rewrite <- list_fmap_compose. apply list_fmap_ext.
    intros k p Hp. simpl.
    eapply Forall_lookup_1 in Hsp as [_ Hx]; [|exact Hp].
    by apply list_lookup_total_correct. }
  eexists _, _. split; [reflexivity|]. split; [by rewrite !length_fmap|].
  split.
  - rewrite Hw. apply Sorted_fmap_snd, Arrays_sort_sorted.
  - rewrite Hw, <- list_fmap_compose.
    rewrite zip_with_fmap_l, zip_with_fmap_r, zip_with_diag.
    rewrite <- (decorated_entries src wts Hlen). fold dec.
    rewrite <- Hperm. reflexivity.
Qed.

Lemma sortEdges_loop_spec :
  forall cnt node g,
  (forall v, Graph.tandem g v) ->
  exists g',
    Graph.sortEdges_loop cnt node g = Ok g'
    /\ (forall v, node <= v < node + Z.of_nat cnt ->
          Sorted Fle (Graph.w g' v)
          /\ Graph.pairs g' v ≡ₚ Graph.pairs g v
          /\ length (Graph.w g' v) = length (Graph.adj g' v))
    /\ (forall v, ~ (node <= v < node + Z.of_nat cnt) ->
          Graph.edgeSources g' !! v = Graph.edgeSources g !! v
          /\ Graph.edgeWeights g' !! v = Graph.edgeWeights g !! v).
Proof.
  induction cnt as [|cnt IH]; intros node g Htan; simpl Graph.sortEdges_loop.
  - exists g. split; [done|]. split; [intros v Hv; lia|done].
  - pose proof (Htan node) as Hnode. unfold Graph.tandem in Hnode.
    destruct (Graph.edgeSources g !! node) as [src|] eqn:Hsrc.
    + destruct (Graph.edgeWeights g !! node) as [wts|] eqn:Hwts; [|done].
      destruct (sort_node_spec src wts Hnode)
        as (src' & wts' & Hrun & Hlen' & Hsorted & Hperm).
      rewrite Hrun. simpl.
      set (g1 := Graph.mk _ _ _ _ _ _ _).
      assert (Htan1 : forall v, Graph.tandem g1 v).
      { intros v. unfold Graph.tandem, g1. simpl.
        destruct (decide (v = node)) as [->|Hne].
        - by rewrite !lookup_insert_eq.
        - rewrite !lookup_insert_ne by done. apply Htan. }
      destruct (IH (node + 1) g1 Htan1) as (g' & Hloop & Hin & Hout).
      exists g'. split; [exact Hloop|]. split.
      * intros v Hv. destruct (decide (v = node)) as [->|Hne].
        -- destruct (Hout node ltac:(lia)) as [Hs Hw].
           unfold Graph.pairs, Graph.w, Graph.adj. rewrite Hs, Hw, Hsrc, Hwts.
           unfold g1. simpl. rewrite !lookup_insert_eq.
           split; [done|]. split; [|by rewrite length_fmap].
           rewrite !zip_with_fmap_l. rewrite (zip_with_zip _ src' wts').
           rewrite (zip_with_zip _ src wts).
           by apply fmap_Permutation.
        -- destruct (Hin v ltac:(lia)) as (? & Hp & ?).
           split; [done|]. split; [|done]. rewrite Hp.
           unfold Graph.pairs, Graph.adj, Graph.w, g1. simpl.
           by rewrite !lookup_insert_ne.
      * intros v Hv. destruct (Hout v ltac:(lia)) as [Hs Hw].
        rewrite Hs, Hw. unfold g1. simpl.
        by rewrite !lookup_insert_ne by lia.
    + destruct (Graph.edgeWeights g !! node) as [wts|] eqn:Hwts; [done|].
      destruct (IH (node + 1) g Htan) as (g' & Hloop & Hin & Hout).
      exists g'. split; [exact Hloop|]. split.
      * intros v Hv. destruct (decide (v = node)) as [->|Hne].
        -- destruct (Hout node ltac:(lia)) as [Hs Hw].
           unfold Graph.pairs, Graph.w, Graph.adj. rewrite Hs, Hw, Hsrc, Hwts.
           split; [constructor|done].
        -- apply Hin. lia.
      * intros v Hv. apply Hout. lia.
Qed.

Lemma wf_tandem g v : Graph.wf g -> Graph.tandem g v.
Proof.
  intros [Hok _]. specialize (Hok v). unfold Graph.node_ok in Hok.
  unfold Graph.tandem.
  destruct (Graph.edgeSources g !! v), (Graph.edgeWeights g !! v),
    (Graph.edgeSourceSet g !! v); try done. tauto.
Qed.

(** C8. On a built graph [sortEdges] returns, and afterwards the weight
    sequence [w(v)] of every node is non-decreasing in the order of
    [Float.compare], the comparator the code sorts with; [adj(v)] is
    reordered in Graph.tandem: the pairs (neighbour, weight) at [v] are a
    permutation of the pairs before, so each neighbour keeps its weight. *)
Theorem sortEdges_sorted g :
  Graph.built g ->
  exists g',
    Graph.sortEdges g = Ok g'
    /\ forall v,
         Sorted Fle (Graph.w g' v)
         /\ Graph.pairs g' v ≡ₚ Graph.pairs g v
         /\ length (Graph.w g' v) = length (Graph.adj g' v).
Proof.
  intros Hb. pose proof (built_wf g Hb) as Hwf.
  destruct (sortEdges_loop_spec (Z.to_nat (Graph.size g)) 0 g
              (fun v => wf_tandem g v Hwf)) as (g' & Hrun & Hin & Hout).
  exists g'. split; [exact Hrun|]. intros v.
  destruct (decide (0 <= v < 0 + Z.of_nat (Z.to_nat (Graph.size g))))
    as [Hv|Hv]; [by apply Hin|].
  destruct (Hout v Hv) as [Hs Hw].
  assert (Hnone : Graph.edgeSources g !! v = None
                  /\ Graph.edgeWeights g !! v = None).
  { destruct Hwf as [Hok _]. specialize (Hok v). unfold Graph.node_ok in Hok.
    destruct (Graph.edgeSources g !! v), (Graph.edgeWeights g !! v),
      (Graph.edgeSourceSet g !! v); try done.
    exfalso. apply Hv. lia. }
  destruct Hnone as [Hns Hnw].
  unfold Graph.pairs, Graph.w, Graph.adj. rewrite Hs, Hw, Hns, Hnw.
  split; [constructor|done].
Qed.

End SortEdges.

(** ** [chineseWhispers]: the number of sweeps *)

Section ChineseWhispersReturns.
Context {Float : Type} `{FloatOps Float} `{Runtime}.
Implicit Types g : Graph.t Float.
Variable shuffle : nat -> list Integer -> list Integer.
Variable keyOrder :
  list (option Integer * Float) -> list (option Integer * Float).
Hypothesis shuffle_perm : forall z l, shuffle z l ≡ₚ l.

Lemma wf_sweepable g : Graph.wf g -> Graph.sweepable g.
Proof.
  intros Hwf v Hv. pose proof Hwf as [Hok Hsym].
  destruct (node_ok_in_nodes _ _ (Hok v) Hv) as [src Hsrc].
  destruct (node_ok_present _ _ _ (Hok v) Hsrc)
    as (wts & set & Hw & _ & _ & Hrange & Hlen & _ & _).
  split; [done|]. exists src, wts. repeat split; try done.
  apply Forall_forall. intros x Hx.
  assert (Hadj : intValue x ∈ Graph.adj g v).
  { unfold Graph.adj. rewrite Hsrc. by apply list_elem_of_fmap_2. }
  destruct (adj_pairs _ _ _ (Hok v) Hadj) as [y Hy].
  apply Hsym, pairs_adj in Hy. unfold Graph.adj in Hy.
  destruct (Graph.edgeSources g !! intValue x) as [src'|] eqn:Hsrc';
    [|by apply elem_of_nil in Hy].
  destruct (node_ok_present _ _ _ (Hok _) Hsrc')
    as (_ & _ & _ & _ & _ & Hr & _). lia.
Qed.

Lemma setNodeClass_ok node c g :
  0 <= intValue node < Graph.size g ->
  exists g', Graph.setNodeClass node c g = Ok g'
             /\ Graph.size g' = Graph.size g
             /\ Graph.nodes g' = Graph.nodes g
             /\ Graph.edgeSources g' = Graph.edgeSources g
             /\ Graph.edgeWeights g' = Graph.edgeWeights g.
Proof.
  intros Hr. unfold Graph.setNodeClass.
  replace (intValue node <? Graph.size g) with true
    by (symmetry; apply Z.ltb_lt; lia).
  replace (0 <=? intValue node) with true by (symmetry; apply Z.leb_le; lia).
  eexists. split; [reflexivity|]. done.
Qed.

Lemma sweepable_ext g g' :
  Graph.size g' = Graph.size g -> Graph.nodes g' = Graph.nodes g ->
  Graph.edgeSources g' = Graph.edgeSources g ->
  Graph.edgeWeights g' = Graph.edgeWeights g ->
  Graph.sweepable g -> Graph.sweepable g'.
Proof. intros Hs Hn He Hw Hg v. rewrite Hs, Hn, He, Hw. apply Hg. Qed.

Lemma getNodeClass_ok node g :
  0 <= intValue node -> exists c, Graph.getNodeClass node g = Ok c.
Proof.
  intros Hr. unfold Graph.getNodeClass, aload.
  destruct (intValue node <? Graph.size g) eqn:Hlt; [|eauto].
  replace (0 <=? intValue node) with true by (symmetry; apply Z.leb_le; lia).
  simpl. eauto.
Qed.

Lemma getEdges_loop_ok src (wts : list Float) :
  forall i, (i + length src <= length wts)%nat ->
  exists es, Graph.getEdges_loop src i (Some wts) = Ok es
             /\ es.*1 = src.
Proof.
  induction src as [|s src IH]; intros i Hi; simpl; [eauto|].
  destruct (lookup_lt_is_Some_2 wts i ltac:(simpl in Hi; lia)) as [x Hx].
  unfold list_get. rewrite Hx. simpl.
  destruct (IH (S i) ltac:(simpl in Hi; lia)) as (es & -> & Hes).
  simpl. eexists. split; [reflexivity|]. rewrite fmap_cons. simpl. by f_equal.
Qed.

Lemma getEdges_ok node g :
  Graph.sweepable g -> intValue node ∈ Graph.nodes g ->
  exists es, Graph.getEdges node g = Ok es
             /\ Forall (fun e => 0 <= intValue e.1) es.
Proof.
  intros Hg Hin. destruct (Hg _ Hin) as (Hr & src & wts & Hs & Hw & Hlen & Hpos).
  unfold Graph.getEdges, aload.
  replace ((0 <=? intValue node) && (intValue node <? Graph.size g))
    with true by (symmetry; apply andb_true_iff; lia).
  simpl. rewrite Hs, Hw.
  destruct (getEdges_loop_ok src wts 0 ltac:(lia)) as (es & Hrun & Hes).
  exists es. split; [exact Hrun|].
  rewrite Forall_forall in Hpos. apply Forall_forall. intros e He.
  apply Hpos. rewrite <- Hes. by apply (list_elem_of_fmap_2 fst).
Qed.

Lemma sum_classes_ok g (neighbors : list (Integer * Float)) :
  Forall (fun e => 0 <= intValue e.1) neighbors ->
  forall classes, exists classes',
    WSI.sum_classes neighbors g classes = Ok classes'.
Proof.
  induction 1 as [|[n w] rest Hn _ IH]; intros classes; simpl; [eauto|].
  destruct (getNodeClass_ok n g Hn) as [c ->]. simpl. apply IH.
Qed.

Lemma sweep_ok (nodes : list Integer) :
  forall g changed,
  Graph.sweepable g -> Forall (fun n => intValue n ∈ Graph.nodes g) nodes ->
  exists g' changed',
    WSI.sweep keyOrder nodes g changed = Ok (g', changed')
    /\ Graph.sweepable g' /\ Graph.nodes g' = Graph.nodes g
    /\ Graph.size g' = Graph.size g.
Proof.
  induction nodes as [|node rest IH]; intros g changed Hg Hall; simpl.
  - eauto 10.
  - apply Forall_cons in Hall as [Hnode Hrest].
    destruct (getEdges_ok node g Hg Hnode) as (es & -> & Hes). simpl.
    destruct (sum_classes_ok g es Hes []) as [classes ->]. simpl.
    destruct (Hg _ Hnode) as (Hr & _).
    destruct (getNodeClass_ok node g ltac:(lia)) as [c ->]. simpl.
    destruct (negb _).
    + destruct (setNodeClass_ok node
                  (WSI.max_class (keyOrder classes) Fminus10000
                     (Some (mkInteger None 0))) g Hr)
        as (g1 & -> & Hs & Hn & He & Hw). simpl.
      destruct (IH g1 true (sweepable_ext _ _ Hs Hn He Hw Hg)
                  ltac:(by rewrite Hn))
        as (g' & changed' & Hrun & Hg' & Hn' & Hs').
      exists g', changed'. rewrite Hrun, Hn', Hs', Hn, Hs. done.
    + apply IH; done.
Qed.

Lemma getNodes_loop_present g :
  forall cnt node heap,
  Forall (fun n => intValue n ∈ Graph.nodes g)
    (fst (Graph.getNodes_loop cnt node g heap)).
Proof.
  induction cnt as [|cnt IH]; intros node heap; simpl; [constructor|].
  destruct (decide (node ∈ Graph.nodes g)) as [Hin|Hnin]; [|apply IH].
  pose proof (valueOf_intValue heap node) as Hv.
  destruct (valueOf heap node) as [boxed heap1]. simpl in Hv.
  specialize (IH (node + 1) heap1).
  destruct (Graph.getNodes_loop cnt (node + 1) g heap1) as [rest heap2].
  simpl in *. constructor; [by rewrite Hv|done].
Qed.

Lemma init_classes_ok (n : list Integer) :
  forall i heap g,
  Graph.sweepable g -> Forall (fun x => intValue x ∈ Graph.nodes g) n ->
  exists g' heap',
    WSI.init_classes n i heap g = Ok (g', heap') /\ Graph.sweepable g'.
Proof.
  induction n as [|node rest IH]; intros i heap g Hg Hall; simpl; [eauto|].
  apply Forall_cons in Hall as [Hnode Hrest].
  destruct (valueOf heap i) as [c heap1].
  destruct (Hg _ Hnode) as (Hr & _).
  destruct (setNodeClass_ok node (Some c) g Hr)
    as (g1 & -> & Hs & Hn & He & Hw). simpl.
  apply IH; [by eapply sweepable_ext|by rewrite Hn].
Qed.

Lemma cw_loop_ok :
  forall cnt z changed g heap,
  Graph.sweepable g ->
  exists out, snd (WSI.cw_loop shuffle keyOrder cnt z changed g heap) = Ok out.
Proof.
  induction cnt as [|cnt IH]; intros z changed g heap Hg; simpl; [eauto|].
  destruct changed; simpl; [|eauto].
  pose proof (getNodes_loop_present g (Z.to_nat (Graph.size g)) 0 heap) as Hp.
  unfold Graph.getNodes.
  destruct (Graph.getNodes_loop _ 0 g heap) as [nodes heap1]. simpl in Hp.
  destruct (sweep_ok (shuffle z nodes) g false Hg
              ltac:(by rewrite shuffle_perm))
    as (g1 & changed1 & -> & Hg1 & _).
  specialize (IH (S z) changed1 g1 heap1 Hg1).
  destruct (WSI.cw_loop shuffle keyOrder cnt (S z) changed1 g1 heap1).
  exact IH.
Qed.

Lemma chineseWhispers_returns maxIterations g heap :
  Graph.built g ->
  exists out,
    snd (WSI.chineseWhispers maxIterations shuffle keyOrder g heap) = Ok out.
Proof.
  intros Hb. apply built_wf, wf_sweepable in Hb.
  unfold WSI.chineseWhispers, Graph.getNodes.
  pose proof (getNodes_loop_present g (Z.to_nat (Graph.size g)) 0 heap) as Hp.
  destruct (Graph.getNodes_loop _ 0 g heap) as [n heap1]. simpl in Hp.
  destruct (init_classes_ok n 1 heap1 g Hb Hp) as (g1 & heap2 & -> & Hg1).
  by apply cw_loop_ok.
Qed.

End ChineseWhispersReturns.

Section ChineseWhispers.
Context {Float : Type} `{FloatOps Float} `{Runtime}.
Variable maxIterations : Z.
Variable shuffle : nat -> list Integer -> list Integer.
Variable keyOrder :
  list (option Integer * Float) -> list (option Integer * Float).

Lemma cw_loop_unchanged cnt z (g : Graph.t Float) heap :
  WSI.cw_loop shuffle keyOrder cnt z false g heap = ([], Ok (g, heap)).
Proof. destruct cnt; reflexivity. Qed.

Lemma cw_loop_sweeps :
  forall cnt z changed (g : Graph.t Float) heap,
  let sweeps := fst (WSI.cw_loop shuffle keyOrder cnt z changed g heap) in
  (length sweeps <= cnt)%nat
  /\ (forall i, (S i < length sweeps)%nat -> sweeps !! i = Some true).
Proof.
  induction cnt as [|cnt IH]; intros z changed g heap; cbn [WSI.cw_loop].
  - simpl. split; [lia | intros i Hi; simpl in Hi; lia].
  - destruct changed; cbn [negb];
      [|simpl; split; [lia | intros i Hi; simpl in Hi; lia]].
    destruct (Graph.getNodes g heap) as [nodes heap1].
    destruct (WSI.sweep keyOrder (shuffle z nodes) g false)
      as [[g1 changed1]|e];
      [|simpl; split; [lia | intros i Hi; simpl in Hi; lia]].
    destruct changed1.
    + specialize (IH (S z) true g1 heap1).
      destruct (WSI.cw_loop shuffle keyOrder cnt (S z) true g1 heap1)
        as [sweeps out].
      cbn [fst] in *. destruct IH as [IHlen IHtrue]. split.
      * simpl. lia.
      * intros [|i] Hi; [reflexivity|]. simpl in Hi. simpl. apply IHtrue. lia.
    + rewrite cw_loop_unchanged. simpl. split; [lia|].
      intros i Hi. lia.
Qed.

(** C10. Whatever the ego network, its edges and weights, the shuffles and
    the iteration order of the hash map, the propagation loop of
    [chineseWhispers] runs at most [maxIterations] sweeps over the node
    list, and a sweep that changed no label is the last one: every sweep
    before the last changed a label. The model is a total function, so the
    loop ends; on an ego network built with [addEdge], shuffled by
    permutations, it ends normally, with no exception. *)
Theorem chineseWhispers_sweeps (tokenNetwork : Graph.t Float) heap :
  0 <= maxIterations ->
  let sweeps := fst (WSI.chineseWhispers maxIterations shuffle keyOrder
                       tokenNetwork heap) in
  Z.of_nat (length sweeps) <= maxIterations
  /\ (forall i, (S i < length sweeps)%nat -> sweeps !! i = Some true)
  /\ (Graph.built tokenNetwork -> (forall z l, shuffle z l ≡ₚ l) ->
      exists out,
        snd (WSI.chineseWhispers maxIterations shuffle keyOrder
               tokenNetwork heap) = Ok out).
Proof.
  intros Hmax.
  enough (Hsweeps :
    Z.of_nat (length (fst (WSI.chineseWhispers maxIterations shuffle keyOrder
                             tokenNetwork heap))) <= maxIterations
    /\ (forall i,
          (S i < length (fst (WSI.chineseWhispers maxIterations shuffle
                                keyOrder tokenNetwork heap)))%nat ->
          fst (WSI.chineseWhispers maxIterations shuffle keyOrder
                 tokenNetwork heap) !! i = Some true)).
  { destruct Hsweeps as [Hlen Htrue]. split; [exact Hlen|].
    split; [exact Htrue|]. intros Hb Hperm.
    by apply chineseWhispers_returns. }
  unfold WSI.chineseWhispers.
  destruct (Graph.getNodes tokenNetwork heap) as [n heap1].
  destruct (WSI.init_classes n 1 heap1 tokenNetwork) as [[g heap2]|e].
  - pose proof (cw_loop_sweeps (Z.to_nat maxIterations) 0 true g heap2)
      as [Hlen Htrue].
    split; [lia | exact Htrue].
  - simpl. split; [lia | intros i Hi; simpl in Hi; lia].
Qed.

End ChineseWhispers.

(** ** Concrete scenarios *)

Section Scenarios.
#[local] Existing Instance vm.

Lemma g12_built : Graph.built g12.
Proof.
  eapply Graph.built_addEdge with (g := Graph.new_default)
    (from := box 1) (to := box 2) (weight := (1 # 2)%Q).
  - apply (Graph.built_new 10 10). reflexivity.
  - vm_compute. reflexivity.
Defined.

Lemma g123_built : Graph.built g123.
Proof.
  eapply Graph.built_addEdge with (g := g12)
    (from := box 3) (to := box 2) (weight := (1 # 4)%Q).
  - exact g12_built.
  - vm_compute. reflexivity.
Defined.

Lemma g12_old_built : Graph.built g12_old.
Proof.
  eapply Graph.built_addEdge with (g := Graph.new_default)
    (from := box 1) (to := box 2) (weight := (3 # 10)%Q).
  - apply (Graph.built_new 10 10). reflexivity.
  - vm_compute. reflexivity.
Defined.

(** S1 on the code: the two entries in front are 0 and 3, the indexes of
    the two largest scores. *)
Example S1_run :
  argpartition [0; 1; 2; 3; 4] S1_score 2 5 = Ok [0; 3; 2; 4; 1].
Proof. vm_compute. reflexivity. Qed.

(** C1 fails on the code: on S1 the front of the buffer is not a
    permutation of [{1, 4}], and the scores in front are larger, not
    smaller, than those behind. *)
Lemma argpartition_smallest_counterexample :
  exists nearest',
    argpartition [0; 1; 2; 3; 4] S1_score 2 5 = Ok nearest'
    /\ ~ (take 2 nearest' ≡ₚ [1; 4])
    /\ ~ (forall i j, (i < 2)%nat -> (2 <= j < 5)%nat ->
            REAL_leb (score_at S1_score nearest' i)
              (score_at S1_score nearest' j) = true).
Proof.
  exists [0; 3; 2; 4; 1]. split; [vm_compute; reflexivity|]. split.
  - simpl. intros Hperm.
    assert (Hin : 0 ∈ [1; 4]) by (rewrite <- Hperm; apply list_elem_of_here).
    repeat (apply elem_of_cons in Hin as [Hin|Hin]; [discriminate|]).
    by apply elem_of_nil in Hin.
  - intros Hall. specialize (Hall 0%nat 2%nat ltac:(lia) ltac:(lia)).
    vm_compute in Hall. discriminate.
Qed.

(** C2 on the code. Token 1 of three ([n = 1]) finds itself first among its
    [n + 1] nearest; the store for that entry goes to slot [1 * n - 1 = 0],
    the slot of token 0, and writes the edge [(1, 1, 1.0)] there; for
    token 0 the same store falls before the array. *)
Theorem emission_overwrites_previous_token :
  rmap edges (process_row 1 0 S3x3 [0; 1; 2] 3 1 3 bufs0)
    = Ok [mkGraphEdge 1 1 1; mkGraphEdge 1 0 (1 # 2); mkGraphEdge 0 0 0]
  /\ rmap edges (process_row 0 0 S3x3 [0; 1; 2] 3 1 3 bufs0)
      = Err OutOfBounds.
Proof. split; vm_compute; reflexivity. Qed.

(** C3 fails on the code: the only cluster of this run, the first one
    published, has sense id 0. *)
Lemma sense_ids_counterexample :
  rmap (fmap (fun c => intValue (Cluster.sense c)))
    (run_node 100 1 (box 0) g123 g123) = Ok [0]
  /\ [0] <> [1].
Proof. split; [vm_compute; reflexivity | discriminate]. Qed.

(** C4 on the code: the record [(200, 200, 1.0)] of an edge file is stored
    as a self-loop, the two boxed 200s being different objects; the same
    record with node 100 is dropped. *)
Theorem self_loop_stored :
  rmap (fun r => Graph.adj (fst r) 200)
    (WSI.loadDistributedGraph [(200, 200, 1%Q)] 0) = Ok [200]
  /\ rmap (fun r => Graph.adj (fst r) 100)
      (WSI.loadDistributedGraph [(100, 100, 1%Q)] 0) = Ok [].
Proof. split; vm_compute; reflexivity. Qed.

(** [sortEdges] on the ego network with [w(2) = [0.5, 0.25]]. *)
Example sortEdges_run :
  rmap (fun g => (Graph.adj g 2, Graph.w g 2)) (Graph.sortEdges g123)
  = Ok ([3; 1], [1 # 4; 1 # 2]%Q).
Proof. vm_compute. reflexivity. Qed.

(** S3 on the code. *)
Example S3_run :
  rmap (fun g => (Graph.getEdgeWeight (box 1) (box 2) g, Graph.adj g 1))
    (Graph.addEdge (box 1) (box 2) (9 # 10)%Q g12)
  = Ok (Ok (1 # 2)%Q, [2]).
Proof. vm_compute. reflexivity. Qed.

(** C6 fails on the code as it is stated, for every graph: where the edge
    is there already, two more insertions leave its weight, which is not
    [w1]. *)
Lemma first_writer_counterexample :
  ~ (forall (g g1 g2 : Graph.t Q) (u v : Integer) (w1 w2 : Q),
       Graph.built g -> intValue u <> intValue v ->
       Graph.addEdge u v w1 g = Ok g1 ->
       Graph.addEdge u v w2 g1 = Ok g2 ->
       Graph.getEdgeWeight u v g2 = Ok w1).
Proof.
  intros Hall.
  specialize (Hall g12_old g12_old g12_old (box 1) (box 2)
                (1 # 2)%Q (9 # 10)%Q g12_old_built).
  assert (Hw : Graph.getEdgeWeight (box 1) (box 2) g12_old = Ok (1 # 2)%Q).
  { apply Hall; [discriminate | vm_compute; reflexivity..]. }
  vm_compute in Hw. discriminate.
Qed.

(** C7 on the code: [getEdgeWeight] on a node that was never added ends in
    a [NullPointerException], or in an [ArrayIndexOutOfBoundsException]
    beyond the arrays; so does [getNeighbors] beyond the arrays. Within the
    arrays [getNeighbors] returns the empty list. *)
Theorem absent_node_faults :
  Graph.getEdgeWeight (box 3) (box 4) (Graph.new_default (Float := Q))
    = Err NullPointerException
  /\ Graph.getEdgeWeight (box 3) (box 1) g12 = Err NullPointerException
  /\ Graph.getEdgeWeight (box 10) (box 1) g12
      = Err ArrayIndexOutOfBoundsException
  /\ Graph.getNeighbors (box 10) g12 = Err ArrayIndexOutOfBoundsException
  /\ Graph.getNeighbors (box 3) g12 = Ok [].
Proof. repeat split; vm_compute; reflexivity. Qed.

(** The ego network of the hub, labelled by [chineseWhispers], gives the two
    clusters [{1, 2}] and [{3, 4}]. *)
Lemma findClusters_sense_ids_witness :
  (forall l : list Integer, id l ≡ₚ l)
  /\ Graph.size (fst hub_labelled) <= INT_MAX
  /\ member_ids
       <$> fst (WSI.findClusters hub 1 id (box 0) (fst hub_labelled)
                  (snd hub_labelled))
     = [[1; 2]; [3; 4]]
  /\ (fun c => intValue (Cluster.sense c))
       <$> fst (WSI.findClusters hub 1 id (box 0) (fst hub_labelled)
                  (snd hub_labelled))
     = seqZ 0 (Z.of_nat (length
         (fst (WSI.findClusters hub 1 id (box 0) (fst hub_labelled)
                 (snd hub_labelled))))).
Proof.
  split; [reflexivity|]. split; [vm_compute; discriminate|].
  split; [vm_compute; reflexivity|].
  apply (findClusters_sense_ids hub 1 id (box 0) (fst hub_labelled)
           (snd hub_labelled)).
  - reflexivity.
  - vm_compute. discriminate.
Defined.

Lemma chineseWhispers_sweeps_witness :
  0 <= 100
  /\ Z.of_nat (length (fst (WSI.chineseWhispers 100 (fun _ l => l)
                              (fun l => l) g123 0))) <= 100.
Proof.
  split; [lia|].
  apply (chineseWhispers_sweeps 100 (fun _ l => l) (fun l => l) g123 0
           ltac:(lia)).
Defined.

Lemma built_graph_symmetric_witness :
  Graph.built g12
  /\ (2 ∈ Graph.adj g12 1 <-> 1 ∈ Graph.adj g12 2)
  /\ (2 ∈ Graph.adj g12 1 ->
      exists x, Graph.getEdgeWeight (box 1) (box 2) g12 = Ok x
                /\ Graph.getEdgeWeight (box 2) (box 1) g12 = Ok x).
Proof.
  split; [exact g12_built|].
  pose proof (built_graph_symmetric g12 (box 1) (box 2) g12_built)
    as (Hiff & Hweight & _).
  split; [exact Hiff | exact Hweight].
Defined.

Lemma addEdge_twice_witness :
  Graph.built (Graph.new_default (Float := Q))
  /\ 1 <> 2
  /\ Graph.addEdge (box 1) (box 2) (1 # 2)%Q Graph.new_default = Ok g12
  /\ Graph.addEdge (box 1) (box 2) (9 # 10)%Q g12 = Ok g12
  /\ count_occ Z.eq_dec (Graph.adj g12 1) 2 = 1%nat
  /\ (2 ∉ Graph.adj (Graph.new_default (Float := Q)) 1 ->
      Graph.getEdgeWeight (box 1) (box 2) g12 = Ok (1 # 2)%Q).
Proof.
  assert (Hb : Graph.built (Graph.new_default (Float := Q)))
    by (apply (Graph.built_new 10 10); reflexivity).
  assert (Hadd : Graph.addEdge (box 1) (box 2) (1 # 2)%Q Graph.new_default
                 = Ok g12) by (vm_compute; reflexivity).
  split; [exact Hb|]. split; [lia|]. split; [exact Hadd|].
  pose proof (addEdge_twice Graph.new_default g12 (box 1) (box 2)
                (1 # 2)%Q (9 # 10)%Q Hb ltac:(simpl; lia) Hadd)
    as (Hsecond & Hcount & Hnew & _).
  split; [exact Hsecond|]. split; [exact Hcount | exact Hnew].
Defined.

Lemma Qcompare_asym (a b : Q) : Fcompare a b = Gt -> Fcompare b a <> Gt.
Proof.
  simpl. intros Hab. rewrite <- Qcompare_antisym, Hab. discriminate.
Qed.

(** In [g123] node 2 has the neighbours [1; 3] with the weights
    [0.5; 0.25]: the sort reorders them. *)
Lemma sortEdges_sorted_witness :
  (forall a b : Q, Fcompare a b = Gt -> Fcompare b a <> Gt)
  /\ Graph.built g123
  /\ Graph.pairs g123 2 = [(1, (1 # 2)%Q); (3, (1 # 4)%Q)]
  /\ exists g',
       Graph.sortEdges g123 = Ok g'
       /\ forall v,
            Sorted Fle (Graph.w g' v)
            /\ Graph.pairs g' v ≡ₚ Graph.pairs g123 v
            /\ length (Graph.w g' v) = length (Graph.adj g' v).
Proof.
  split; [exact Qcompare_asym|]. split; [exact g123_built|].
  split; [vm_compute; reflexivity|].
  apply (sortEdges_sorted Qcompare_asym g123 g123_built).
Defined.

Lemma argpartition_largest_first_witness :
  valid S1_score [0; 1; 2; 3; 4]
  /\ no_nan S1_score [0; 1; 2; 3; 4]
  /\ Z.of_nat (length [0; 1; 2; 3; 4]) <= 2 ^ 30
  /\ 0 <= 2
  /\ exists nearest',
       argpartition [0; 1; 2; 3; 4] S1_score 2 5 = Ok nearest'
       /\ nearest' ≡ₚ [0; 1; 2; 3; 4]
       /\ forall i j : nat,
            Z.of_nat i < 2 -> 2 <= Z.of_nat j -> (j < 5)%nat ->
            REAL_leb (score_at S1_score nearest' j)
              (score_at S1_score nearest' i) = true.
Proof.
  assert (Hv : valid S1_score [0; 1; 2; 3; 4])
    by (repeat constructor; simpl; lia).
  assert (Hn : no_nan S1_score [0; 1; 2; 3; 4])
    by (repeat constructor; discriminate).
  split; [exact Hv|]. split; [exact Hn|]. split; [simpl; lia|].
  split; [lia|].
  apply (argpartition_largest_first S1_score [0; 1; 2; 3; 4] 2 Hv Hn
           ltac:(simpl; lia) ltac:(lia)).
Defined.

End Scenarios.

(** * Further properties *)

(** ** [LEDataInputStream] *)

Section Stream.
Import LEDataInputStream.

Lemma narrow_small bits x :
  0 < bits -> - 2 ^ (bits - 1) <= x < 2 ^ (bits - 1) -> narrow bits x = x.
Proof.
  intros Hb Hx. unfold narrow.
  assert (Hp : 2 ^ bits = 2 * 2 ^ (bits - 1)).
  { rewrite <- Z.pow_succ_r by lia. f_equal. lia. }
  rewrite Z.mod_small; lia.
Qed.

Lemma narrow_mod bits x :
  0 < bits -> narrow bits x mod 2 ^ bits = x mod 2 ^ bits.
Proof.
  intros Hb. unfold narrow.
  assert (Hp : 2 ^ bits = 2 * 2 ^ (bits - 1)).
  { rewrite <- Z.pow_succ_r by lia. f_equal. lia. }
  assert (Hpos : 0 < 2 ^ (bits - 1)) by (apply Z.pow_pos_nonneg; lia).
  rewrite Zminus_mod, Zmod_mod, <- Zminus_mod. f_equal. lia.
Qed.

Lemma wrap32_narrow x : wrap32 x = narrow 32 x.
Proof. reflexivity. Qed.

(** [|] of a shifted value and a value below the shift is their sum. *)
Lemma lor_shiftl_low hi lo n :
  0 <= n -> 0 <= lo < 2 ^ n -> Z.lor (Z.shiftl hi n) lo = hi * 2 ^ n + lo.
Proof.
  intros Hn Hlo.
  assert (Hland : Z.land (Z.shiftl hi n) lo = 0).
  { apply Z.bits_inj'. intros k Hk. rewrite Z.land_spec, Z.bits_0.
    destruct (Z.lt_ge_cases k n) as [Hlt|Hge].
    - by rewrite Z.shiftl_spec_low.
    - destruct (Z.eq_dec lo 0) as [->|Hne];
        [by rewrite Z.bits_0, andb_false_r|].
      rewrite (Z.bits_above_log2 lo k), andb_false_r; [done|lia|].
      apply Z.log2_lt_pow2; [lia|].
      eapply Z.lt_le_trans; [apply Hlo|]. apply Z.pow_le_mono_r; lia. }
  rewrite <- Z.lxor_lor by done. rewrite <- Z.add_nocarry_lxor by done.
  by rewrite Z.shiftl_mul_pow2.
Qed.

Lemma land_255 b : Z.land b 255 = b mod 256.
Proof. change 255 with (Z.ones 8). by rewrite Z.land_ones. Qed.

Lemma shl32_small a n :
  0 <= n -> - 2 ^ 31 <= a * 2 ^ n < 2 ^ 31 -> shl32 a n = Z.shiftl a n.
Proof.
  intros Hn Ha. unfold shl32. apply wrap32_small.
  by rewrite Z.shiftl_mul_pow2.
Qed.

Lemma short_bits_value b0 b1 rest :
  short_bits (b0 :: b1 :: rest) = (b1 mod 256) * 2 ^ 8 + b0 mod 256.
Proof.
  unfold short_bits, at_. simpl nth. rewrite !land_255.
  pose proof (Z.mod_pos_bound b0 256 ltac:(lia)).
  pose proof (Z.mod_pos_bound b1 256 ltac:(lia)).
  rewrite shl32_small by lia. apply lor_shiftl_low; lia.
Qed.

Lemma shl32_mul a n :
  0 <= n -> - 2 ^ 31 <= a * 2 ^ n < 2 ^ 31 -> shl32 a n = a * 2 ^ n.
Proof.
  intros Hn Ha. rewrite shl32_small by done. by apply Z.shiftl_mul_pow2.
Qed.

Lemma readInt_value b0 b1 b2 b3 rest :
  is_byte b3 ->
  readInt (b0 :: b1 :: b2 :: b3 :: rest)
  = Got (b3 * 2 ^ 24 + (b2 mod 256) * 2 ^ 16 + (b1 mod 256) * 2 ^ 8
         + b0 mod 256) rest.
Proof.
  intros Hb3. unfold readInt, readFully, at_. simpl.
  f_equal. rewrite !land_255.
  pose proof (Z.mod_pos_bound b0 256 ltac:(lia)).
  pose proof (Z.mod_pos_bound b1 256 ltac:(lia)).
  pose proof (Z.mod_pos_bound b2 256 ltac:(lia)).
  unfold is_byte in Hb3.
  rewrite (shl32_small b3) by lia.
  rewrite (shl32_mul (b2 mod 256)), (shl32_mul (b1 mod 256)) by lia.
  rewrite (lor_shiftl_low b3) by lia.
  replace (b3 * 2 ^ 24 + b2 mod 256 * 2 ^ 16)
    with (Z.shiftl (b3 * 2 ^ 8 + b2 mod 256) 16)
    by (rewrite !Z.shiftl_mul_pow2; lia).
  rewrite lor_shiftl_low by lia.
  replace ((b3 * 2 ^ 8 + b2 mod 256) * 2 ^ 16 + b1 mod 256 * 2 ^ 8)
    with (Z.shiftl ((b3 * 2 ^ 8 + b2 mod 256) * 2 ^ 8 + b1 mod 256) 8)
    by (rewrite !Z.shiftl_mul_pow2; lia).
  rewrite lor_shiftl_low by lia. rewrite ?Z.shiftl_mul_pow2 by lia. ring.
Qed.

Lemma shiftr_byte x i :
  0 <= i -> narrow 8 (Z.shiftr x i) mod 256 = (x / 2 ^ i) mod 256.
Proof.
  intros Hi. change 256 with (2 ^ 8). rewrite narrow_mod by lia.
  by rewrite Z.shiftr_div_pow2.
Qed.

(** X2. [readInt] reads back the four little-endian two's complement bytes
    of every [int] and leaves the rest of the stream. *)
Theorem readInt_le_bytes (x : Z) (rest : list Z) :
  INT_MIN <= x <= INT_MAX -> readInt (le_bytes 4 x ++ rest) = Got x rest.
Proof.
  intros Hx. unfold INT_MIN, INT_MAX in Hx.
  change (le_bytes 4 x)
    with [narrow 8 (Z.shiftr x 0); narrow 8 (Z.shiftr x 8);
          narrow 8 (Z.shiftr x 16); narrow 8 (Z.shiftr x 24)].
  cbn [app].
  assert (Htop : narrow 8 (Z.shiftr x 24) = x / 2 ^ 24).
  { rewrite Z.shiftr_div_pow2 by lia. apply narrow_small; [lia|].
    pose proof (Z.div_mod x (2 ^ 24) ltac:(lia)).
    pose proof (Z.mod_pos_bound x (2 ^ 24) ltac:(lia)). lia. }
  rewrite readInt_value.
  2:{ rewrite Htop. unfold is_byte.
      pose proof (Z.div_mod x (2 ^ 24) ltac:(lia)).
      pose proof (Z.mod_pos_bound x (2 ^ 24) ltac:(lia)). lia. }
  f_equal. rewrite Htop.
  rewrite (shiftr_byte x 16), (shiftr_byte x 8), (shiftr_byte x 0) by lia.
  change (2 ^ 0) with 1. rewrite Z.div_1_r.
  change (2 ^ 24) with 16777216. change (2 ^ 16) with 65536.
  change (2 ^ 8) with 256.
  Z.div_mod_to_equations. lia.
Qed.

Lemma narrow_byte y b :
  is_byte b -> y mod 256 = b mod 256 -> narrow 8 y = b.
Proof.
  unfold is_byte, narrow. intros Hb Hy.
  change (2 ^ (8 - 1)) with 128. change (2 ^ 8) with 256.
  rewrite <- Zplus_mod_idemp_l, Hy, Zplus_mod_idemp_l.
  rewrite Z.mod_small; lia.
Qed.

Lemma readFully_short n s :
  (length s < n)%nat -> readFully n s = EOFException.
Proof.
  intros Hlen. unfold readFully.
  by replace (n <=? length s)%nat with false
    by (symmetry; apply Nat.leb_gt; lia).
Qed.

(** X1. On a stream of at least four bytes [readInt] takes four bytes and
    returns an [int], the one whose little-endian two's complement bytes they
    are; on a shorter stream it ends in [EOFException]. *)
Theorem readInt_decodes (s : list Z) :
  Forall is_byte s ->
  if decide (4 <= length s)%nat
  then exists x, readInt s = Got x (drop 4 s)
                 /\ INT_MIN <= x <= INT_MAX
                 /\ le_bytes 4 x = take 4 s
  else readInt s = EOFException.
Proof.
  intros Hs. destruct (decide (4 <= length s)%nat) as [Hlen|Hlen].
  - destruct s as [|b0 [|b1 [|b2 [|b3 rest]]]]; simpl in Hlen; try lia.
    apply Forall_cons in Hs as [H0 Hs]. apply Forall_cons in Hs as [H1 Hs].
    apply Forall_cons in Hs as [H2 Hs]. apply Forall_cons in Hs as [H3 _].
    eexists. split; [by apply readInt_value|].
    pose proof (Z.mod_pos_bound b0 256 ltac:(lia)).
    pose proof (Z.mod_pos_bound b1 256 ltac:(lia)).
    pose proof (Z.mod_pos_bound b2 256 ltac:(lia)).
    unfold is_byte in H3. unfold INT_MIN, INT_MAX.
    change (2 ^ 24) with 16777216. change (2 ^ 16) with 65536.
    change (2 ^ 8) with 256.
    split; [lia|].
    set (x := b3 * 16777216 + b2 mod 256 * 65536 + b1 mod 256 * 256
              + b0 mod 256).
    change (le_bytes 4 x)
      with [narrow 8 (Z.shiftr x 0); narrow 8 (Z.shiftr x 8);
            narrow 8 (Z.shiftr x 16); narrow 8 (Z.shiftr x 24)].
    cbn [take]. rewrite !Z.shiftr_div_pow2 by lia.
    change (2 ^ 0) with 1. change (2 ^ 24) with 16777216.
    change (2 ^ 16) with 65536. change (2 ^ 8) with 256.
    repeat f_equal; apply narrow_byte; try done; unfold x;
      Z.div_mod_to_equations; lia.
  - unfold readInt. rewrite readFully_short by lia. done.
Qed.

(** X3. On a stream of at least two bytes [readUnsignedShort] and
    [readChar] return the same value [u], between 0 and 65535, whose two
    little-endian bytes were read, and [readShort] returns [u] narrowed to 16
    bits; on a shorter stream the three end in [EOFException]. *)
Theorem readShort_decodes (s : list Z) :
  Forall is_byte s ->
  if decide (2 <= length s)%nat
  then exists u, readUnsignedShort s = Got u (drop 2 s)
                 /\ 0 <= u < 65536
                 /\ readChar s = Got u (drop 2 s)
                 /\ readShort s = Got (narrow 16 u) (drop 2 s)
                 /\ le_bytes 2 u = take 2 s
  else readShort s = EOFException /\ readUnsignedShort s = EOFException
       /\ readChar s = EOFException.
Proof.
  intros Hs. destruct (decide (2 <= length s)%nat) as [Hlen|Hlen].
  - destruct s as [|b0 [|b1 rest]]; simpl in Hlen; try lia.
    apply Forall_cons in Hs as [H0 Hs]. apply Forall_cons in Hs as [H1 _].
    pose proof (short_bits_value b0 b1 []) as Hv.
    pose proof (Z.mod_pos_bound b0 256 ltac:(lia)).
    pose proof (Z.mod_pos_bound b1 256 ltac:(lia)).
    change (2 ^ 8) with 256 in Hv.
    exists (b1 mod 256 * 256 + b0 mod 256).
    unfold readUnsignedShort, readChar, readShort.
    change (readFully 2 (b0 :: b1 :: rest)) with (Got [b0; b1] rest).
    change (drop 2 (b0 :: b1 :: rest)) with rest.
    change (take 2 (b0 :: b1 :: rest)) with [b0; b1].
    cbv iota beta. rewrite Hv. split; [done|]. split; [lia|].
    split; [by rewrite Z.mod_small by lia|]. split; [done|].
    set (u := b1 mod 256 * 256 + b0 mod 256).
    change (le_bytes 2 u)
      with [narrow 8 (Z.shiftr u 0); narrow 8 (Z.shiftr u 8)].
    rewrite !Z.shiftr_div_pow2 by lia.
    change (2 ^ 0) with 1. change (2 ^ 8) with 256.
    repeat f_equal; apply narrow_byte; try done; unfold u;
      Z.div_mod_to_equations; lia.
  - unfold readShort, readUnsignedShort, readChar.
    rewrite readFully_short by lia. done.
Qed.

(** X4. [readShort] reads back the two little-endian bytes of every
    [short]; [readUnsignedShort] and [readChar] those of every value from 0
    to 65535. *)
Theorem readShort_le_bytes (x : Z) (rest : list Z) :
  (-32768 <= x <= 32767 -> readShort (le_bytes 2 x ++ rest) = Got x rest)
  /\ (0 <= x <= 65535 ->
      readUnsignedShort (le_bytes 2 x ++ rest) = Got x rest
      /\ readChar (le_bytes 2 x ++ rest) = Got x rest).
Proof.
  change (le_bytes 2 x)
    with [narrow 8 (Z.shiftr x 0); narrow 8 (Z.shiftr x 8)].
  unfold readShort, readUnsignedShort, readChar.
  change (readFully 2 ([narrow 8 (x ≫ 0); narrow 8 (x ≫ 8)] ++ rest))
    with (Got [narrow 8 (x ≫ 0); narrow 8 (x ≫ 8)] rest).
  cbv iota beta. rewrite (short_bits_value _ _ []).
  rewrite (shiftr_byte x 8), (shiftr_byte x 0) by lia.
  change (2 ^ 0) with 1. rewrite Z.div_1_r. change (2 ^ 8) with 256.
  unfold narrow. change (2 ^ (16 - 1)) with 32768. change (2 ^ 16) with 65536.
  split; [intros Hx|intros Hx; split]; f_equal;
    Z.div_mod_to_equations; lia.
Qed.

Lemma shl64_mul a n :
  0 <= n -> - 2 ^ 63 <= a * 2 ^ n < 2 ^ 63 -> shl64 a n = a * 2 ^ n.
Proof.
  intros Hn Ha. unfold shl64. rewrite Z.shiftl_mul_pow2 by done.
  by apply narrow_small.
Qed.

(** One more byte under the bytes gathered so far. *)
Lemma lor_shl64_step acc u n m :
  0 <= n -> m = n + 8 -> 0 <= u < 256 -> u * 2 ^ n < 2 ^ 63 ->
  Z.lor (acc * 2 ^ m) (shl64 u n) = (acc * 2 ^ 8 + u) * 2 ^ n.
Proof.
  intros Hn -> Hu Hb.
  assert (0 <= u * 2 ^ n) by (apply Z.mul_nonneg_nonneg; lia).
  rewrite shl64_mul by lia.
  rewrite Z.pow_add_r by lia.
  replace (acc * (2 ^ n * 2 ^ 8)) with (Z.shiftl (Z.shiftl acc 8) n)
    by (rewrite !Z.shiftl_mul_pow2 by lia; ring).
  rewrite <- (Z.shiftl_mul_pow2 u n) by lia.
  rewrite <- Z.shiftl_lor, lor_shiftl_low by (change (2 ^ 8) with 256; lia).
  by rewrite Z.shiftl_mul_pow2.
Qed.

Lemma readLong_value b0 b1 b2 b3 b4 b5 b6 b7 rest :
  is_byte b7 ->
  readLong (b0 :: b1 :: b2 :: b3 :: b4 :: b5 :: b6 :: b7 :: rest)
  = Got (b7 * 2 ^ 56 + (b6 mod 256) * 2 ^ 48 + (b5 mod 256) * 2 ^ 40
         + (b4 mod 256) * 2 ^ 32 + (b3 mod 256) * 2 ^ 24
         + (b2 mod 256) * 2 ^ 16 + (b1 mod 256) * 2 ^ 8 + b0 mod 256) rest.
Proof.
  intros Hb7. unfold readLong.
  change (readFully 8 (b0 :: b1 :: b2 :: b3 :: b4 :: b5 :: b6 :: b7 :: rest))
    with (Got [b0; b1; b2; b3; b4; b5; b6; b7] rest).
  cbv iota beta. unfold at_. cbn [nth]. f_equal. rewrite !land_255.
  pose proof (Z.mod_pos_bound b0 256 ltac:(lia)).
  pose proof (Z.mod_pos_bound b1 256 ltac:(lia)).
  pose proof (Z.mod_pos_bound b2 256 ltac:(lia)).
  pose proof (Z.mod_pos_bound b3 256 ltac:(lia)).
  pose proof (Z.mod_pos_bound b4 256 ltac:(lia)).
  pose proof (Z.mod_pos_bound b5 256 ltac:(lia)).
  pose proof (Z.mod_pos_bound b6 256 ltac:(lia)).
  unfold is_byte in Hb7.
  rewrite (shl64_mul b7) by lia.
  rewrite (lor_shl64_step _ _ 48) by lia.
  rewrite (lor_shl64_step _ _ 40) by lia.
  rewrite (lor_shl64_step _ _ 32) by lia.
  rewrite (lor_shl64_step _ _ 24) by lia.
  rewrite (lor_shl64_step _ _ 16) by lia.
  rewrite (lor_shl64_step _ _ 8) by lia.
  rewrite <- (Z.shiftl_mul_pow2 _ 8), lor_shiftl_low
    by (change (2 ^ 8) with 256; lia).
  ring.
Qed.

(** X5. [readLong] reads back the eight little-endian two's complement
    bytes of every [long]. *)
Theorem readLong_le_bytes (x : Z) (rest : list Z) :
  - 2 ^ 63 <= x < 2 ^ 63 -> readLong (le_bytes 8 x ++ rest) = Got x rest.
Proof.
  intros Hx.
  change (le_bytes 8 x)
    with [narrow 8 (Z.shiftr x 0); narrow 8 (Z.shiftr x 8);
          narrow 8 (Z.shiftr x 16); narrow 8 (Z.shiftr x 24);
          narrow 8 (Z.shiftr x 32); narrow 8 (Z.shiftr x 40);
          narrow 8 (Z.shiftr x 48); narrow 8 (Z.shiftr x 56)].
  cbn [app].
  assert (Htop : narrow 8 (Z.shiftr x 56) = x / 2 ^ 56).
  { rewrite Z.shiftr_div_pow2 by lia. apply narrow_small; [lia|].
    pose proof (Z.div_mod x (2 ^ 56) ltac:(lia)).
    pose proof (Z.mod_pos_bound x (2 ^ 56) ltac:(lia)). lia. }
  rewrite readLong_value.
  2:{ rewrite Htop. unfold is_byte.
      pose proof (Z.div_mod x (2 ^ 56) ltac:(lia)).
      pose proof (Z.mod_pos_bound x (2 ^ 56) ltac:(lia)). lia. }
  f_equal. rewrite Htop.
  rewrite (shiftr_byte x 48), (shiftr_byte x 40), (shiftr_byte x 32),
    (shiftr_byte x 24), (shiftr_byte x 16), (shiftr_byte x 8),
    (shiftr_byte x 0) by lia.
  change (2 ^ 0) with 1. rewrite Z.div_1_r.
  change (2 ^ 56) with 72057594037927936.
  change (2 ^ 48) with 281474976710656.
  change (2 ^ 40) with 1099511627776.
  change (2 ^ 32) with 4294967296.
  change (2 ^ 24) with 16777216. change (2 ^ 16) with 65536.
  change (2 ^ 8) with 256.
  Z.div_mod_to_equations. lia.
Qed.

Lemma readFully_enough n s :
  (n <= length s)%nat -> readFully n s = Got (take n s) (drop n s).
Proof.
  intros Hlen. unfold readFully.
  by replace (n <=? length s)%nat with true
    by (symmetry; apply Nat.leb_le; lia).
Qed.

Lemma readInt_enough s :
  (4 <= length s)%nat -> exists x, readInt s = Got x (drop 4 s).
Proof.
  intros Hlen. unfold readInt. rewrite readFully_enough by done. eauto.
Qed.

Lemma readInt_short s : (length s < 4)%nat -> readInt s = EOFException.
Proof. intros Hlen. unfold readInt. by rewrite readFully_short. Qed.

End Stream.

(** ** The edge file, byte by byte *)

Section EdgeFileLoad.
Import LEDataInputStream.
Context {Float : Type} `{Runtime}.
Variable intBitsToFloat : Z -> Float.

Lemma readFloat_enough s :
  (4 <= length s)%nat ->
  exists x, readFloat intBitsToFloat s = Got x (drop 4 s).
Proof.
  intros Hlen. unfold readFloat.
  destruct (readInt_enough s Hlen) as [x ->]. eauto.
Qed.

Lemma readFloat_short s :
  (length s < 4)%nat -> readFloat intBitsToFloat s = EOFException.
Proof. intros Hlen. unfold readFloat. by rewrite readInt_short. Qed.

Lemma load_stream_records (fuel : nat) (s : list Z) (heap : nat)
    (graph : Graph.t Float) :
  (length s <= fuel)%nat ->
  EdgeFile.load_stream intBitsToFloat fuel s heap graph
  = match WSI.load_loop (EdgeFile.records intBitsToFloat fuel s) heap graph
    with
    | Ok r =>
        if (length s mod 12 =? 0)%nat then EdgeFile.Returned (Ok r)
        else EdgeFile.Exit1
    | Err e => EdgeFile.Returned (Err e)
    end.
Proof.
  revert s heap graph. induction fuel as [|fuel IH]; intros s heap graph Hf.
  - destruct s; [done|simpl in Hf; lia].
  - destruct (decide (length s = 0%nat)) as [H0|H0].
    { destruct s; [done|simpl in H0; lia]. }
    cbn [EdgeFile.load_stream EdgeFile.records].
    replace (available s >? 0) with true
      by (symmetry; apply Z.gtb_lt; unfold available; lia).
    destruct (decide (length s < 4)%nat) as [H4|H4].
    { rewrite readInt_short by done. cbn [WSI.load_loop].
      replace (length s mod 12 =? 0)%nat with false; [reflexivity|].
      symmetry. apply Nat.eqb_neq. rewrite Nat.mod_small; lia. }
    destruct (readInt_enough s ltac:(lia)) as [f ->].
    destruct (valueOf heap f) as [from heap1] eqn:Ef.
    destruct (decide (length s < 8)%nat) as [H8|H8].
    { rewrite readInt_short by (rewrite length_drop; lia). cbn [WSI.load_loop].
      replace (length s mod 12 =? 0)%nat with false; [reflexivity|].
      symmetry. apply Nat.eqb_neq. rewrite Nat.mod_small; lia. }
    destruct (readInt_enough (drop 4 s)) as [t ->];
      [rewrite length_drop; lia|].
    destruct (valueOf heap1 t) as [to heap2] eqn:Et.
    rewrite drop_drop.
    destruct (decide (length s < 12)%nat) as [H12|H12].
    { rewrite readFloat_short by (rewrite length_drop; lia). cbn [WSI.load_loop].
      replace (length s mod 12 =? 0)%nat with false; [reflexivity|].
      symmetry. apply Nat.eqb_neq. rewrite Nat.mod_small; lia. }
    destruct (readFloat_enough (drop (4 + 4) s)) as [wt ->];
      [rewrite length_drop; lia|].
    rewrite drop_drop. cbn [WSI.load_loop]. rewrite Ef, Et.
    destruct (Graph.addEdge from to wt graph) as [graph1|e]; [|done].
    cbn [bind]. rewrite IH by (rewrite length_drop; lia).
    rewrite length_drop.
    replace (length s mod 12)%nat with ((length s - (4 + 4 + 4)) mod 12)%nat;
      [done|].
    replace (length s) with (length s - 12 + 1 * 12)%nat at 2 by lia.
    by rewrite Nat.Div0.mod_add.
Qed.

Lemma records_length (fuel : nat) (s : list Z) :
  (length s <= fuel)%nat ->
  length (EdgeFile.records intBitsToFloat fuel s) = (length s / 12)%nat.
Proof.
  revert s. induction fuel as [|fuel IH]; intros s Hf.
  - destruct s; [done|simpl in Hf; lia].
  - cbn [EdgeFile.records].
    destruct (decide (length s < 4)%nat) as [H4|H4].
    { rewrite readInt_short by done. by rewrite Nat.div_small by lia. }
    destruct (readInt_enough s ltac:(lia)) as [f ->].
    destruct (decide (length s < 8)%nat) as [H8|H8].
    { rewrite readInt_short by (rewrite length_drop; lia).
      by rewrite Nat.div_small by lia. }
    destruct (readInt_enough (drop 4 s)) as [t ->];
      [rewrite length_drop; lia|].
    rewrite drop_drop.
    destruct (decide (length s < 12)%nat) as [H12|H12].
    { rewrite readFloat_short by (rewrite length_drop; lia).
      by rewrite Nat.div_small by lia. }
    destruct (readFloat_enough (drop (4 + 4) s)) as [wt ->];
      [rewrite length_drop; lia|].
    rewrite drop_drop. cbn [length].
    rewrite IH by (rewrite length_drop; lia). rewrite length_drop.
    replace (length s) with (length s - 12 + 1 * 12)%nat at 2 by lia.
    rewrite Nat.div_add by lia. simpl. lia.
Qed.

(** X6. Loading the edge file byte by byte is loading its 12-byte records,
    [length / 12] of them, in order; a file that does not end on a record
    boundary makes the program leave with [System.exit(1)] once its whole
    records are in the graph, unless [addEdge] has thrown before. *)
Theorem loadDistributedGraph_bytes (s : list Z) (heap : nat) :
  EdgeFile.loadDistributedGraph intBitsToFloat s heap
  = match WSI.loadDistributedGraph
            (EdgeFile.records intBitsToFloat (length s) s) heap with
    | Ok r =>
        if (length s mod 12 =? 0)%nat then EdgeFile.Returned (Ok r)
        else EdgeFile.Exit1
    | Err e => EdgeFile.Returned (Err e)
    end
  /\ length (EdgeFile.records intBitsToFloat (length s) s)
     = (length s / 12)%nat.
Proof.
  split; [|by apply records_length].
  unfold EdgeFile.loadDistributedGraph, WSI.loadDistributedGraph.
  destruct (Graph.new 200000 220) as [graph|e]; [|done].
  cbn [bind]. by apply load_stream_records.
Qed.

End EdgeFileLoad.

(** ** [Graph]: reading a built graph *)

Section GraphReads.
Context {Float : Type} `{FloatOps Float} `{Runtime}.

Lemma aload_in {A : Type} (arr : gmap Z A) len i :
  0 <= i < len -> aload arr len i = Ok (arr !! i).
Proof.
  intros Hi. unfold aload.
  by replace ((0 <=? i) && (i <? len)) with true
    by (symmetry; apply andb_true_iff; split;
        [apply Z.leb_le|apply Z.ltb_lt]; lia).
Qed.

Lemma aload_out {A : Type} (arr : gmap Z A) len i :
  ~ 0 <= i < len -> aload arr len i = Err ArrayIndexOutOfBoundsException.
Proof.
  intros Hi. unfold aload.
  destruct (0 <=? i) eqn:E1; [|done].
  destruct (i <? len) eqn:E2; [|done].
  apply Z.leb_le in E1. apply Z.ltb_lt in E2. lia.
Qed.

(** Every neighbour of a node of a well-formed graph is a present node. *)
Lemma adj_present (g : Graph.t Float) u v :
  Graph.wf g -> v ∈ Graph.adj g u ->
  u ∈ Graph.nodes g /\ v ∈ Graph.nodes g
  /\ 0 <= u < Graph.size g /\ 0 <= v < Graph.size g.
Proof.
  intros Hwf Hv.
  assert (Hside : forall a b, b ∈ Graph.adj g a ->
                    a ∈ Graph.nodes g /\ 0 <= a < Graph.size g).
  { intros a b Hb. unfold Graph.adj in Hb.
    destruct (Graph.edgeSources g !! a) as [src|] eqn:Es;
      [|by apply elem_of_nil in Hb].
    destruct (node_ok_present g a src (Graph.wf_nodes g Hwf a) Es)
      as (? & ? & _ & _ & ? & ? & _). done. }
  destruct (adj_pairs g u v (Graph.wf_nodes g Hwf u) Hv) as [x Hx].
  apply (Graph.wf_sym g Hwf) in Hx. apply pairs_adj in Hx.
  destruct (Hside u v Hv), (Hside v u Hx). done.
Qed.

(** X7. In a built graph no neighbour is listed twice at a node, the
    weight list of a node is as long as its neighbour list, an absent node
    has no neighbours, and every neighbour listed is a present node inside
    the arrays. *)
Theorem built_adjacency (g : Graph.t Float) (v : Z) :
  Graph.built g ->
  NoDup (Graph.adj g v)
  /\ length (Graph.w g v) = length (Graph.adj g v)
  /\ (v ∉ Graph.nodes g -> Graph.adj g v = [])
  /\ Forall (fun u => u ∈ Graph.nodes g /\ 0 <= u < Graph.size g)
       (Graph.adj g v).
Proof.
  intros Hb. pose proof (built_wf g Hb) as Hwf.
  split; [by apply adj_NoDup|]. split; [by apply adj_w_length|]. split.
  - intros Hv. destruct (Graph.adj g v) as [|u l] eqn:E; [done|].
    destruct (adj_present g v u Hwf) as (? & _); [|done].
    rewrite E. apply list_elem_of_here.
  - apply Forall_forall. intros u Hu.
    destruct (adj_present g v u Hwf Hu) as (_ & ? & _ & ?). done.
Qed.

(** X8. On a built graph [getEdgeWeight(from, to)] returns for every
    present [from]: the literal 0 when [to] is not a neighbour of [from],
    and else the weight stored with [to] at [from], which is also what
    [getEdgeWeight(to, from)] returns. *)
Theorem getEdgeWeight_present (g : Graph.t Float) (from to : Integer) :
  Graph.built g -> intValue from ∈ Graph.nodes g ->
  exists x,
    Graph.getEdgeWeight from to g = Ok x
    /\ (intValue to ∉ Graph.adj g (intValue from) -> x = Fzero)
    /\ (intValue to ∈ Graph.adj g (intValue from) ->
        (intValue to, x) ∈ Graph.pairs g (intValue from)
        /\ Graph.getEdgeWeight to from g = Ok x).
Proof.
  intros Hb Hfrom. pose proof (built_wf g Hb) as Hwf.
  destruct (decide (intValue to ∈ Graph.adj g (intValue from))) as [Hin|Hout].
  - destruct (adj_pairs g _ _ (Graph.wf_nodes g Hwf _) Hin) as [x Hx].
    exists x. split; [by apply getEdgeWeight_found|].
    split; [done|]. intros _. split; [done|].
    apply getEdgeWeight_found; [done|]. by apply (Graph.wf_sym g Hwf).
  - exists Fzero. split; [by apply getEdgeWeight_absent|]. done.
Qed.

(** X9. [addEdge] on a built graph keeps every edge that is there, and
    [getEdgeWeight] returns for it what it returned before. *)
Theorem addEdge_keeps_weights (g g' : Graph.t Float) (from to a b : Integer)
    (weight : Float) :
  Graph.built g -> Graph.addEdge from to weight g = Ok g' ->
  intValue b ∈ Graph.adj g (intValue a) ->
  intValue b ∈ Graph.adj g' (intValue a)
  /\ Graph.getEdgeWeight a b g' = Graph.getEdgeWeight a b g.
Proof.
  intros Hb Hadd Hin. pose proof (built_wf g Hb) as Hwf.
  destruct (addEdge_spec _ _ _ _ _ Hadd Hwf) as (Hwf' & _ & Hcases).
  destruct (adj_pairs g _ _ (Graph.wf_nodes g Hwf _) Hin) as [x Hx].
  assert (Hx' : (intValue b, x) ∈ Graph.pairs g' (intValue a)).
  { destruct Hcases as [[_ Hsame]|(_ & _ & _ & _ & Hext)].
    - destruct (Hsame (intValue a)) as [_ ->]. done.
    - destruct (Hext (intValue a)) as (extra & -> & _).
      apply elem_of_app. by left. }
  split; [by eapply pairs_adj|].
  rewrite (getEdgeWeight_found g' a b x Hwf' Hx').
  by rewrite (getEdgeWeight_found g a b x Hwf Hx).
Qed.













(** *** The node set *)

Lemma addNode_nodes (node : Integer) (g g' : Graph.t Float) :
  Graph.addNode node g = Ok g' ->
  Graph.nodes g' = {[intValue node]} ∪ Graph.nodes g.
Proof.
  intros Hrun.
  destruct (addNode_Ok _ _ _ Hrun)
    as (g1 & Hcap & _ & [[Hin ->]|(_ & _ & ->)]);
    pose proof (ensureCapacity_spec _ _ _ Hcap) as (_ & Hn & _).
  - rewrite Hn in *. apply set_eq. intros x.
    rewrite elem_of_union, elem_of_singleton. split; [by right|].
    intros [->|]; done.
  - simpl. by rewrite Hn.
Qed.

Lemma link_nodes (a b : Integer) (weight : Float) (g g' : Graph.t Float) :
  Graph.link a b weight g = Ok g' -> Graph.nodes g' = Graph.nodes g.
Proof.
  unfold Graph.link.
  destruct (aload _ _ _) as [[set|]|]; simpl; try done.
  destruct (decide _); [by intros [= <-]|].
  destruct (aload _ _ _) as [[src|]|]; simpl; try done.
  destruct (aload _ _ _) as [[wts|]|]; simpl; try done.
  by intros [= <-].
Qed.

(** [addEdge] adds its two end points to the node set, and nothing when
    both arguments are one object. *)
Lemma addEdge_node_set (from to : Integer) (weight : Float)
    (g g' : Graph.t Float) :
  Graph.addEdge from to weight g = Ok g' ->
  Graph.nodes g'
  = (if same_object from to then ∅ else {[intValue from; intValue to]})
    ∪ Graph.nodes g.
Proof.
  unfold Graph.addEdge. destruct (same_object from to); simpl.
  - intros [= <-]. apply set_eq. intros x. rewrite elem_of_union.
    split; [by right|]. intros [Hx|]; [|done].
    by apply not_elem_of_empty in Hx.
  - destruct (Graph.addNode from g) as [g1|] eqn:E1; simpl; [|done].
    destruct (Graph.addNode to g1) as [g2|] eqn:E2; simpl; [|done].
    destruct (Graph.link from to weight g2) as [g3|] eqn:E3; simpl; [|done].
    intros E4. rewrite (link_nodes _ _ _ _ _ E4), (link_nodes _ _ _ _ _ E3),
      (addNode_nodes _ _ _ E2), (addNode_nodes _ _ _ E1).
    apply set_eq. intros x.
    rewrite !elem_of_union, !elem_of_singleton. tauto.
Qed.

(** X11. After [addEdge] on two different objects [hasNode] holds of both
    end points; [hasNode] holds afterwards of the nodes it held of before
    and of the end points, of no other; [getSize] grows by 2 at most. *)
Theorem addEdge_hasNode (from to : Integer) (weight : Float)
    (g g' : Graph.t Float) :
  Graph.addEdge from to weight g = Ok g' ->
  same_object from to = false ->
  Graph.hasNode from g' = Ok true
  /\ Graph.hasNode to g' = Ok true
  /\ (forall n,
        Graph.hasNode n g' = Ok true
        <-> Graph.hasNode n g = Ok true
            \/ (0 <= intValue n
                /\ (intValue n = intValue from \/ intValue n = intValue to)))
  /\ Graph.getSize g <= Graph.getSize g' <= Graph.getSize g + 2.
Proof.
  intros Hrun Hne. pose proof (addEdge_node_set _ _ _ _ _ Hrun) as Hn.
  rewrite Hne in Hn.
  assert (Hpos : 0 <= intValue from /\ 0 <= intValue to).
  { revert Hrun. unfold Graph.addEdge. rewrite Hne. simpl.
    destruct (Graph.addNode from g) as [g1|] eqn:E1; simpl; [|done].
    destruct (Graph.addNode to g1) as [g2|] eqn:E2; simpl; [|done].
    intros _. apply addNode_Ok in E1 as (? & _ & ? & _).
    apply addNode_Ok in E2 as (? & _ & ? & _). done. }
  assert (Hhas : forall n (h : Graph.t Float),
            Graph.hasNode n h = Ok true
            <-> 0 <= intValue n /\ intValue n ∈ Graph.nodes h).
  { intros n h. unfold Graph.hasNode.
    destruct (intValue n <? 0) eqn:Hlt.
    - apply Z.ltb_lt in Hlt. split; [done|lia].
    - apply Z.ltb_ge in Hlt. split.
      + intros [= Hd]. by apply bool_decide_eq_true in Hd.
      + intros [_ Hd]. by rewrite bool_decide_eq_true_2. }
  split; [|split; [|split]].
  - apply Hhas. split; [tauto|]. rewrite Hn.
    rewrite !elem_of_union, !elem_of_singleton. tauto.
  - apply Hhas. split; [tauto|]. rewrite Hn.
    rewrite !elem_of_union, !elem_of_singleton. tauto.
  - intros n. rewrite !Hhas, Hn, !elem_of_union, !elem_of_singleton. tauto.
  - unfold Graph.getSize. rewrite Hn.
    assert (Hsub : Graph.nodes g ⊆ {[intValue from; intValue to]} ∪ Graph.nodes g)
      by (apply union_subseteq_r).
    apply subseteq_size in Hsub.
    assert (H2 : (stdpp.base.size ({[intValue from; intValue to]} : gset Z)
                  <= 2)%nat).
    { destruct (decide (intValue from = intValue to)) as [->|Hft].
      - replace ({[intValue to; intValue to]} : gset Z)
          with ({[intValue to]} : gset Z)
          by (apply set_eq; intros x;
              rewrite elem_of_union, !elem_of_singleton; tauto).
        rewrite size_singleton. lia.
      - rewrite size_union by (apply disjoint_singleton_l;
                               by rewrite elem_of_singleton).
        rewrite !size_singleton. lia. }
    assert (Hd : (stdpp.base.size
                    (Graph.nodes g ∖ {[intValue from; intValue to]})
                  <= stdpp.base.size (Graph.nodes g))%nat).
    { apply subseteq_size, subseteq_difference_l. done. }
    rewrite size_union_alt in Hsub |- *. lia.
Qed.

(** *** Node classes *)

(** X12. Inside the arrays [setNodeClass] stores the class, [null]
    included: [getNodeClass] of the node returns it and the class of every
    other node is as before. At an index beyond the arrays [setNodeClass]
    does nothing and [getNodeClass] returns [null]; at a negative index both
    throw [ArrayIndexOutOfBoundsException]. *)
Theorem nodeClass_set_get (g : Graph.t Float) (node : Integer)
    (c : option Integer) :
  (0 <= intValue node < Graph.size g ->
   exists g',
     Graph.setNodeClass node c g = Ok g'
     /\ Graph.getNodeClass node g' = Ok c
     /\ forall other, intValue other <> intValue node ->
          Graph.getNodeClass other g' = Graph.getNodeClass other g)
  /\ (Graph.size g <= intValue node ->
      Graph.setNodeClass node c g = Ok g
      /\ Graph.getNodeClass node g = Ok None)
  /\ (intValue node < 0 -> 0 <= Graph.size g ->
      Graph.setNodeClass node c g = Err ArrayIndexOutOfBoundsException
      /\ Graph.getNodeClass node g = Err ArrayIndexOutOfBoundsException).
Proof.
  unfold Graph.setNodeClass, Graph.getNodeClass. split; [|split].
  - intros Hr.
    replace (intValue node <? Graph.size g) with true
      by (symmetry; apply Z.ltb_lt; lia).
    replace (0 <=? intValue node) with true
      by (symmetry; apply Z.leb_le; lia).
    eexists. split; [done|]. simpl.
    replace (intValue node <? Graph.size g) with true
      by (symmetry; apply Z.ltb_lt; lia).
    rewrite aload_in by done. split.
    + destruct c; [by rewrite lookup_insert_eq|by rewrite lookup_delete_eq].
    + intros other Hne. destruct (intValue other <? Graph.size g); [|done].
      unfold aload. destruct (_ && _); [|done].
      destruct c; [by rewrite lookup_insert_ne|by rewrite lookup_delete_ne].
  - intros Hr.
    by replace (intValue node <? Graph.size g) with false
      by (symmetry; apply Z.ltb_ge; lia).
  - intros Hneg Hsz.
    replace (intValue node <? Graph.size g) with true
      by (symmetry; apply Z.ltb_lt; lia).
    replace (0 <=? intValue node) with false
      by (symmetry; apply Z.leb_gt; lia).
    split; [done|]. apply aload_out. lia.
Qed.

(** *** Listing nodes and edges *)

Lemma getNodes_loop_values (g : Graph.t Float) :
  forall cnt node heap,
  intValue <$> (Graph.getNodes_loop cnt node g heap).1
  = filter (fun v => v ∈ Graph.nodes g) (seqZ node (Z.of_nat cnt)).
Proof.
  induction cnt as [|cnt IH]; intros node heap; [done|].
  rewrite Nat2Z.inj_succ, seqZ_cons by lia.
  replace (Z.pred (Z.succ (Z.of_nat cnt))) with (Z.of_nat cnt) by lia.
  replace (Z.succ node) with (node + 1) by lia.
  cbn [Graph.getNodes_loop].
  destruct (decide (node ∈ Graph.nodes g)) as [Hin|Hin].
  - rewrite filter_cons_True by done.
    pose proof (valueOf_intValue heap node) as Hv.
    destruct (valueOf heap node) as [boxed heap1]. simpl in Hv.
    specialize (IH (node + 1) heap1).
    destruct (Graph.getNodes_loop cnt (node + 1) g heap1) as [rest heap2].
    cbn [fst] in *. by rewrite fmap_cons, Hv, IH.
  - rewrite filter_cons_False by done. apply IH.
Qed.

Lemma filter_seqZ_sorted (P : Z -> Prop) `{forall x, Decision (P x)} :
  forall cnt node,
  StronglySorted Z.lt (filter P (seqZ node (Z.of_nat cnt))).
Proof.
  induction cnt as [|cnt IH]; intros node; [constructor|].
  rewrite Nat2Z.inj_succ, seqZ_cons by lia.
  replace (Z.pred (Z.succ (Z.of_nat cnt))) with (Z.of_nat cnt) by lia.
  assert (Hall : Forall (Z.lt node)
                   (filter P (seqZ (Z.succ node) (Z.of_nat cnt)))).
  { apply Forall_forall. intros x [_ Hx]%list_elem_of_filter.
    apply elem_of_seqZ in Hx. lia. }
  destruct (decide (P node)).
  - rewrite filter_cons_True by done. by constructor.
  - rewrite filter_cons_False by done. apply IH.
Qed.

(** X13. On a built graph [getNodes] lists the present nodes, each once,
    in ascending order; there are [getSize()] of them. *)
Theorem getNodes_lists (g : Graph.t Float) (heap : nat) :
  Graph.built g ->
  let ns := intValue <$> (Graph.getNodes g heap).1 in
  (forall v, v ∈ ns <-> v ∈ Graph.nodes g)
  /\ StronglySorted Z.lt ns
  /\ NoDup ns
  /\ Z.of_nat (length ns) = Graph.getSize g.
Proof.
  intros Hb ns. pose proof (built_wf g Hb) as Hwf.
  assert (Hns : ns = filter (fun v => v ∈ Graph.nodes g)
                       (seqZ 0 (Z.of_nat (Z.to_nat (Graph.size g))))).
  { apply getNodes_loop_values. }
  assert (Hmem : forall v, v ∈ ns <-> v ∈ Graph.nodes g).
  { intros v. rewrite Hns, list_elem_of_filter, elem_of_seqZ.
    split; [tauto|]. intros Hv. split; [done|].
    destruct (node_ok_in_nodes _ _ (Graph.wf_nodes g Hwf v) Hv) as [src Hsrc].
    destruct (node_ok_present _ _ _ (Graph.wf_nodes g Hwf v) Hsrc)
      as (_ & _ & _ & _ & _ & Hrange & _). lia. }
  assert (Hnd : NoDup ns).
  { rewrite Hns. apply NoDup_filter, NoDup_seqZ. }
  split; [done|]. split; [rewrite Hns; apply filter_seqZ_sorted|].
  split; [done|]. unfold Graph.getSize. f_equal.
  rewrite <- (size_list_to_set (C := gset Z) ns Hnd). f_equal.
  apply set_eq. intros v. by rewrite elem_of_list_to_set.
Qed.

Lemma getEdges_loop_zip (src : list Integer) (wts : list Float) :
  forall i, (i + length src <= length wts)%nat ->
  Graph.getEdges_loop src i (Some wts) = Ok (zip src (drop i wts)).
Proof.
  induction src as [|s src IH]; intros i Hlen; [done|].
  simpl in *. unfold list_get.
  destruct (lookup_lt_is_Some_2 wts i ltac:(lia)) as [x Hx].
  rewrite Hx. simpl. rewrite IH by lia. simpl.
  by rewrite (drop_S _ _ _ Hx).
Qed.

(** X14. On a built graph, for a node inside the arrays, [getNeighbors]
    and [getEdges] return: the nodes of the edges are the neighbours, in
    order, and their weights are the weight list of the node. *)
Theorem getEdges_pairs (g : Graph.t Float) (node : Integer) :
  Graph.built g -> 0 <= intValue node < Graph.size g ->
  exists ns es,
    Graph.getNeighbors node g = Ok ns
    /\ Graph.getEdges node g = Ok es
    /\ es.*1 = ns
    /\ intValue <$> ns = Graph.adj g (intValue node)
    /\ es.*2 = Graph.w g (intValue node).
Proof.
  intros Hb Hr. pose proof (built_wf g Hb) as Hwf.
  unfold Graph.getNeighbors, Graph.getEdges, Graph.adj, Graph.w.
  rewrite !aload_in by done. simpl.
  destruct (Graph.edgeSources g !! intValue node) as [src|] eqn:Es.
  - destruct (node_ok_present _ _ _ (Graph.wf_nodes g Hwf _) Es)
      as (wts & set & Hw & _ & _ & _ & Hlen & _).
    rewrite Hw. exists src, (zip src wts).
    split; [done|]. split; [by rewrite getEdges_loop_zip by (simpl; lia)|].
    split; [by rewrite fst_zip by lia|]. split; [done|].
    by rewrite snd_zip by lia.
  - exists [], []. repeat split; try done.
    pose proof (Graph.wf_nodes g Hwf (intValue node)) as Hok.
    unfold Graph.node_ok in Hok. rewrite Es in Hok.
    by destruct (Graph.edgeWeights g !! intValue node).
Qed.

End GraphReads.

(** ** [sortEdges] and the graph *)

Section SortedGraph.
Context {Float : Type} `{FloatOps Float} `{Runtime}.
Hypothesis Fcompare_asym :
  forall a b : Float, Fcompare a b = Gt -> Fcompare b a <> Gt.

(** What the loop of [sortEdges] leaves alone. *)
Lemma sortEdges_loop_shape :
  forall cnt node (g g' : Graph.t Float),
  Graph.sortEdges_loop cnt node g = Ok g' ->
  Graph.size g' = Graph.size g
  /\ Graph.nodes g' = Graph.nodes g
  /\ Graph.edgeSourceSet g' = Graph.edgeSourceSet g
  /\ Graph.nodeClasses g' = Graph.nodeClasses g
  /\ forall v,
       (Graph.edgeSources g' !! v = None <-> Graph.edgeSources g !! v = None)
       /\ (Graph.edgeWeights g' !! v = None
           <-> Graph.edgeWeights g !! v = None).
Proof.
  induction cnt as [|cnt IH]; intros node g g'; simpl Graph.sortEdges_loop.
  - by intros [= <-].
  - destruct (Graph.edgeSources g !! node) as [src|] eqn:Hsrc; [|apply IH].
    destruct (Graph.sort_node src (Graph.edgeWeights g !! node))
      as [sorted|] eqn:Hs; simpl; [|done].
    intros Hrun. apply IH in Hrun as (Hsz & Hn & Hset & Hc & Hv).
    simpl in *. repeat (split; [done|]). intros v.
    destruct (Hv v) as [Hv1 Hv2]. rewrite Hv1, Hv2.
    destruct (decide (v = node)) as [->|Hne].
    + rewrite !lookup_insert_eq, Hsrc.
      destruct (Graph.edgeWeights g !! node); done.
    + by rewrite !lookup_insert_ne.
Qed.

(** The sorted graph keeps the invariant; its lists are the lists before,
    reordered. *)
Lemma sortEdges_wf (g g' : Graph.t Float) :
  Graph.built g -> Graph.sortEdges g = Ok g' ->
  Graph.wf g'
  /\ Graph.size g' = Graph.size g
  /\ Graph.nodes g' = Graph.nodes g
  /\ (forall v, Graph.pairs g' v ≡ₚ Graph.pairs g v)
  /\ (forall v, Graph.adj g' v ≡ₚ Graph.adj g v)
  /\ (forall v, Graph.edgeSources g !! v = None ->
                Graph.edgeSources g' !! v = None).
Proof.
  intros Hb Hrun. pose proof (built_wf g Hb) as Hwf.
  destruct (sortEdges_loop_spec Fcompare_asym (Z.to_nat (Graph.size g)) 0 g
              (fun v => wf_tandem g v Hwf)) as (g'' & Hrun' & Hin & Hout).
  unfold Graph.sortEdges in Hrun. rewrite Hrun in Hrun'.
  injection Hrun' as <-.
  destruct (sortEdges_loop_shape _ _ _ _ Hrun)
    as (Hsz & Hn & Hset & _ & Hshape).
  assert (Hrange : forall v src, Graph.edgeSources g !! v = Some src ->
            0 <= v < 0 + Z.of_nat (Z.to_nat (Graph.size g))).
  { intros v src Hs.
    destruct (node_ok_present _ _ _ (Graph.wf_nodes g Hwf v) Hs)
      as (_ & _ & _ & _ & _ & ? & _). lia. }
  assert (Hp : forall v, Graph.pairs g' v ≡ₚ Graph.pairs g v).
  { intros v.
    destruct (decide (0 <= v < 0 + Z.of_nat (Z.to_nat (Graph.size g))))
      as [Hv|Hv]; [by apply Hin|].
    destruct (Hout v Hv) as [Hs Hw]. by rewrite (pairs_ext g g'). }
  assert (Hlen : forall v, length (Graph.w g' v) = length (Graph.adj g' v)).
  { intros v.
    destruct (decide (0 <= v < 0 + Z.of_nat (Z.to_nat (Graph.size g))))
      as [Hv|Hv]; [by apply Hin|].
    destruct (Hout v Hv) as [Hs Hw]. unfold Graph.w, Graph.adj.
    rewrite Hs, Hw. apply (adj_w_length g v Hwf). }
  assert (Ha : forall v, Graph.adj g' v ≡ₚ Graph.adj g v).
  { intros v.
    rewrite <- (fst_zip (Graph.adj g' v) (Graph.w g' v))
      by (rewrite Hlen; lia).
    rewrite <- (fst_zip (Graph.adj g v) (Graph.w g v))
      by (rewrite (adj_w_length g v Hwf); lia).
    apply fmap_Permutation, Hp. }
  assert (Hwf' : Graph.wf g').
  { split.
    - intros v. pose proof (Graph.wf_nodes g Hwf v) as Hok.
      pose proof (Ha v) as Hav. pose proof (Hlen v) as Hlv.
      destruct (Hshape v) as [Hs1 Hs2].
      unfold Graph.node_ok in *. unfold Graph.adj, Graph.w in Hav, Hlv.
      rewrite Hset, Hn, Hsz.
      destruct (Graph.edgeSources g !! v) as [src|],
        (Graph.edgeWeights g !! v) as [wts|],
        (Graph.edgeSourceSet g !! v) as [set|]; try done.
      + destruct (Graph.edgeSources g' !! v) as [src'|];
          [|by destruct Hs1 as [Hs1 _]; specialize (Hs1 eq_refl)].
        destruct (Graph.edgeWeights g' !! v) as [wts'|];
          [|by destruct Hs2 as [Hs2 _]; specialize (Hs2 eq_refl)].
        destruct Hok as (? & ? & ? & Hmem & Hnd).
        rewrite length_fmap in Hlv.
        repeat (split; [done|]). split.
        * intros x. rewrite Hmem. by rewrite Hav.
        * by rewrite Hav.
      + destruct Hs1 as [_ ->]; [|done]. destruct Hs2 as [_ ->]; done.
    - intros u v x. rewrite !Hp. apply (Graph.wf_sym g Hwf). }
  repeat (split; [done|]). intros v Hv. by apply (Hshape v).
Qed.

(** X15. [sortEdges] on a built graph changes the order inside the
    adjacency lists and nothing else: the graph it leaves keeps the
    invariant of built graphs, has the same nodes, at every node the same
    neighbours, and [getEdgeWeight] returns, or throws, as before. *)
Theorem sortEdges_keeps_graph (g g' : Graph.t Float) :
  Graph.built g -> Graph.sortEdges g = Ok g' ->
  Graph.wf g'
  /\ Graph.nodes g' = Graph.nodes g
  /\ (forall v, Graph.adj g' v ≡ₚ Graph.adj g v)
  /\ (forall from to,
        Graph.getEdgeWeight from to g' = Graph.getEdgeWeight from to g).
Proof.
  intros Hb Hrun. pose proof (built_wf g Hb) as Hwf.
  destruct (sortEdges_wf g g' Hb Hrun) as (Hwf' & Hsz & Hn & Hp & Ha & Hnone).
  split; [done|]. split; [done|]. split; [done|].
  intros from to.
  destruct (decide (0 <= intValue from < Graph.size g)) as [Hr|Hr];
    [|by unfold Graph.getEdgeWeight; rewrite Hsz, !aload_out].
  destruct (Graph.edgeSources g !! intValue from) as [src|] eqn:Es.
  - destruct (node_ok_present _ _ _ (Graph.wf_nodes g Hwf _) Es)
      as (_ & _ & _ & _ & Hfrom & _).
    destruct (decide (intValue to ∈ Graph.adj g (intValue from)))
      as [Hin'|Hout'].
    + destruct (adj_pairs g _ _ (Graph.wf_nodes g Hwf _) Hin') as [x Hx].
      rewrite (getEdgeWeight_found g from to x Hwf Hx).
      apply getEdgeWeight_found; [done|]. by rewrite Hp.
    + rewrite (getEdgeWeight_absent g from to Hwf Hfrom Hout').
      apply getEdgeWeight_absent; [done|by rewrite Hn|by rewrite Ha].
  - specialize (Hnone _ Es). unfold Graph.getEdgeWeight. rewrite Hsz.
    rewrite (aload_in (Graph.edgeSources g')),
      (aload_in (Graph.edgeSources g)),
      (aload_in (Graph.edgeWeights g')),
      (aload_in (Graph.edgeWeights g)) by done.
    rewrite Hnone, Es. simpl.
    by destruct (Graph.edgeWeights g' !! intValue from),
      (Graph.edgeWeights g !! intValue from).
Qed.

End SortedGraph.

(** ** [Graph]: adjacency *)

Section Adjacency.
Context {Float : Type} `{Runtime}.

Lemma link_adj (a b : Integer) (weight : Float) (g g' : Graph.t Float) :
  Graph.link a b weight g = Ok g' -> (forall v, Graph.node_ok g v) ->
  (forall v, Graph.node_ok g' v)
  /\ forall v x,
       x ∈ Graph.adj g' v
       <-> x ∈ Graph.adj g v \/ (v = intValue a /\ x = intValue b).
Proof.
  intros Hrun Hok.
  destruct (link_spec _ _ _ _ _ Hrun Hok)
    as [[Hin ->]|(Hnin & Hok' & _ & Ha & _ & Hother)].
  - split; [done|]. intros v x. split; [by left|].
    intros [Hx|[-> ->]]; done.
  - split; [done|]. intros v x.
    destruct (decide (v = intValue a)) as [->|Hne].
    + rewrite Ha, elem_of_app, list_elem_of_singleton. split.
      * intros [Hx| ->]; [by left|by right].
      * intros [Hx|[_ ->]]; [by left|by right].
    + destruct (Hother v Hne) as [-> _]. split; [by left|].
      intros [Hx|[-> _]]; done.
Qed.

(** [addEdge] on the adjacency relation. *)
Lemma addEdge_adj (from to : Integer) (weight : Float)
    (g g' : Graph.t Float) :
  Graph.addEdge from to weight g = Ok g' -> Graph.wf g ->
  forall v x,
    x ∈ Graph.adj g' v
    <-> x ∈ Graph.adj g v
        \/ (same_object from to = false
            /\ ((v = intValue from /\ x = intValue to)
                \/ (v = intValue to /\ x = intValue from))).
Proof.
  unfold Graph.addEdge. intros Hrun Hwf v x.
  destruct (same_object from to); simpl in Hrun.
  - injection Hrun as <-. split; [by left|]. by intros [|[? _]].
  - destruct (Graph.addNode from g) as [g1|] eqn:E1; simpl in Hrun; [|done].
    destruct (Graph.addNode to g1) as [g2|] eqn:E2; simpl in Hrun; [|done].
    destruct (Graph.link from to weight g2) as [g3|] eqn:E3;
      simpl in Hrun; [|done].
    destruct (addNode_spec _ _ _ E1 Hwf) as (Hwf1 & _ & Ha1 & _).
    destruct (addNode_spec _ _ _ E2 Hwf1) as (Hwf2 & _ & Ha2 & _).
    destruct (link_adj _ _ _ _ _ E3 (Graph.wf_nodes _ Hwf2)) as [Hok3 Ha3].
    destruct (link_adj _ _ _ _ _ Hrun Hok3) as [_ Ha4].
    rewrite Ha4, Ha3, Ha2, Ha1. tauto.
Qed.

Lemma valueOf_same heap f t :
  same_object (valueOf heap f).1 (valueOf (valueOf heap f).2 t).1
  = bool_decide (f = t /\ -128 <= f <= 127).
Proof.
  unfold valueOf, same_object.
  destruct ((-128 <=? f) && (f <=? 127)) eqn:Ef;
    destruct ((-128 <=? t) && (t <=? 127)) eqn:Et; simpl.
  - apply andb_true_iff in Ef as [?%Z.leb_le ?%Z.leb_le].
    destruct (Z.eqb_spec f t).
    + by rewrite bool_decide_eq_true_2.
    + rewrite bool_decide_eq_false_2; [done|]. by intros [? _].
  - rewrite bool_decide_eq_false_2; [done|]. intros [-> ?]. congruence.
  - rewrite bool_decide_eq_false_2; [done|]. intros [-> ?]. congruence.
  - replace (heap =? S heap)%nat with false
      by (symmetry; apply Nat.eqb_neq; lia). simpl.
    rewrite bool_decide_eq_false_2; [done|]. intros [_ [? ?]].
    apply andb_false_iff in Ef as [?%Z.leb_gt|?%Z.leb_gt]; lia.
Qed.

Lemma load_loop_adj `{FloatOps Float} (records : list (Z * Z * Float)) :
  forall heap (g g' : Graph.t Float) heap',
  Graph.wf g -> WSI.load_loop records heap g = Ok (g', heap') ->
  forall v x,
    x ∈ Graph.adj g' v
    <-> x ∈ Graph.adj g v
        \/ ((exists y, (v, x, y) ∈ records \/ (x, v, y) ∈ records)
            /\ ~ (v = x /\ -128 <= v <= 127)).
Proof.
  induction records as [|[[f t] y] records IH];
    intros heap g g' heap' Hwf Hrun v x.
  - injection Hrun as <- <-. split; [by left|].
    intros [|[[? [[]%elem_of_nil|[]%elem_of_nil]] _]]; done.
  - cbn [WSI.load_loop] in Hrun.
    pose proof (valueOf_same heap f t) as Hsame.
    pose proof (valueOf_intValue heap f) as Hf.
    destruct (valueOf heap f) as [from heap1]. simpl in Hsame, Hf.
    pose proof (valueOf_intValue heap1 t) as Ht.
    destruct (valueOf heap1 t) as [to heap2]. simpl in Hsame, Ht.
    destruct (Graph.addEdge from to y g) as [g1|] eqn:E; simpl in Hrun;
      [|done].
    destruct (addEdge_spec _ _ _ _ _ E Hwf) as (Hwf1 & _).
    rewrite (IH _ _ _ _ Hwf1 Hrun), (addEdge_adj _ _ _ _ _ E Hwf).
    rewrite Hsame, Hf, Ht. clear IH Hrun E.
    setoid_rewrite elem_of_cons.
    rewrite bool_decide_eq_false. split.
    + intros [[Hx|(Hn & [[-> ->]|[-> ->]])]|[[z Hz] Hc]].
      * by left.
      * right. split; [exists y; left; by left|]. intros [-> ?]. tauto.
      * right. split; [exists y; right; by left|]. intros [-> ?]. tauto.
      * right. split; [|done]. exists z. tauto.
    + intros [Hx|[[z [[Hz|Hz]|[Hz|Hz]]] Hc]].
      * left. by left.
      * injection Hz as -> -> ->. left. right.
        split; [|by left]. intros [-> ?]. tauto.
      * right. split; [|done]. exists z. by left.
      * injection Hz as -> -> ->. left. right.
        split; [|by right]. intros [-> ?]. tauto.
      * right. split; [|done]. exists z. by right.
Qed.

(** X16. In the graph loaded from the records of an edge file, [x] is a
    neighbour of [v] exactly when a record joins [v] and [x], in either
    order, and they are not the same id from -128 to 127: a record [(v, v)]
    gives a self-loop for every other [v]. *)
Theorem loadDistributedGraph_adj `{FloatOps Float}
    (records : list (Z * Z * Float)) (heap heap' : nat) (g : Graph.t Float) :
  WSI.loadDistributedGraph records heap = Ok (g, heap') ->
  forall v x,
    x ∈ Graph.adj g v
    <-> (exists y, (v, x, y) ∈ records \/ (x, v, y) ∈ records)
        /\ ~ (v = x /\ -128 <= v <= 127).
Proof.
  unfold WSI.loadDistributedGraph. intros Hrun v x.
  destruct (Graph.new 200000 220) as [g0|] eqn:E; simpl in Hrun; [|done].
  rewrite (load_loop_adj _ _ _ _ _ (new_wf _ _ _ E) Hrun).
  apply new_Ok in E as [-> _]. unfold Graph.adj at 1. simpl.
  rewrite lookup_empty. split; [|tauto].
  intros [[]%elem_of_nil|]; done.
Qed.



End Adjacency.

(** ** [createTokenGraph] *)

Section EgoNetwork.
Context {Float : Type} `{FloatOps Float} `{Runtime}.

Lemma link_pairs (a b : Integer) (weight : Float) (g g' : Graph.t Float) :
  Graph.link a b weight g = Ok g' -> (forall v, Graph.node_ok g v) ->
  (forall v, Graph.node_ok g' v)
  /\ forall v x y,
       (x, y) ∈ Graph.pairs g' v ->
       (x, y) ∈ Graph.pairs g v
       \/ (v = intValue a /\ x = intValue b /\ y = weight).
Proof.
  intros Hrun Hok.
  destruct (link_spec _ _ _ _ _ Hrun Hok)
    as [[Hin ->]|(Hnin & Hok' & _ & _ & Hp & Hother)].
  - split; [done|]. intros v x y Hx. by left.
  - split; [done|]. intros v x y.
    destruct (decide (v = intValue a)) as [->|Hne].
    + rewrite Hp, elem_of_app, list_elem_of_singleton.
      intros [Hx|[= -> ->]]; [by left|by right].
    + destruct (Hother v Hne) as [_ ->]. by left.
Qed.

(** [addEdge] on the weighted adjacency lists. *)
Lemma addEdge_pairs (from to : Integer) (weight : Float)
    (g g' : Graph.t Float) :
  Graph.addEdge from to weight g = Ok g' -> Graph.wf g ->
  forall v x y,
    (x, y) ∈ Graph.pairs g' v ->
    (x, y) ∈ Graph.pairs g v
    \/ (y = weight
        /\ ((v = intValue from /\ x = intValue to)
            \/ (v = intValue to /\ x = intValue from))).
Proof.
  unfold Graph.addEdge. intros Hrun Hwf v x y.
  destruct (same_object from to); simpl in Hrun.
  - injection Hrun as <-. by left.
  - destruct (Graph.addNode from g) as [g1|] eqn:E1; simpl in Hrun; [|done].
    destruct (Graph.addNode to g1) as [g2|] eqn:E2; simpl in Hrun; [|done].
    destruct (Graph.link from to weight g2) as [g3|] eqn:E3;
      simpl in Hrun; [|done].
    destruct (addNode_spec _ _ _ E1 Hwf) as (Hwf1 & Hp1 & _).
    destruct (addNode_spec _ _ _ E2 Hwf1) as (Hwf2 & Hp2 & _).
    destruct (link_pairs _ _ _ _ _ E3 (Graph.wf_nodes _ Hwf2)) as [Hok3 Hp3].
    destruct (link_pairs _ _ _ _ _ Hrun Hok3) as [_ Hp4].
    intros Hx. apply Hp4 in Hx as [Hx|(-> & -> & ->)]; [|tauto].
    apply Hp3 in Hx as [Hx|(-> & -> & ->)]; [|tauto].
    rewrite Hp2, Hp1 in Hx. by left.
Qed.

Lemma getEdges_entries (g : Graph.t Float) (n : Integer)
    (es : list (Integer * Float)) :
  Graph.wf g -> Graph.getEdges n g = Ok es ->
  (fun e => (intValue e.1, e.2)) <$> es = Graph.pairs g (intValue n).
Proof.
  intros Hwf. unfold Graph.getEdges, Graph.pairs, Graph.adj, Graph.w.
  destruct (aload (Graph.edgeSources g) _ _) as [osrc|] eqn:E1; simpl;
    [|done].
  assert (Hs : osrc = Graph.edgeSources g !! intValue n).
  { revert E1. unfold aload. destruct (_ && _); congruence. }
  subst osrc.
  destruct (Graph.edgeSources g !! intValue n) as [src|] eqn:Es;
    [|by intros [= <-]].
  destruct (node_ok_present _ _ _ (Graph.wf_nodes g Hwf _) Es)
    as (wts & set & Hw & _ & _ & Hr & Hlen & _).
  destruct (aload (Graph.edgeWeights g) _ _) as [ow|] eqn:E2; simpl; [|done].
  assert (Hs : ow = Graph.edgeWeights g !! intValue n).
  { revert E2. unfold aload. destruct (_ && _); congruence. }
  subst ow. rewrite Hw.
  destruct (getEdges_loop_ok src wts 0 ltac:(simpl; lia)) as (es' & He & _).
  clear He.
  assert (Hz : forall i (l : list Integer) (ws : list Float) r,
             Graph.getEdges_loop l i (Some ws) = Ok r ->
             r = zip l (drop i ws)).
  { intros i l. revert i. induction l as [|s l IH]; intros i ws r; simpl.
    - by intros [= <-].
    - unfold list_get. destruct (ws !! i) as [x|] eqn:Ex; simpl; [|done].
      destruct (Graph.getEdges_loop l (S i) (Some ws)) as [r'|] eqn:Er;
        simpl; [|done].
      intros [= <-]. rewrite (drop_S _ _ _ Ex). simpl. f_equal.
      by apply IH. }
  intros Hrun. apply Hz in Hrun as ->. rewrite drop_0.
  clear. revert wts. induction src as [|s src IH]; intros [|x wts]; simpl;
    try done. by rewrite IH.
Qed.

Section Ego.
Variable distributedGraph : Graph.t Float.
Variable node : Z.
Hypothesis D_wf : Graph.wf distributedGraph.

Lemma ego_edges_inside (neighbors : list Integer) (neighbor : Integer) :
  intValue <$> neighbors = Graph.adj distributedGraph node ->
  intValue neighbor ∈ Graph.adj distributedGraph node ->
  forall (fns : list (Integer * Float)) (g g' : Graph.t Float),
  Forall (fun e => (intValue e.1, e.2)
                   ∈ Graph.pairs distributedGraph (intValue neighbor)) fns ->
  inside distributedGraph node g ->
  WSI.ego_edges fns node neighbors neighbor g = Ok g' -> inside distributedGraph node g'.
Proof.
  intros HN Hnb. induction fns as [|[fn wt] fns IH]; intros g g' Hall Hg.
  - by intros [= <-].
  - apply Forall_cons in Hall as [Hfn Hall]. simpl in Hfn.
    cbn [WSI.ego_edges].
    destruct (negb (intValue fn =? node)) eqn:Hne; simpl; [|by apply IH].
    case_bool_decide as Hmem; [|by apply IH].
    destruct (Graph.addEdge neighbor fn wt g) as [g1|] eqn:E; simpl; [|done].
    apply IH; [done|]. clear IH.
    destruct Hg as (Hb & Hnodes & Hpairs).
    apply negb_true_iff, Z.eqb_neq in Hne. rewrite HN in Hmem.
    split; [by eapply Graph.built_addEdge|]. split.
    + intros v. rewrite (addEdge_node_set _ _ _ _ _ E).
      destruct (same_object neighbor fn).
      * rewrite elem_of_union. intros [[]%not_elem_of_empty|]; auto.
      * rewrite !elem_of_union, !elem_of_singleton.
        intros [[->| ->]|]; auto.
    + intros v x y Hx.
      apply (addEdge_pairs _ _ _ _ _ E (built_wf _ Hb)) in Hx
        as [Hx|(-> & [[-> ->]|[-> ->]])].
      * by apply Hpairs.
      * repeat split; try done. by right.
      * split; [by apply (Graph.wf_sym _ D_wf)|].
        repeat split; try done. by left.
Qed.

Lemma ego_neighbors_inside maxConnectivity (neighbors : list Integer) :
  intValue <$> neighbors = Graph.adj distributedGraph node ->
  forall (firsts : list Integer) (g g' : Graph.t Float),
  firsts ⊆ neighbors -> inside distributedGraph node g ->
  WSI.ego_neighbors distributedGraph maxConnectivity firsts node neighbors g
    = Ok g' ->
  inside distributedGraph node g'.
Proof.
  intros HN. induction firsts as [|nb firsts IH]; intros g g' Hsub Hg.
  - by intros [= <-].
  - cbn [WSI.ego_neighbors].
    destruct (Graph.getEdges nb distributedGraph) as [fns|] eqn:Ee; simpl;
      [|done].
    destruct (WSI.ego_edges _ node neighbors nb g) as [g1|] eqn:E1; simpl;
      [|done].
    apply IH.
    + intros x Hx. apply Hsub. by right.
    + eapply (ego_edges_inside neighbors nb HN); [| |exact Hg|exact E1].
      * rewrite <- HN. apply list_elem_of_fmap_2, Hsub. by left.
      * apply Forall_forall. intros e He.
        rewrite <- (getEdges_entries _ _ _ D_wf Ee).
        apply (list_elem_of_fmap_2 (fun e => (intValue e.1, e.2))).
        eapply subseteq_take, He.
Qed.

End Ego.

Lemma getNeighbors_adj (g : Graph.t Float) (boxed : Integer)
    (neighbors : list Integer) :
  Graph.getNeighbors boxed g = Ok neighbors ->
  intValue <$> neighbors = Graph.adj g (intValue boxed).
Proof.
  unfold Graph.getNeighbors, Graph.adj.
  destruct (aload _ _ _) as [osrc|] eqn:E1; simpl; [|done].
  assert (Hs : osrc = Graph.edgeSources g !! intValue boxed).
  { revert E1. unfold aload. destruct (_ && _); congruence. }
  subst osrc. destruct (_ !! _); by intros [= <-].
Qed.

Lemma new_inside (distributedGraph : Graph.t Float) (node : Z)
    initialSize perNode (g : Graph.t Float) :
  Graph.new initialSize perNode = Ok g -> inside distributedGraph node g.
Proof.
  intros Hnew. split; [by apply (Graph.built_new initialSize perNode)|].
  apply new_Ok in Hnew as [-> _].
  split; [intros v []%not_elem_of_empty|].
  intros v x y. unfold Graph.pairs, Graph.adj. simpl.
  rewrite lookup_empty. by intros []%elem_of_nil.
Qed.

(** X18. The ego network [createTokenGraph] returns for a base node is a
    built graph inside the distributed graph: its nodes are neighbours of
    the base node, and its edges are edges of the distributed graph between
    two of them, with the weights they have there; no edge has the base node
    at both ends. *)
Theorem createTokenGraph_inside (distributedGraph : Graph.t Float)
    (maxEdges maxConnectivity node : Z) (heap heap' : nat)
    (g : Graph.t Float) :
  Graph.wf distributedGraph ->
  WSI.createTokenGraph distributedGraph maxEdges maxConnectivity node heap
    = Ok (g, heap') ->
  inside distributedGraph node g.
Proof.
  intros HD. unfold WSI.createTokenGraph.
  destruct (Graph.new 10 10) as [g0|] eqn:E0; simpl; [|done].
  pose proof (valueOf_intValue heap node) as Hv.
  destruct (valueOf heap node) as [boxed heap1]. simpl in Hv.
  destruct (Graph.getNeighbors boxed distributedGraph) as [neighbors|]
    eqn:En; simpl; [|done].
  destruct (WSI.ego_neighbors _ _ _ _ _ _) as [g1|] eqn:Eg; simpl; [|done].
  intros [= <- <-].
  apply getNeighbors_adj in En. rewrite Hv in En.
  eapply (ego_neighbors_inside distributedGraph node HD
            maxConnectivity neighbors En); [| |exact Eg].
  - apply subseteq_take.
  - by eapply new_inside.
Qed.

End EgoNetwork.

(** ** The worker: [chineseWhispers], [findClusters], [run] *)

Section Labels.
Context {Float : Type} `{FloatOps Float} `{Runtime}.
Variable shuffle : nat -> list Integer -> list Integer.
Variable keyOrder :
  list (option Integer * Float) -> list (option Integer * Float).
Hypothesis shuffle_perm : forall z l, shuffle z l ≡ₚ l.
Hypothesis keyOrder_perm : forall l, keyOrder l ≡ₚ l.

Lemma relabelled_refl (g : Graph.t Float) : relabelled g g.
Proof. by repeat split. Qed.

Lemma relabelled_trans (g1 g2 g3 : Graph.t Float) :
  relabelled g1 g2 -> relabelled g2 g3 -> relabelled g1 g3.
Proof.
  intros (? & ? & ? & ? & ?) (? & ? & ? & ? & ?).
  repeat split; congruence.
Qed.

Lemma relabelled_wf (g g' : Graph.t Float) :
  relabelled g g' -> Graph.wf g -> Graph.wf g'.
Proof.
  intros (Hs & Hn & Hset & Hsrc & Hw) [Hok Hsym]. split.
  - intros v. apply (node_ok_ext g); [lia|done|congruence..|apply Hok].
  - intros u v x. rewrite !(pairs_ext g g') by congruence. apply Hsym.
Qed.

Lemma setNodeClass_frame (node : Integer) (c : option Integer)
    (g g' : Graph.t Float) :
  Graph.setNodeClass node c g = Ok g' ->
  relabelled g g'
  /\ (forall v, v <> intValue node ->
        Graph.nodeClasses g' !! v = Graph.nodeClasses g !! v)
  /\ (intValue node < Graph.size g ->
      Graph.nodeClasses g' !! intValue node = c).
Proof.
  unfold Graph.setNodeClass.
  destruct (intValue node <? Graph.size g) eqn:Hlt.
  - destruct (0 <=? intValue node); [|done]. intros [= <-]. simpl.
    split; [by repeat split|]. split.
    + intros v Hv.
      destruct c; [by rewrite lookup_insert_ne|by rewrite lookup_delete_ne].
    + intros _.
      destruct c; [by rewrite lookup_insert_eq|by rewrite lookup_delete_eq].
  - intros [= <-]. split; [apply relabelled_refl|]. split; [done|].
    apply Z.ltb_ge in Hlt. lia.
Qed.

Lemma wf_present_range (g : Graph.t Float) v :
  Graph.wf g -> v ∈ Graph.nodes g -> 0 <= v < Graph.size g.
Proof.
  intros Hwf Hv.
  destruct (node_ok_in_nodes _ _ (Graph.wf_nodes g Hwf v) Hv) as [src Hsrc].
  by destruct (node_ok_present _ _ _ (Graph.wf_nodes g Hwf v) Hsrc)
    as (_ & _ & _ & _ & _ & ? & _).
Qed.

Lemma init_classes_frame (n : list Integer) :
  forall i heap (g g' : Graph.t Float) heap',
  WSI.init_classes n i heap g = Ok (g', heap') ->
  relabelled g g'
  /\ forall v,
       is_Some (Graph.nodeClasses g !! v)
       \/ (v ∈ intValue <$> n /\ v < Graph.size g) ->
       is_Some (Graph.nodeClasses g' !! v).
Proof.
  induction n as [|node rest IH]; intros i heap g g' heap'.
  - intros [= <- <-]. split; [apply relabelled_refl|].
    intros v [Hv|[[]%elem_of_nil _]]. done.
  - cbn [WSI.init_classes]. destruct (valueOf heap i) as [c heap1].
    destruct (Graph.setNodeClass node (Some c) g) as [g1|] eqn:E; simpl;
      [|done].
    intros Hrun. apply IH in Hrun as [Hr Hc].
    destruct (setNodeClass_frame _ _ _ _ E) as (Hr1 & Hother & Hself).
    split; [by eapply relabelled_trans|]. intros v Hv. apply Hc.
    destruct (decide (v = intValue node)) as [->|Hne].
    + destruct Hv as [Hv|[_ Hlt]].
      * destruct (decide (intValue node < Graph.size g)) as [Hlt|Hge].
        -- left. by rewrite Hself.
        -- left. revert E. unfold Graph.setNodeClass.
           replace (intValue node <? Graph.size g) with false
             by (symmetry; apply Z.ltb_ge; lia).
           by intros [= <-].
      * left. by rewrite Hself.
    + rewrite (Hother v Hne). destruct Hv as [Hv|[Hv Hlt]]; [by left|].
      right. destruct Hr1 as (-> & _). split; [|done].
      change (v ∈ intValue node :: (intValue <$> rest)) in Hv.
      apply elem_of_cons in Hv as [?|?]; done.
Qed.

Lemma hm_put_keys (m : list (option Integer * Float)) k (x : Float) :
  Forall (fun e => is_Some e.1) m -> is_Some k ->
  Forall (fun e => is_Some e.1) (WSI.hm_put m k x).
Proof.
  intros Hm Hk. induction Hm as [|[k' v'] m Hk' Hm IH]; simpl.
  - by repeat constructor.
  - destruct (WSI.key_eq k' k); constructor; done.
Qed.

Lemma sum_classes_keys (neighbors : list (Integer * Float))
    (g : Graph.t Float) :
  forall classes classes',
  WSI.sum_classes neighbors g classes = Ok classes' ->
  Forall (fun e => 0 <= intValue e.1 < Graph.size g
                   /\ is_Some (Graph.nodeClasses g !! intValue e.1))
    neighbors ->
  Forall (fun e => is_Some e.1) classes ->
  Forall (fun e => is_Some e.1) classes'.
Proof.
  induction neighbors as [|[nb wt] rest IH]; intros classes classes'.
  - by intros [= <-].
  - cbn [WSI.sum_classes]. intros Hrun Hall Hc.
    apply Forall_cons in Hall as [[Hr Hcls] Hall]. simpl in Hr, Hcls.
    unfold Graph.getNodeClass in Hrun.
    replace (intValue nb <? Graph.size g) with true in Hrun
      by (symmetry; apply Z.ltb_lt; lia).
    rewrite aload_in in Hrun by done. simpl in Hrun.
    eapply IH; [exact Hrun|done|].
    destruct (WSI.hm_get classes _); by apply hm_put_keys.
Qed.

Lemma max_class_some (entries : list (option Integer * Float)) :
  forall max mc,
  Forall (fun e => is_Some e.1) entries -> is_Some mc ->
  is_Some (WSI.max_class entries max mc).
Proof.
  induction entries as [|[c sum] rest IH]; intros max mc Hall Hmc; [done|].
  apply Forall_cons in Hall as [Hc Hall]. simpl.
  destruct (Fgt sum max); by apply IH.
Qed.

Lemma sweep_frame (nodes : list Integer) :
  forall (g g' : Graph.t Float) changed changed',
  WSI.sweep keyOrder nodes g changed = Ok (g', changed') ->
  Graph.wf g -> labelled g ->
  relabelled g g' /\ labelled g'.
Proof.
  induction nodes as [|node rest IH]; intros g g' changed changed'.
  - intros [= <- <-] _ Hl. split; [apply relabelled_refl|done].
  - cbn [WSI.sweep]. intros Hrun Hwf Hl.
    destruct (Graph.getEdges node g) as [es|] eqn:Ee; simpl in Hrun; [|done].
    destruct (WSI.sum_classes es g []) as [classes|] eqn:Ec; simpl in Hrun;
      [|done].
    destruct (Graph.getNodeClass node g) as [cls|]; simpl in Hrun; [|done].
    destruct (negb _); [|by eapply IH].
    destruct (Graph.setNodeClass node _ g) as [g1|] eqn:Es; simpl in Hrun;
      [|done].
    destruct (setNodeClass_frame _ _ _ _ Es) as (Hr1 & Hother & Hself).
    assert (Hmax : is_Some (WSI.max_class (keyOrder classes) Fminus10000
                              (Some (mkInteger None 0)))).
    { apply max_class_some; [|done]. rewrite keyOrder_perm.
      eapply sum_classes_keys; [exact Ec| |constructor].
      apply Forall_forall. intros e He.
      assert (Hin : intValue e.1 ∈ Graph.adj g (intValue node)).
      { eapply pairs_adj. rewrite <- (getEdges_entries _ _ _ Hwf Ee).
        apply (list_elem_of_fmap_2 (fun e => (intValue e.1, e.2))), He. }
      destruct (adj_present _ _ _ Hwf Hin) as (_ & Hp & _ & Hr).
      split; [done|by apply Hl]. }
    assert (Hl1 : labelled g1).
    { intros v Hv. destruct Hr1 as (Hs1 & Hn1 & _). rewrite Hn1 in Hv.
      destruct (decide (v = intValue node)) as [->|Hne].
      - rewrite Hself; [done|]. by apply wf_present_range.
      - rewrite Hother by done. by apply Hl. }
    destruct (IH _ _ _ _ Hrun (relabelled_wf _ _ Hr1 Hwf) Hl1) as [Hr2 Hl2].
    split; [by eapply relabelled_trans|done].
Qed.

Lemma cw_loop_frame :
  forall cnt z changed (g g' : Graph.t Float) heap heap',
  snd (WSI.cw_loop shuffle keyOrder cnt z changed g heap) = Ok (g', heap') ->
  Graph.wf g -> labelled g ->
  relabelled g g' /\ labelled g'.
Proof.
  induction cnt as [|cnt IH]; intros z changed g g' heap heap'; simpl.
  - intros [= <- <-] _ Hl. split; [apply relabelled_refl|done].
  - destruct changed; simpl;
      [|intros [= <- <-] _ Hl; split; [apply relabelled_refl|done]].
    destruct (Graph.getNodes g heap) as [nodes heap1].
    destruct (WSI.sweep keyOrder (shuffle z nodes) g false)
      as [[g1 changed1]|] eqn:Es; [|done].
    specialize (IH (S z) changed1 g1 g' heap1 heap').
    destruct (WSI.cw_loop shuffle keyOrder cnt (S z) changed1 g1 heap1).
    simpl in *. intros Hrun Hwf Hl.
    destruct (sweep_frame _ _ _ _ _ Es Hwf Hl) as [Hr1 Hl1].
    destruct (IH Hrun (relabelled_wf _ _ Hr1 Hwf) Hl1) as [Hr2 Hl2].
    split; [by eapply relabelled_trans|done].
Qed.

Lemma chineseWhispers_frame maxIterations (g g' : Graph.t Float) heap heap' :
  snd (WSI.chineseWhispers maxIterations shuffle keyOrder g heap)
    = Ok (g', heap') ->
  Graph.wf g ->
  relabelled g g' /\ labelled g'.
Proof.
  unfold WSI.chineseWhispers. intros Hrun Hwf.
  pose proof (getNodes_loop_values g (Z.to_nat (Graph.size g)) 0 heap) as Hv.
  unfold Graph.getNodes in Hrun.
  destruct (Graph.getNodes_loop _ 0 g heap) as [n heap1]. simpl in Hv.
  destruct (WSI.init_classes n 1 heap1 g) as [[g1 heap2]|] eqn:Ei; [|done].
  destruct (init_classes_frame _ _ _ _ _ _ Ei) as [Hr1 Hc1].
  assert (Hl1 : labelled g1).
  { intros v Hin. destruct Hr1 as (_ & Hn1 & _). rewrite Hn1 in Hin.
    apply Hc1. right. pose proof (wf_present_range g v Hwf Hin).
    split; [|lia]. rewrite Hv. apply list_elem_of_filter. split; [done|].
    apply elem_of_seqZ. lia. }
  destruct (cw_loop_frame _ _ _ _ _ _ _ Hrun (relabelled_wf _ _ Hr1 Hwf) Hl1)
    as [Hr2 Hl2].
  split; [by eapply relabelled_trans|done].
Qed.


(** *** [findClusters] returns *)





(** *** [createTokenGraph] returns *)





(** *** What the clusters hold *)




Section Members.
Variable tokenGraph : Graph.t Float.
Variable weights : list (option Integer * Float).
Variable P : Integer -> Prop.




End Members.



(** *** [Worker.run] *)

Section Run.
Variable distributedGraph : Graph.t Float.
Variables maxEdges maxConnectivity maxIterations minCluster : Z.
Variable setOrder : list Integer -> list Integer.
Hypothesis setOrder_perm : forall l, setOrder l ≡ₚ l.
Hypothesis D_wf : Graph.wf distributedGraph.
Hypothesis D_int : Graph.size distributedGraph <= 2 ^ 31 - 1.
(** The VM grants what an ego network asks for: the arrays and hash sets of
    [new Graph()], and arrays twice as long as those of the distributed
    graph. *)
Hypothesis V_new : 10 <= array_limit.
Hypothesis V_set : hash_set_alloc 10 = None.
Hypothesis V_room : 2 * Graph.size distributedGraph <= array_limit.


Lemma chineseWhispers_ok (g : Graph.t Float) heap :
  Graph.wf g ->
  exists out,
    snd (WSI.chineseWhispers maxIterations shuffle keyOrder g heap) = Ok out.
Proof.
  intros Hwf. unfold WSI.chineseWhispers, Graph.getNodes.
  pose proof (getNodes_loop_present g (Z.to_nat (Graph.size g)) 0 heap)
    as Hp.
  destruct (Graph.getNodes_loop _ 0 g heap) as [n heap1]. simpl in Hp.
  destruct (init_classes_ok n 1 heap1 g (wf_sweepable g Hwf) Hp)
    as (g1 & heap2 & -> & Hg1).
  by apply cw_loop_ok.
Qed.




End Run.

(** X19. [chineseWhispers] on a network that keeps the invariant of built
    graphs returns; the network it leaves differs in the node classes only,
    and every present node has a class. *)
Theorem chineseWhispers_labels (maxIterations : Z) (g : Graph.t Float)
    (heap : nat) :
  Graph.wf g ->
  exists g' heap',
    snd (WSI.chineseWhispers maxIterations shuffle keyOrder g heap)
      = Ok (g', heap')
    /\ relabelled g g' /\ labelled g'.
Proof.
  intros Hwf.
  destruct (chineseWhispers_ok maxIterations g heap Hwf)
    as [[g' heap'] Hrun].
  exists g', heap'. split; [done|]. by eapply chineseWhispers_frame.
Qed.

End Labels.

(** ** [calculateSenses]: the ranges of the workers *)

(** X21. For [n] nodes and at least one worker the ranges
    [batchStart .. batchEnd) of the workers follow one another from 0 to
    [n]: each is inside [0, n], the first starts at 0, the last ends at
    [n], and every other one has [n / numWorkers] base nodes and ends where
    the next starts. *)
Theorem worker_ranges (n numWorkers i : Z) :
  0 <= n -> 0 < numWorkers -> 0 <= i < numWorkers ->
  0 <= WSI.batchStart n numWorkers i <= WSI.batchEnd n numWorkers i
  /\ WSI.batchEnd n numWorkers i <= n
  /\ WSI.batchStart n numWorkers 0 = 0
  /\ WSI.batchEnd n numWorkers (numWorkers - 1) = n
  /\ (i + 1 < numWorkers ->
      WSI.batchEnd n numWorkers i = WSI.batchStart n numWorkers (i + 1)
      /\ WSI.batchEnd n numWorkers i - WSI.batchStart n numWorkers i
         = Z.quot n numWorkers).
Proof.
  intros Hn Hw Hi. unfold WSI.batchStart, WSI.batchEnd, WSI.batchSize.
  rewrite Z.quot_div_nonneg by lia.
  pose proof (Z.div_mod n numWorkers ltac:(lia)) as Hdm.
  pose proof (Z.mod_pos_bound n numWorkers Hw) as Hm.
  assert (Hq : 0 <= n / numWorkers) by (apply Z.div_pos; lia).
  rewrite Z.eqb_refl.
  destruct (Z.eqb_spec i (numWorkers - 1)) as [->|Hne].
  - split; [nia|]. split; [lia|]. split; [lia|]. split; [done|]. lia.
  - split; [nia|]. split; [nia|]. split; [lia|]. split; [done|].
    intros _. split; [done|]. lia.
Qed.

(** ** [export_distributed_graph] and [calculate_edges]: the batches *)

Section Batches.








End Batches.

(** ** The emission loop of [calculate_edges] *)

Lemma read_insert {A : Type} (a : list A) s i x :
  0 <= s ->
  read (<[Z.to_nat s := x]> a) i
  = if decide (i = s /\ s < Z.of_nat (length a)) then Ok x else read a i.
Proof.
  intros Hs. unfold read. destruct (Z.leb_spec0 0 i) as [Hi|Hi].
  - destruct (decide (i = s /\ s < Z.of_nat (length a))) as [[-> Hlt]|Hne].
    + by rewrite list_lookup_insert_eq by lia.
    + destruct (decide (i = s)) as [->|Hne'].
      * rewrite !lookup_ge_None_2; [done|lia|rewrite length_insert; lia].
      * rewrite list_lookup_insert_ne by lia. done.
  - destruct (decide _) as [[-> _]|]; [lia|done].
Qed.

Section Emission.
Variables (c_nearest : list Z) (c_sim : list REAL_t) (start_index i n : Z).
#[local] Abbreviation token := (start_index + i).

(** The three stores of a turn fill one slot. *)
Lemma store_edge (edges edges' : list GraphEdge) (slot to : Z) :
  (edges1 <- store_field edges slot (set_from_index token) ;;
   edges2 <- store_field edges1 slot (set_to_index to) ;;
   w <- read c_sim to ;;
   store_field edges2 slot (set_weight w)) = Ok edges' ->
  0 <= slot < Z.of_nat (length edges)
  /\ 0 <= to < Z.of_nat (length c_sim)
  /\ edges' = <[Z.to_nat slot :=
                 {| from_index := token; to_index := to;
                    weight := nth (Z.to_nat to) c_sim (Finite 0) |}]> edges.
Proof.
  unfold store_field at 1.
  destruct (read edges slot) as [e|] eqn:Er; [|done]. cbn [bind].
  destruct (read_inv _ _ _ e Er) as [Hslot _].
  rewrite write_ok by done. cbn [bind]. unfold store_field at 1.
  rewrite (read_ok _ _ e) by (rewrite length_insert; lia). cbn [bind].
  rewrite write_ok by (rewrite length_insert; lia). cbn [bind].
  destruct (read c_sim to) as [w|] eqn:Ew; [|done]. cbn [bind].
  destruct (read_inv _ _ _ (Finite 0) Ew) as [Hto ->].
  unfold store_field.
  rewrite (read_ok _ _ e) by (rewrite !length_insert; lia). cbn [bind].
  rewrite write_ok by (rewrite !length_insert; lia). intros [= <-].
  split; [done|]. split; [done|].
  rewrite !list_insert_insert_eq. f_equal.
  rewrite !nth_insert by (rewrite ?length_insert; lia).
  rewrite !decide_True by done. reflexivity.
Qed.

Lemma emit_offset_range j : -1 <= emit_offset c_nearest token j <= 0.
Proof. unfold emit_offset. destruct (decide _); lia. Qed.

Lemma emit_offset_step j :
  0 <= j < Z.of_nat (length c_nearest) ->
  emit_offset c_nearest token j
  = if entry c_nearest j =? token then -1
    else emit_offset c_nearest token (j - 1).
Proof.
  intros Hj. unfold emit_offset, entry.
  replace (Z.to_nat (j + 1)) with (S (Z.to_nat j)) by lia.
  replace (Z.to_nat (j - 1 + 1)) with (Z.to_nat j) by lia.
  destruct (lookup_lt_is_Some_2 c_nearest (Z.to_nat j) ltac:(lia)) as [x Hx].
  rewrite (take_S_r _ _ _ Hx), (nth_lookup_Some _ _ _ _ Hx).
  destruct (Z.eqb_spec x token) as [->|Hne].
  - rewrite decide_True; [done|]. apply elem_of_app. right.
    apply list_elem_of_here.
  - destruct (decide (token ∈ take (Z.to_nat j) c_nearest)) as [Hin|Hout].
    + rewrite decide_True; [done|]. apply elem_of_app. by left.
    + rewrite decide_False; [done|].
      intros [?|?%list_elem_of_singleton]%elem_of_app; done.
Qed.

Lemma emit_offset_mono j j' :
  j <= j' -> emit_offset c_nearest token j' <= emit_offset c_nearest token j.
Proof.
  intros Hj. unfold emit_offset.
  destruct (decide (token ∈ take (Z.to_nat (j + 1)) c_nearest)) as [Hin|Hout].
  - rewrite decide_True; [lia|].
    replace (take (Z.to_nat (j + 1)) c_nearest)
      with (take (Z.to_nat (j + 1)) (take (Z.to_nat (j' + 1)) c_nearest))
      in Hin by (rewrite take_take; f_equal; lia).
    by eapply subseteq_take.
  - destruct (decide _); lia.
Qed.

Lemma emit_slot_later j j' :
  j < j' ->
  emit_slot c_nearest token n (j + 1) <> emit_slot c_nearest token n j ->
  emit_slot c_nearest token n j < emit_slot c_nearest token n j'.
Proof.
  intros Hj Hne.
  destruct (decide (j' = j + 1)) as [->|Hfar].
  { revert Hne. unfold emit_slot.
    pose proof (emit_offset_mono j (j + 1) ltac:(lia)).
    pose proof (emit_offset_range j).
    pose proof (emit_offset_range (j + 1)). lia. }
  unfold emit_slot in *.
  pose proof (emit_offset_mono j (j + 1) ltac:(lia)).
  pose proof (emit_offset_mono (j + 1) j' ltac:(lia)).
  pose proof (emit_offset_range j). pose proof (emit_offset_range (j + 1)).
  pose proof (emit_offset_range j'). lia.
Qed.

Lemma emit_loop_spec :
  forall cnt j (edges edges' : list GraphEdge),
  0 <= j ->
  emit_loop cnt j (emit_offset c_nearest token (j - 1)) start_index i n
    c_nearest c_sim edges = Ok edges' ->
  length edges' = length edges
  /\ j + Z.of_nat cnt <= Z.max j (Z.of_nat (length c_nearest))
  /\ (forall j', j <= j' < j + Z.of_nat cnt ->
        INT_MIN <= token <= INT_MAX
        /\ INT_MIN <= emit_slot c_nearest token n j' <= INT_MAX
        /\ 0 <= emit_slot c_nearest token n j' < Z.of_nat (length edges))
  /\ (forall s,
        (forall j', j <= j' < j + Z.of_nat cnt ->
                    emit_slot c_nearest token n j' <> s) ->
        read edges' s = read edges s)
  /\ (forall j', j <= j' < j + Z.of_nat cnt ->
        (j' + 1 < j + Z.of_nat cnt ->
         emit_slot c_nearest token n (j' + 1)
         <> emit_slot c_nearest token n j') ->
        read edges' (emit_slot c_nearest token n j')
        = Ok (emitted c_nearest c_sim token j')).
Proof.
  induction cnt as [|cnt IH]; intros j edges edges' Hj.
  - intros [= <-]. split; [done|]. split; [lia|].
    split; [intros j' Hj'; lia|]. split; [done|].
    intros j' Hj'. lia.
  - cbn [emit_loop].
    destruct (read c_nearest j) as [to|] eqn:Er; [|done]. cbn [bind].
    destruct (read_inv _ _ _ 0 Er) as [Hjr Hto]. fold (entry c_nearest j) in Hto.
    subst to. unfold int_add, int_mul.
    destruct (int_of token) as [tk|] eqn:Et; [|done]. cbn [bind].
    apply int_of_inv in Et as [-> Htk].
    rewrite <- (emit_offset_step j Hjr).
    destruct (int_of (token * n)) as [base|] eqn:Eb; [|done]. cbn [bind].
    apply int_of_inv in Eb as [-> _].
    destruct (int_of (token * n + j)) as [at_j|] eqn:Ea; [|done]. cbn [bind].
    apply int_of_inv in Ea as [-> _].
    destruct (int_of (token * n + j + emit_offset c_nearest token j))
      as [slot|] eqn:Es; [|done]. cbn [bind].
    apply int_of_inv in Es as [Hs Hint].
    fold (emit_slot c_nearest token n j) in Hs, Hint. subst slot.
    set (slot := emit_slot c_nearest token n j) in *.
    destruct (store_field edges slot (set_from_index token)) as [e1|] eqn:E1;
      [|done]. cbn [bind].
    destruct (store_field e1 slot (set_to_index (entry c_nearest j)))
      as [e2|] eqn:E2; [|done]. cbn [bind].
    destruct (read c_sim (entry c_nearest j)) as [w|] eqn:Ew; [|done].
    cbn [bind].
    destruct (store_field e2 slot (set_weight w)) as [e3|] eqn:E3; [|done].
    cbn [bind].
    destruct (store_edge edges e3 slot (entry c_nearest j))
      as (Hslot & _ & He3).
    { rewrite E1. cbn [bind]. rewrite E2. cbn [bind]. rewrite Ew. done. }
    fold (emitted c_nearest c_sim token j) in He3.
    replace (emit_offset c_nearest token j)
      with (emit_offset c_nearest token (j + 1 - 1)) by (f_equal; lia).
    intros Hrun.
    apply IH in Hrun as (Hlen & Hcn & Hin & Hframe & Hcontent); [|lia].
    rewrite He3, length_insert in Hlen. split; [done|]. split; [lia|].
    split; [|split].
    + intros j' Hj'. destruct (decide (j' = j)) as [->|Hne]; [done|].
      destruct (Hin j' ltac:(lia)) as (? & ? & Hb).
      rewrite He3, length_insert in Hb. done.
    + intros s Hs. rewrite Hframe by (intros j' Hj'; apply Hs; lia).
      rewrite He3, read_insert by lia.
      rewrite decide_False; [done|]. intros [-> _].
      by apply (Hs j ltac:(lia)).
    + intros j' Hj' Hnext. destruct (decide (j' = j)) as [->|Hne].
      * rewrite Hframe.
        -- rewrite He3, read_insert by lia. by rewrite decide_True by lia.
        -- intros j'' Hj''. fold slot.
           pose proof (emit_slot_later j j'' ltac:(lia)
                         (Hnext ltac:(lia))) as Hlater.
           fold slot in Hlater. lia.
      * apply Hcontent; [lia|]. intros Hlt. apply Hnext. lia.
Qed.

(** The whole loop, as [emit_loop_spec] has it. *)
Lemma emit_loop_whole (edges edges' : list GraphEdge) :
  0 <= n ->
  emit_loop (Z.to_nat (n + 1)) 0 0 start_index i n c_nearest c_sim edges
    = Ok edges' ->
  length edges' = length edges
  /\ n < Z.of_nat (length c_nearest)
  /\ (forall j, 0 <= j <= n ->
        INT_MIN <= token <= INT_MAX
        /\ INT_MIN <= emit_slot c_nearest token n j <= INT_MAX
        /\ 0 <= emit_slot c_nearest token n j < Z.of_nat (length edges))
  /\ (forall s,
        (forall j, 0 <= j <= n -> emit_slot c_nearest token n j <> s) ->
        read edges' s = read edges s)
  /\ (forall j, 0 <= j <= n ->
        (j < n -> emit_slot c_nearest token n (j + 1)
                  <> emit_slot c_nearest token n j) ->
        read edges' (emit_slot c_nearest token n j)
        = Ok (emitted c_nearest c_sim token j)).
Proof.
  intros Hn Hrun.
  assert (H0 : emit_offset c_nearest token (0 - 1) = 0).
  { unfold emit_offset. destruct (decide _) as [Hin|]; [|done].
    simpl in Hin. by apply elem_of_nil in Hin. }
  rewrite <- H0 in Hrun.
  apply emit_loop_spec in Hrun as (Hlen & Hcn & Hin & Hframe & Hcontent);
    [|lia].
  rewrite Z2Nat.id in Hcn, Hin, Hframe, Hcontent by lia.
  split; [done|]. split; [lia|]. split; [|split].
  - intros j Hj. apply Hin. lia.
  - intros s Hs. apply Hframe. intros j Hj. apply Hs. lia.
  - intros j Hj Hnext. apply Hcontent; [lia|]. intros Hlt. apply Hnext. lia.
Qed.

(** X23. The emission of the edges of the token [start_index + i], when it
    returns: the token and every slot index it computed are [int]s and the
    slots lie inside the edge array; no store falls outside the slots
    [token * n - 1 .. token * n + n]; turn [j] stores the edge to
    [c_nearest[j]] in slot [token * n + j], one slot lower from the turn on
    that meets the token itself, and the edge is there at the end unless
    the next turn stores into the same slot; the edge from the token to
    itself is stored like the others, in the slot before its position. *)
Theorem emit_loop_slots (edges edges' : list GraphEdge) :
  0 <= n ->
  emit_loop (Z.to_nat (n + 1)) 0 0 start_index i n c_nearest c_sim edges
    = Ok edges' ->
  length edges' = length edges
  /\ INT_MIN <= token <= INT_MAX
  /\ (forall j, 0 <= j <= n ->
        INT_MIN <= emit_slot c_nearest token n j <= INT_MAX
        /\ 0 <= emit_slot c_nearest token n j < Z.of_nat (length edges))
  /\ (forall s, s < token * n - 1 \/ token * n + n < s ->
        read edges' s = read edges s)
  /\ (forall j, 0 <= j <= n ->
        (j < n -> emit_slot c_nearest token n (j + 1)
                  <> emit_slot c_nearest token n j) ->
        read edges' (emit_slot c_nearest token n j)
        = Ok (emitted c_nearest c_sim token j))
  /\ (forall p, 0 <= p <= n -> entry c_nearest p = token ->
        read edges' (token * n + p - 1)
        = Ok {| from_index := token; to_index := token;
                weight := nth (Z.to_nat token) c_sim (Finite 0) |}).
Proof.
  intros Hn Hrun.
  destruct (emit_loop_whole edges edges' Hn Hrun)
    as (Hlen & Hcn & Hin & Hframe & Hcontent).
  split; [done|]. split; [by destruct (Hin 0 ltac:(lia))|].
  split; [intros j Hj; by destruct (Hin j Hj) as (_ & ? & ?)|].
  split; [|split; [done|]].
  - intros s Hs. apply Hframe. intros j Hj. unfold emit_slot.
    pose proof (emit_offset_range j). lia.
  - intros p Hp Hself.
    assert (Hoff : forall j, p <= j -> emit_offset c_nearest token j = -1).
    { intros j Hj. pose proof (emit_offset_mono p j Hj) as Hm.
      pose proof (emit_offset_range j).
      rewrite (emit_offset_step p) in Hm by lia.
      rewrite Hself, Z.eqb_refl in Hm. lia. }
    specialize (Hcontent p ltac:(lia)). unfold emit_slot in Hcontent.
    rewrite !Hoff in Hcontent by lia.
    replace (token * n + p - 1) with (token * n + p + -1) by lia.
    rewrite Hcontent by lia. unfold emitted. by rewrite Hself.
Qed.

End Emission.

(** ** One turn of the batch loop *)

Section Row.

Lemma copy_row_spec (c_similar : list REAL_t) (batch_size i : Z) :
  forall cnt j (c_sim c_sim' : list REAL_t),
  0 <= j ->
  copy_row cnt j c_similar batch_size i c_sim = Ok c_sim' ->
  length c_sim' = length c_sim
  /\ j + Z.of_nat cnt <= Z.max j (Z.of_nat (length c_sim))
  /\ (forall k, j <= k < j + Z.of_nat cnt ->
        INT_MIN <= k * batch_size + i <= INT_MAX
        /\ 0 <= k * batch_size + i < Z.of_nat (length c_similar)
        /\ nth (Z.to_nat k) c_sim' (Finite 0)
           = nth (Z.to_nat (k * batch_size + i)) c_similar (Finite 0))
  /\ (forall k, 0 <= k < j \/ j + Z.of_nat cnt <= k ->
        nth (Z.to_nat k) c_sim' (Finite 0) = nth (Z.to_nat k) c_sim (Finite 0)).
Proof.
  induction cnt as [|cnt IH]; intros j c_sim c_sim' Hj.
  - intros [= <-]. split; [done|]. split; [lia|]. split; [|done].
    intros k Hk. lia.
  - cbn [copy_row]. unfold int_mul, int_add.
    destruct (int_of (j * batch_size)) as [row|] eqn:E1; [|done]. cbn [bind].
    apply int_of_inv in E1 as [-> _].
    destruct (int_of (j * batch_size + i)) as [at_i|] eqn:E2; [|done].
    cbn [bind]. apply int_of_inv in E2 as [-> Hint].
    destruct (read c_similar (j * batch_size + i)) as [x|] eqn:Er; [|done].
    cbn [bind]. destruct (read_inv _ _ _ (Finite 0) Er) as [Hin0 ->].
    unfold write. destruct (_ && _) eqn:Hin; [|done]. cbn [bind].
    apply andb_true_iff in Hin as [_ Hlt%Z.ltb_lt].
    intros Hrun. apply IH in Hrun as (Hlen & Hfit & Hrow & Hrest); [|lia].
    rewrite length_insert in Hlen, Hfit. split; [done|]. split; [lia|].
    split.
    + intros k Hk. destruct (decide (k = j)) as [->|Hne].
      * split; [done|]. split; [done|].
        rewrite Hrest by lia. rewrite nth_insert by lia.
        by rewrite decide_True.
      * apply Hrow. lia.
    + intros k Hk. rewrite Hrest by lia.
      destruct (decide (Z.to_nat k < length c_sim)%nat) as [Hk'|Hk'].
      * rewrite nth_insert by lia. rewrite decide_False by lia. done.
      * rewrite !nth_overflow by (rewrite ?length_insert; lia). done.
Qed.

(** X24. One turn of the batch loop, for the token [start_index + i], with
    [nearest_temp] the table [0, 1, ..., N_TOKENS - 1] that
    [export_distributed_graph] fills, and a row [i] of the similarity
    matrix without NaN; when it returns, the indexes [k * batch_size + i]
    it computed are [int]s inside the matrix, [c_sim] holds row [i],
    [c_nearest] is a permutation of the tokens with every score of its
    first [n + 1] entries at least every score behind them, and the edges
    stored are those of the emission loop for that order: none outside the
    slots [token * n - 1 .. token * n + n]. *)
Theorem process_row_spec (i start_index : Z) (c_similar : list REAL_t)
    (N_TOKENS n batch_size : Z) (b b' : buffers) :
  0 <= n -> 0 <= N_TOKENS <= 2 ^ 30 ->
  Z.of_nat (length (c_nearest b)) = N_TOKENS ->
  (forall k, 0 <= k < N_TOKENS ->
     nth (Z.to_nat (k * batch_size + i)) c_similar (Finite 0) <> NaN) ->
  process_row i start_index c_similar (seqZ 0 N_TOKENS)
    N_TOKENS n batch_size b = Ok b' ->
  (forall k, 0 <= k < N_TOKENS ->
     INT_MIN <= k * batch_size + i <= INT_MAX
     /\ 0 <= k * batch_size + i < Z.of_nat (length c_similar)
     /\ nth (Z.to_nat k) (c_sim b') (Finite 0)
        = nth (Z.to_nat (k * batch_size + i)) c_similar (Finite 0))
  /\ c_nearest b' ≡ₚ seqZ 0 N_TOKENS
  /\ split_at (c_sim b') (c_nearest b') (n + 1)
  /\ length (edges b') = length (edges b)
  /\ (forall s, s < (start_index + i) * n - 1
                \/ (start_index + i) * n + n < s ->
        read (edges b') s = read (edges b) s)
  /\ (forall j, 0 <= j <= n ->
        (j < n ->
         emit_slot (c_nearest b') (start_index + i) n (j + 1)
         <> emit_slot (c_nearest b') (start_index + i) n j) ->
        read (edges b') (emit_slot (c_nearest b') (start_index + i) n j)
        = Ok (emitted (c_nearest b') (c_sim b') (start_index + i) j)).
Proof.
  intros Hn HN Hlen Hnan. unfold process_row, memcpy.
  rewrite length_seqZ, Hlen.
  replace ((0 <=? N_TOKENS) && (N_TOKENS <=? N_TOKENS)
           && (N_TOKENS <=? Z.of_nat (Z.to_nat N_TOKENS)))
    with true
    by (symmetry; rewrite !andb_true_iff; repeat split; apply Z.leb_le; lia).
  cbn [bind].
  rewrite (take_ge (seqZ 0 N_TOKENS)) by (rewrite length_seqZ; lia).
  rewrite drop_ge, app_nil_r by lia.
  destruct (copy_row _ 0 c_similar batch_size i (c_sim b)) as [c_sim1|]
    eqn:Ec; [|done]. cbn [bind].
  destruct (copy_row_spec c_similar batch_size i _ 0 _ _ ltac:(lia) Ec)
    as (Hl1 & Hfit & Hrow & _).
  rewrite Z2Nat.id in Hfit, Hrow by lia.
  unfold int_add at 1.
  destruct (int_of (n + 1)) as [k|] eqn:Ek; [|done]. cbn [bind].
  apply int_of_inv in Ek as [-> _].
  assert (Hvalid : valid c_sim1 (seqZ 0 N_TOKENS)).
  { apply Forall_forall. intros x Hx%elem_of_seqZ. lia. }
  assert (Hnn : no_nan c_sim1 (seqZ 0 N_TOKENS)).
  { apply Forall_forall. intros x Hx%elem_of_seqZ.
    destruct (Hrow x ltac:(lia)) as (_ & _ & ->). apply Hnan. lia. }
  destruct (argpartition_split c_sim1 (seqZ 0 N_TOKENS) (n + 1) Hvalid Hnn)
    as (c_nearest2 & Ha & Hperm & Hsplit);
    [rewrite length_seqZ; lia|lia|].
  rewrite length_seqZ, Z2Nat.id in Ha by lia. rewrite Ha. cbn [bind].
  destruct (emit_loop _ 0 0 start_index i n c_nearest2 c_sim1 (edges b))
    as [edges1|] eqn:Ee; [|done]. cbn [bind].
  intros [= <-]. cbn [c_sim c_nearest edges].
  destruct (emit_loop_whole _ _ _ _ _ _ _ Hn Ee)
    as (He1 & _ & _ & He2 & He3).
  repeat (split; [done|]). split; [|done].
  intros s Hs. apply He2. intros j Hj. unfold emit_slot.
  pose proof (emit_offset_range c_nearest2 start_index i j). lia.
Qed.

End Row.

(** ** [findClusters]: the clusters are disjoint *)

Section Disjoint.
Context {Float : Type} `{FloatOps Float}.
Variable tokenGraph : Graph.t Float.
Variable weights : list (option Integer * Float).

Lemma collect_ids (nodes : list Integer) :
  forall currentClass (cluster : Cluster.t Float) toRemove cluster' toRemove',
  WSI.collect nodes tokenGraph weights currentClass cluster toRemove
    = Ok (cluster', toRemove') ->
  NoDup (member_ids cluster ++ (intValue <$> nodes)) ->
  (forall x, x ∈ member_ids cluster -> x ∈ intValue <$> toRemove) ->
  NoDup (member_ids cluster')
  /\ forall x, x ∈ member_ids cluster' ->
       x ∈ intValue <$> toRemove'
       /\ (x ∈ member_ids cluster \/ x ∈ intValue <$> nodes).
Proof.
  induction nodes as [|node rest IH];
    intros currentClass cluster toRemove cluster' toRemove'.
  - intros [= <- <-] Hnd Hsub. rewrite app_nil_r in Hnd. split; [done|].
    intros x Hx. split; [by apply Hsub|by left].
  - cbn [WSI.collect]. destruct currentClass as [cc|]; [|done].
    cbn [nonnull bind].
    destruct (if intValue cc =? 0 then _ else _) as [cc1|]; [|done].
    cbn [bind].
    destruct (Graph.getNodeClass node tokenGraph) as [cls|]; [|done].
    cbn [bind]. rewrite fmap_cons.
    destruct (WSI.same_ref cls cc1).
    + intros Hrun Hnd Hsub.
      assert (Hids : member_ids (Cluster.addMember cluster node
                                   (WSI.hm_get weights (Some node)))
                     = member_ids cluster
                     \/ member_ids (Cluster.addMember cluster node
                                      (WSI.hm_get weights (Some node)))
                        = member_ids cluster ++ [intValue node]).
      { unfold Cluster.addMember, member_ids.
        destruct (existsb _ _); [by left|right]. simpl.
        by rewrite fmap_app. }
      apply IH in Hrun as [Hnd' Hin'].
      * split; [done|]. intros x Hx. destruct (Hin' x Hx) as [Ht Hor].
        split; [done|]. destruct Hor as [Hor|Hor]; [|right; by right].
        destruct Hids as [Hids|Hids]; rewrite Hids in Hor; [by left|].
        apply elem_of_app in Hor as [?|Hor]; [by left|].
        apply list_elem_of_singleton in Hor as ->. right. by left.
      * destruct Hids as [Hids|Hids]; rewrite Hids.
        -- apply NoDup_app in Hnd as (Hn1 & Hn2 & Hn3).
           apply NoDup_app. split; [done|]. split.
           ++ intros x Hx Hr. apply (Hn2 x Hx). by right.
           ++ by apply NoDup_cons in Hn3 as [_ ?].
        -- by rewrite <- app_assoc.
      * intros x Hx. rewrite fmap_app. apply elem_of_app.
        destruct Hids as [Hids|Hids]; rewrite Hids in Hx.
        -- left. by apply Hsub.
        -- apply elem_of_app in Hx as [Hx|Hx]; [left; by apply Hsub|by right].
    + intros Hrun Hnd Hsub. apply IH in Hrun as [Hnd' Hin'].
      * split; [done|]. intros x Hx. destruct (Hin' x Hx) as [Ht Hor].
        split; [done|]. destruct Hor as [Hor|Hor]; [by left|right; by right].
      * apply NoDup_app in Hnd as (Hn1 & Hn2 & Hn3).
        apply NoDup_app. split; [done|]. split.
        -- intros x Hx Hr. apply (Hn2 x Hx). by right.
        -- by apply NoDup_cons in Hn3 as [_ ?].
      * done.
Qed.

Lemma removeAll_ids (nodes toRemove : list Integer) :
  NoDup (intValue <$> nodes) ->
  NoDup (intValue <$> WSI.removeAll nodes toRemove)
  /\ forall x, x ∈ intValue <$> WSI.removeAll nodes toRemove ->
       x ∈ intValue <$> nodes /\ x ∉ intValue <$> toRemove.
Proof.
  intros Hnd. unfold WSI.removeAll. split.
  - eapply sublist_NoDup; [exact Hnd|]. apply fmap_sublist, sublist_filter.
  - intros x (n & -> & Hn)%list_elem_of_fmap.
    apply list_elem_of_filter in Hn as [Hno Hn].
    split; [by apply list_elem_of_fmap_2|].
    intros (r & Hr & Hin)%list_elem_of_fmap. apply Hno.
    apply Exists_exists. by exists r.
Qed.

Lemma findClusters_loop_disjoint minCluster baseNode :
  forall fuel nodes sense heap,
  NoDup (intValue <$> nodes) ->
  let queue := fst (WSI.findClusters_loop minCluster fuel baseNode tokenGraph
                      weights nodes sense heap) in
  NoDup (concat (member_ids <$> queue))
  /\ forall x, x ∈ concat (member_ids <$> queue) -> x ∈ intValue <$> nodes.
Proof.
  induction fuel as [|fuel IH]; intros nodes sense heap Hnd.
  - destruct nodes; simpl; (split; [constructor|by intros x []%elem_of_nil]).
  - destruct nodes as [|node rest];
      [simpl; split; [constructor|by intros x []%elem_of_nil]|].
    cbn [WSI.findClusters_loop].
    destruct (WSI.collect _ _ _ _ _ _) as [[cluster1 toRemove]|] eqn:Ec;
      [|simpl; split; [constructor|by intros x []%elem_of_nil]].
    destruct (collect_ids _ _ _ _ _ _ Ec) as [Hnd1 Hin1];
      [done|by intros x []%elem_of_nil|].
    destruct (removeAll_ids (node :: rest) toRemove Hnd) as [Hnd2 Hin2].
    assert (Hrest : forall sense1 heap1,
      let queue := fst (WSI.findClusters_loop minCluster fuel baseNode
                          tokenGraph weights
                          (WSI.removeAll (node :: rest) toRemove)
                          sense1 heap1) in
      NoDup (concat (member_ids <$> queue))
      /\ forall x, x ∈ concat (member_ids <$> queue) ->
           x ∈ intValue <$> node :: rest /\ x ∉ intValue <$> toRemove).
    { intros sense1 heap1. destruct (IH _ sense1 heap1 Hnd2) as [Hq1 Hq2].
      split; [done|]. intros x Hx. by apply Hin2, Hq2. }
    destruct (_ >=? minCluster).
    + destruct (valueOf heap _) as [sense1 heap1].
      specialize (Hrest sense1 heap1).
      destruct (WSI.findClusters_loop _ _ _ _ _ _ _ _) as [queue out].
      simpl in *. destruct Hrest as [Hq1 Hq2]. split.
      * apply NoDup_app. split; [done|]. split; [|done].
        intros x Hx Hq. destruct (Hin1 x Hx) as [Ht _].
        by destruct (Hq2 x Hq).
      * intros x [Hx|Hx]%elem_of_app.
        -- destruct (Hin1 x Hx) as [_ [[]%elem_of_nil|?]]. done.
        -- by destruct (Hq2 x Hx).
    + destruct (Hrest sense heap) as [Hq1 Hq2]. split; [done|].
      intros x Hx. by destruct (Hq2 x Hx).
Qed.

End Disjoint.

Section FindClustersDisjoint.
Context {Float : Type} `{FloatOps Float}.

(** X25. No node is a member of two clusters that [findClusters] puts on
    the queue, nor twice a member of one; every member is a present node
    of the ego network. *)
Theorem findClusters_disjoint (distributedGraph : Graph.t Float)
    (minCluster : Z) (setOrder : list Integer -> list Integer)
    (baseNode : Integer) (tokenGraph : Graph.t Float) (heap : nat) :
  (forall l, setOrder l ≡ₚ l) ->
  let queue := fst (WSI.findClusters distributedGraph minCluster setOrder
                      baseNode tokenGraph heap) in
  NoDup (concat (member_ids <$> queue))
  /\ forall x, x ∈ concat (member_ids <$> queue) ->
       x ∈ Graph.nodes tokenGraph.
Proof.
  intros Hset. unfold WSI.findClusters, Graph.getNodes.
  pose proof (getNodes_loop_values tokenGraph
                (Z.to_nat (Graph.size tokenGraph)) 0 heap) as Hv.
  destruct (Graph.getNodes_loop _ 0 tokenGraph heap) as [all heap1].
  simpl in Hv.
  destruct (Graph.getEdges baseNode distributedGraph) as [es|];
    [|simpl; split; [constructor|by intros x []%elem_of_nil]].
  assert (Hall : intValue <$> setOrder all ≡ₚ intValue <$> all)
    by (by rewrite Hset).
  destruct (findClusters_loop_disjoint tokenGraph (WSI.weights_of es)
              minCluster baseNode (length (setOrder all)) (setOrder all)
              (mkInteger None 0) heap1) as [Hnd Hin].
  { rewrite Hall, Hv. apply NoDup_filter, NoDup_seqZ. }
  split; [done|]. intros x Hx. apply Hin in Hx. rewrite Hall, Hv in Hx.
  by apply list_elem_of_filter in Hx as [? _].
Qed.

End FindClustersDisjoint.

(** ** The edge file: the first record of an edge *)

Section FirstRecord.
Context {Float : Type} `{FloatOps Float} `{Runtime}.

Lemma load_loop_app (pre post : list (Z * Z * Float)) :
  forall heap (g : Graph.t Float),
  WSI.load_loop (pre ++ post) heap g
  = (r <- WSI.load_loop pre heap g ;; WSI.load_loop post r.2 r.1).
Proof.
  induction pre as [|[[f t] y] pre IH]; intros heap g; [done|].
  simpl. destruct (valueOf heap f) as [from heap1].
  destruct (valueOf heap1 t) as [to heap2].
  destruct (Graph.addEdge from to y g) as [g1|]; [|done]. simpl. apply IH.
Qed.

Lemma load_loop_keeps (records : list (Z * Z * Float)) :
  forall heap (g g' : Graph.t Float) heap',
  Graph.wf g -> WSI.load_loop records heap g = Ok (g', heap') ->
  Graph.wf g'
  /\ forall v x y, (x, y) ∈ Graph.pairs g v -> (x, y) ∈ Graph.pairs g' v.
Proof.
  induction records as [|[[f t] y] records IH]; intros heap g g' heap' Hwf.
  - by intros [= <- <-].
  - cbn [WSI.load_loop]. destruct (valueOf heap f) as [from heap1].
    destruct (valueOf heap1 t) as [to heap2].
    destruct (Graph.addEdge from to y g) as [g1|] eqn:E; simpl; [|done].
    intros Hrun.
    destruct (addEdge_spec _ _ _ _ _ E Hwf) as (Hwf1 & _ & Hcases).
    destruct (IH _ _ _ _ Hwf1 Hrun) as [Hwf' Hkeep].
    split; [done|]. intros v x0 y0 Hin. apply Hkeep.
    destruct Hcases as [[_ Hsame]|(_ & _ & _ & _ & Hext)].
    + destruct (Hsame v) as [_ ->]. done.
    + destruct (Hext v) as (extra & -> & _). apply elem_of_app. by left.
Qed.

(** X26. The weight of an edge of the loaded graph is the weight of the
    first record of the file that joins its two nodes, in either order:
    later records for the same pair change nothing. *)
Theorem loadDistributedGraph_first_record
    (pre post : list (Z * Z * Float)) (a b : Z) (x : Float)
    (heap heap' : nat) (g : Graph.t Float) :
  WSI.loadDistributedGraph (pre ++ (a, b, x) :: post) heap = Ok (g, heap') ->
  Forall (fun r => ~ joins r a b) pre ->
  ~ (a = b /\ -128 <= a <= 127) ->
  forall from to : Integer,
  intValue from = a -> intValue to = b ->
  Graph.getEdgeWeight from to g = Ok x
  /\ Graph.getEdgeWeight to from g = Ok x.
Proof.
  unfold WSI.loadDistributedGraph. intros Hrun Hpre Hself from to Hf Ht.
  destruct (Graph.new 200000 220) as [g0|] eqn:E0; simpl in Hrun; [|done].
  pose proof (new_wf _ _ _ E0) as Hwf0.
  rewrite load_loop_app in Hrun.
  destruct (WSI.load_loop pre heap g0) as [[g1 heap1]|] eqn:E1;
    simpl in Hrun; [|done].
  destruct (load_loop_keeps _ _ _ _ _ Hwf0 E1) as [Hwf1 _].
  assert (Habsent : b ∉ Graph.adj g1 a).
  { rewrite (load_loop_adj _ _ _ _ _ Hwf0 E1 a b).
    intros [Hin|[[y Hy] _]].
    - apply new_Ok in E0 as [-> _]. unfold Graph.adj in Hin. simpl in Hin.
      rewrite lookup_empty in Hin. by apply elem_of_nil in Hin.
    - rewrite Forall_forall in Hpre. destruct Hy as [Hy|Hy].
      + apply (Hpre _ Hy). by left.
      + apply (Hpre _ Hy). by right. }
  pose proof (valueOf_same heap1 a b) as Hsame.
  pose proof (valueOf_intValue heap1 a) as Hva.
  destruct (valueOf heap1 a) as [fa heap2]. simpl in Hsame, Hva.
  pose proof (valueOf_intValue heap2 b) as Hvb.
  destruct (valueOf heap2 b) as [tb heap3]. simpl in Hsame, Hvb.
  destruct (Graph.addEdge fa tb x g1) as [g2|] eqn:E2; simpl in Hrun;
    [|done].
  destruct (addEdge_spec _ _ _ _ _ E2 Hwf1) as (Hwf2 & _ & Hcases).
  destruct (load_loop_keeps _ _ _ _ _ Hwf2 Hrun) as [Hwf Hkeep].
  destruct Hcases as [[[Hs|Hin] _]|(_ & _ & Hp1 & Hp2 & _)].
  - exfalso. rewrite Hsame in Hs. apply bool_decide_eq_true in Hs. tauto.
  - exfalso. rewrite Hva, Hvb in Hin. done.
  - rewrite Hva, Hvb in Hp1, Hp2. apply Hkeep in Hp1, Hp2.
    split; apply getEdgeWeight_found; try done; by rewrite Hf, Ht.
Qed.

End FirstRecord.

(** ** Runs of the further properties *)

Section FurtherRuns.
#[local] Existing Instance vm.

(** Where the VM does not grant what [addNode] asks for: arrays of
    [2^31 - 1] cells for the node [2^31 - 2], and collections of a negative
    capacity. *)
Example addEdge_out_of_memory :
  Graph.addEdge (box 2147483646) (box 1) (1 # 2)%Q Graph.new_default
  = Err OutOfMemoryError.
Proof. vm_compute. reflexivity. Qed.

Example addNode_negative_capacity :
  rmap Graph.size (g <- Graph.new (Float := Q) 10 (-1) ;;
                   Graph.addNode (box 1) g)
  = Err IllegalArgumentException.
Proof. vm_compute. reflexivity. Qed.

(** A batch whose start is not an [int]. *)
Example calculate_edges_overflow :
  rmap snd (calculate_edges blas_M3 2 vectors3 M3 (Finite <$> [0; 0]%Q)
              (seqZ 0 3) 3 2 1 (2 ^ 30) bufs_zero)
  = Err SignedOverflow.
Proof. vm_compute. reflexivity. Qed.


Lemma tri_built : Graph.built tri.
Proof.
  eapply Graph.built_addEdge
    with (g := graph_of (Graph.addEdge (box 2) (box 3) (1 # 4)%Q g12))
         (from := box 1) (to := box 3) (weight := (3 # 4)%Q).
  - eapply Graph.built_addEdge with (g := g12)
      (from := box 2) (to := box 3) (weight := (1 # 4)%Q).
    + exact g12_built.
    + vm_compute. reflexivity.
  - vm_compute. reflexivity.
Defined.

Lemma readInt_decodes_witness :
  Forall LEDataInputStream.is_byte [-2; -1; -1; -1; 7]
  /\ exists x,
       LEDataInputStream.readInt [-2; -1; -1; -1; 7]
         = LEDataInputStream.Got x [7]
       /\ INT_MIN <= x <= INT_MAX
       /\ LEDataInputStream.le_bytes 4 x = [-2; -1; -1; -1].
Proof.
  assert (Hb : Forall LEDataInputStream.is_byte [-2; -1; -1; -1; 7])
    by (repeat constructor; unfold LEDataInputStream.is_byte; lia).
  split; [exact Hb|].
  exact (readInt_decodes [-2; -1; -1; -1; 7] Hb).
Defined.

Lemma readInt_le_bytes_witness :
  INT_MIN <= -2 <= INT_MAX
  /\ LEDataInputStream.readInt (LEDataInputStream.le_bytes 4 (-2) ++ [7])
     = LEDataInputStream.Got (-2) [7].
Proof.
  split; [unfold INT_MIN, INT_MAX; lia|].
  apply (readInt_le_bytes (-2) [7]). unfold INT_MIN, INT_MAX. lia.
Defined.

Lemma readShort_decodes_witness :
  Forall LEDataInputStream.is_byte [-1; -1; 7]
  /\ exists u,
       LEDataInputStream.readUnsignedShort [-1; -1; 7]
         = LEDataInputStream.Got u [7]
       /\ 0 <= u < 65536
       /\ LEDataInputStream.readChar [-1; -1; 7] = LEDataInputStream.Got u [7]
       /\ LEDataInputStream.readShort [-1; -1; 7]
          = LEDataInputStream.Got (LEDataInputStream.narrow 16 u) [7]
       /\ LEDataInputStream.le_bytes 2 u = [-1; -1].
Proof.
  assert (Hb : Forall LEDataInputStream.is_byte [-1; -1; 7])
    by (repeat constructor; unfold LEDataInputStream.is_byte; lia).
  split; [exact Hb|].
  exact (readShort_decodes [-1; -1; 7] Hb).
Defined.

Lemma readLong_le_bytes_witness :
  - 2 ^ 63 <= -3 < 2 ^ 63
  /\ LEDataInputStream.readLong (LEDataInputStream.le_bytes 8 (-3) ++ [7])
     = LEDataInputStream.Got (-3) [7].
Proof.
  split; [lia|]. apply (readLong_le_bytes (-3) [7]). lia.
Defined.

Lemma built_adjacency_witness :
  Graph.built g12
  /\ NoDup (Graph.adj g12 1)
  /\ length (Graph.w g12 1) = length (Graph.adj g12 1).
Proof.
  split; [exact g12_built|].
  pose proof (built_adjacency g12 1 g12_built) as (Hnd & Hlen & _).
  split; [exact Hnd | exact Hlen].
Defined.

Lemma in_nodes_g12_1 : intValue (box 1) ∈ Graph.nodes g12.
Proof. apply (bool_decide_unpack _). vm_compute. exact I. Defined.

Lemma getEdgeWeight_present_witness :
  Graph.built g12
  /\ intValue (box 1) ∈ Graph.nodes g12
  /\ exists x, Graph.getEdgeWeight (box 1) (box 2) g12 = Ok x.
Proof.
  split; [exact g12_built|]. split; [exact in_nodes_g12_1|].
  destruct (getEdgeWeight_present g12 (box 1) (box 2) g12_built
              in_nodes_g12_1) as (x & Hx & _).
  exists x. exact Hx.
Defined.

Lemma in_adj_g12 : intValue (box 2) ∈ Graph.adj g12 (intValue (box 1)).
Proof. apply (bool_decide_unpack _). vm_compute. exact I. Defined.

Lemma addEdge_keeps_weights_witness :
  Graph.built g12
  /\ Graph.addEdge (box 3) (box 2) (1 # 4)%Q g12 = Ok g123
  /\ intValue (box 2) ∈ Graph.adj g12 (intValue (box 1))
  /\ Graph.getEdgeWeight (box 1) (box 2) g123
     = Graph.getEdgeWeight (box 1) (box 2) g12.
Proof.
  assert (Hadd : Graph.addEdge (box 3) (box 2) (1 # 4)%Q g12 = Ok g123)
    by (vm_compute; reflexivity).
  split; [exact g12_built|]. split; [exact Hadd|].
  split; [exact in_adj_g12|].
  apply (addEdge_keeps_weights g12 g123 (box 3) (box 2) (box 1) (box 2)
           (1 # 4)%Q g12_built Hadd in_adj_g12).
Defined.


Lemma addEdge_hasNode_witness :
  Graph.addEdge (box 1) (box 2) (1 # 2)%Q Graph.new_default = Ok g12
  /\ same_object (box 1) (box 2) = false
  /\ Graph.hasNode (box 1) g12 = Ok true
  /\ Graph.hasNode (box 2) g12 = Ok true.
Proof.
  assert (Hadd : Graph.addEdge (box 1) (box 2) (1 # 2)%Q Graph.new_default
                 = Ok g12) by (vm_compute; reflexivity).
  split; [exact Hadd|]. split; [reflexivity|].
  pose proof (addEdge_hasNode (box 1) (box 2) (1 # 2)%Q Graph.new_default
                g12 Hadd eq_refl) as (H1 & H2 & _).
  split; [exact H1 | exact H2].
Defined.

Lemma getNodes_lists_witness :
  Graph.built g12
  /\ Z.of_nat (length (intValue <$> (Graph.getNodes g12 0).1))
     = Graph.getSize g12.
Proof.
  split; [exact g12_built|].
  pose proof (getNodes_lists g12 0 g12_built) as (_ & _ & _ & Hlen).
  exact Hlen.
Defined.

Lemma getEdges_pairs_witness :
  Graph.built g12
  /\ 0 <= intValue (box 1) < Graph.size g12
  /\ exists ns es,
       Graph.getNeighbors (box 1) g12 = Ok ns
       /\ Graph.getEdges (box 1) g12 = Ok es
       /\ es.*1 = ns.
Proof.
  assert (Hsz : Graph.size g12 = 10) by (vm_compute; reflexivity).
  assert (Hr : 0 <= intValue (box 1) < Graph.size g12)
    by (rewrite Hsz; simpl; lia).
  split; [exact g12_built|]. split; [exact Hr|].
  destruct (getEdges_pairs g12 (box 1) g12_built Hr)
    as (ns & es & Hn & He & Hfst & _).
  exists ns, es. split; [exact Hn|]. split; [exact He | exact Hfst].
Defined.

Lemma sortEdges_keeps_graph_witness :
  (forall a b : Q, Fcompare a b = Gt -> Fcompare b a <> Gt)
  /\ Graph.built g123
  /\ Graph.sortEdges g123 = Ok g123_sorted
  /\ Graph.wf g123_sorted
  /\ Graph.nodes g123_sorted = Graph.nodes g123.
Proof.
  assert (Hs : Graph.sortEdges g123 = Ok g123_sorted)
    by (vm_compute; reflexivity).
  split; [exact Qcompare_asym|]. split; [exact g123_built|].
  split; [exact Hs|].
  pose proof (sortEdges_keeps_graph Qcompare_asym g123 g123_sorted
                g123_built Hs) as (Hwf & Hn & _).
  split; [exact Hwf | exact Hn].
Defined.

Lemma loadDistributedGraph_adj_witness :
  WSI.loadDistributedGraph demo_records 0 = Ok (demo_graph, 2%nat)
  /\ (200 ∈ Graph.adj demo_graph 200
      <-> (exists y, (200, 200, y) ∈ demo_records
                     \/ (200, 200, y) ∈ demo_records)
          /\ ~ (200 = 200 /\ -128 <= 200 <= 127)).
Proof.
  assert (Hl : WSI.loadDistributedGraph demo_records 0
               = Ok (demo_graph, 2%nat)) by (vm_compute; reflexivity).
  split; [exact Hl|].
  apply (loadDistributedGraph_adj demo_records 0 2 demo_graph Hl 200 200).
Defined.


Lemma createTokenGraph_inside_witness :
  Graph.wf tri
  /\ WSI.createTokenGraph tri 10 10 1 0 = Ok (tri_ego, 0%nat)
  /\ inside tri 1 tri_ego.
Proof.
  assert (Hc : WSI.createTokenGraph tri 10 10 1 0 = Ok (tri_ego, 0%nat))
    by (vm_compute; reflexivity).
  split; [exact (built_wf tri tri_built)|]. split; [exact Hc|].
  apply (createTokenGraph_inside tri 10 10 1 0 0 tri_ego
           (built_wf tri tri_built) Hc).
Defined.

Lemma chineseWhispers_labels_witness :
  (forall (z : nat) (l : list Integer), l ≡ₚ l)
  /\ (forall l : list (option Integer * Q), l ≡ₚ l)
  /\ Graph.wf g123
  /\ exists g' heap',
       snd (WSI.chineseWhispers 100 (fun _ l => l) (fun l => l) g123 0)
         = Ok (g', heap')
       /\ relabelled g123 g' /\ labelled g'.
Proof.
  split; [reflexivity|]. split; [reflexivity|].
  split; [exact (built_wf g123 g123_built)|].
  apply (chineseWhispers_labels (fun _ l => l) (fun l => l)
           (fun _ _ => reflexivity _) (fun _ => reflexivity _)
           100 g123 0 (built_wf g123 g123_built)).
Defined.


Lemma worker_ranges_witness :
  0 <= 10 /\ 0 < 3 /\ 0 <= 1 < 3
  /\ 0 <= WSI.batchStart 10 3 1 <= WSI.batchEnd 10 3 1
  /\ WSI.batchEnd 10 3 1 <= 10.
Proof.
  split; [lia|]. split; [lia|]. split; [lia|].
  pose proof (worker_ranges 10 3 1 ltac:(lia) ltac:(lia) ltac:(lia))
    as (H1 & H2 & _).
  split; [exact H1 | exact H2].
Defined.


Lemma emit_loop_slots_witness :
  0 <= 1
  /\ emit_loop (Z.to_nat (1 + 1)) 0 0 0 1 1 (c_nearest bufs1) (c_sim bufs1)
       edges_after_token0 = Ok (edges bufs1)
  /\ length (edges bufs1) = length edges_after_token0
  /\ read (edges bufs1) ((0 + 1) * 1 + 0 - 1)
     = Ok {| from_index := 0 + 1; to_index := 0 + 1;
             weight := nth (Z.to_nat (0 + 1)) (c_sim bufs1) (Finite 0) |}.
Proof.
  assert (He : emit_loop (Z.to_nat (1 + 1)) 0 0 0 1 1 (c_nearest bufs1)
                 (c_sim bufs1) edges_after_token0 = Ok (edges bufs1))
    by (vm_compute; reflexivity).
  split; [lia|]. split; [exact He|].
  pose proof (emit_loop_slots (c_nearest bufs1) (c_sim bufs1) 0 1 1
                edges_after_token0 (edges bufs1) ltac:(lia) He)
    as (Hlen & _ & _ & _ & _ & Hself).
  split; [exact Hlen|]. apply Hself; [lia|]. vm_compute. reflexivity.
Defined.

Lemma process_row_spec_witness :
  0 <= 1 /\ 0 <= 3 <= 2 ^ 30
  /\ Z.of_nat (length (c_nearest bufs0)) = 3
  /\ (forall k, 0 <= k < 3 ->
        nth (Z.to_nat (k * 3 + 1)) S3x3 (Finite 0) <> NaN)
  /\ process_row 1 0 S3x3 (seqZ 0 3) 3 1 3 bufs0 = Ok bufs1
  /\ c_nearest bufs1 ≡ₚ seqZ 0 3
  /\ split_at (c_sim bufs1) (c_nearest bufs1) (1 + 1).
Proof.
  assert (Hp : process_row 1 0 S3x3 (seqZ 0 3) 3 1 3 bufs0 = Ok bufs1)
    by (vm_compute; reflexivity).
  assert (Hn : forall k, 0 <= k < 3 ->
                 nth (Z.to_nat (k * 3 + 1)) S3x3 (Finite 0) <> NaN).
  { intros k Hk.
    assert (Hc : k = 0 \/ k = 1 \/ k = 2) by lia.
    destruct Hc as [-> | [-> | ->]]; discriminate. }
  split; [lia|]. split; [lia|]. split; [reflexivity|]. split; [exact Hn|].
  split; [exact Hp|].
  pose proof (process_row_spec 1 0 S3x3 3 1 3 bufs0 bufs1 ltac:(lia)
                ltac:(lia) eq_refl Hn Hp) as (_ & Hperm & Hsplit & _).
  split; [exact Hperm | exact Hsplit].
Defined.

Lemma findClusters_disjoint_witness :
  (forall l : list Integer, id l ≡ₚ l)
  /\ member_ids
       <$> fst (WSI.findClusters hub 1 id (box 0) (fst hub_labelled)
                  (snd hub_labelled))
     = [[1; 2]; [3; 4]]
  /\ NoDup (concat (member_ids
                      <$> fst (WSI.findClusters hub 1 id (box 0)
                                 (fst hub_labelled) (snd hub_labelled)))).
Proof.
  split; [reflexivity|]. split; [vm_compute; reflexivity|].
  pose proof (findClusters_disjoint hub 1 id (box 0) (fst hub_labelled)
                (snd hub_labelled) (fun _ => reflexivity _)) as [Hnd _].
  exact Hnd.
Defined.

Lemma loadDistributedGraph_first_record_witness :
  WSI.loadDistributedGraph ([] ++ (1, 2, (1 # 2)%Q)
                               :: [(200, 200, 1%Q); (2, 1, (3 # 4)%Q)]) 0
    = Ok (demo_graph, 2%nat)
  /\ Forall (fun r : Z * Z * Q => ~ joins r 1 2) []
  /\ ~ (1 = 2 /\ -128 <= 1 <= 127)
  /\ Graph.getEdgeWeight (box 1) (box 2) demo_graph = Ok (1 # 2)%Q
  /\ Graph.getEdgeWeight (box 2) (box 1) demo_graph = Ok (1 # 2)%Q.
Proof.
  assert (Hl : WSI.loadDistributedGraph
                 ([] ++ (1, 2, (1 # 2)%Q)
                     :: [(200, 200, 1%Q); (2, 1, (3 # 4)%Q)]) 0
               = Ok (demo_graph, 2%nat)) by (vm_compute; reflexivity).
  assert (Hne : ~ (1 = 2 /\ -128 <= 1 <= 127)) by lia.
  split; [exact Hl|]. split; [constructor|]. split; [exact Hne|].
  apply (loadDistributedGraph_first_record []
           [(200, 200, 1%Q); (2, 1, (3 # 4)%Q)] 1 2 (1 # 2)%Q 0 2 demo_graph
           Hl (Forall_nil_2 _) Hne (box 1) (box 2) eq_refl eq_refl).
Defined.

End FurtherRuns.
